(** * cyber-sparks: the adaptive-learning backend and the client's learner model

    A shallow embedding of the Express backend (the upstream client
    [callGoogleAPI], the extractor [parseJSONFromText], the local
    generators, the six POST content routes and the error-handling
    middleware) and of the client of [script.js]: the classes
    [KnowledgeGraph], [LearningEngine], [GapAnalyzer] and
    [PersonalizationEngine], what the client keeps of a response, and the
    data it gives the graph renderer and the charts.  The properties are
    those the specification states about them, and further ones the code
    shows.

    Conventions of the embedding.
    - A JavaScript string is the list of its UTF-16 code units ([str]).
    - The numbers the server computes with (counts, durations, indices) are
      integer-valued and are modelled as [Z]: on the safe-integer range the
      engine's double arithmetic is exact and [String(n)] is plain decimal
      notation.  An integer a request sends may be any: [Number_toString]
      prints the double nearest to it, in exponent notation from 1e21 on.
      Numbers inside parsed JSON are kept as the rational the literal
      denotes, which is the number the engine holds and sends back only
      inside the range of the doubles ([in_double_range]): beyond it the
      engine holds [Infinity] and sends [null], below it it holds 0.  The
      client's scores and durations are measured, fractional quantities:
      they are IEEE doubles ([float]).
    - A request body is the parsed JSON object, modelled at the types the
      routes document for its fields; an absent field is [None].  The one
      field a route reads a property of, [userProfile] of /api/ai-quiz, may
      also be [null], on which the read throws.  A body that is no object,
      or holds a field of another type, is outside the model.
    - Exceptions are explicit: [completion] for synchronous code, [prog] for
      an async handler, whose only outside call is [callGoogleAPI].
    - [callGoogleAPI] itself is modelled from what [fetch] ends with on;
      [JSON.stringify] and [String] of a value that is no string stay
      parameters.
    - The body the client reads is the body the route sent.  What the DOM
      and the drawing libraries do with the data is not modelled. *)

From Stdlib Require Import String Ascii.
From Stdlib Require Import ZArith NArith QArith Qround List Bool Lia.
From Stdlib Require Import Floats.
Import ListNotations.
Close Scope Q_scope.
Open Scope string_scope.
Open Scope list_scope.

Set Implicit Arguments.

(** [lia] is to see through division and remainder by a constant. *)
Ltac Zify.zify_post_hook ::= Z.to_euclidean_division_equations.
Set Warnings "-register-all".

(* ================================================================== *)
(** ** Strings as code units *)

Definition str := list N.

Definition lit (s : string) : str := List.map N_of_ascii (list_ascii_of_string s).

Notation "$ s" := (lit s) (at level 9, s at level 0, format "$ s").

Fixpoint str_eqb (a b : str) : bool :=
  match a, b with
  | [], [] => true
  | x :: a', y :: b' => N.eqb x y && str_eqb a' b'
  | _, _ => false
  end.

Module Ch.
Definition TAB : N := 9.
Definition LF : N := 10.
Definition VT : N := 11.
Definition FF : N := 12.
Definition CR : N := 13.
Definition SPACE : N := 32.
Definition DQUOTE : N := 34.
Definition SQUOTE : N := 39.
Definition PLUS : N := 43.
Definition COMMA : N := 44.
Definition MINUS : N := 45.
Definition DOT : N := 46.
Definition SLASH : N := 47.
Definition ZERO : N := 48.
Definition COLON : N := 58.
Definition LBRACKET : N := 91.
Definition BACKSLASH : N := 92.
Definition RBRACKET : N := 93.
Definition UNDERSCORE : N := 95.
Definition BACKTICK : N := 96.
Definition LBRACE : N := 123.
Definition RBRACE : N := 125.
End Ch.

Open Scope N_scope.

Definition is_digit (c : N) : bool := (48 <=? c) && (c <=? 57).

(** [\w] of a regular expression without the [u] flag: [A-Za-z0-9_]. *)
Definition is_word (c : N) : bool :=
  is_digit c || ((65 <=? c) && (c <=? 90)) || ((97 <=? c) && (c <=? 122)) || (c =? Ch.UNDERSCORE).

(** [\s], which is also what [String.prototype.trim] and [parseInt] strip:
    WhiteSpace and LineTerminator code units. *)
Definition is_space (c : N) : bool :=
  ((9 <=? c) && (c <=? 13)) || (c =? 32) || (c =? 160) || (c =? 5760)
  || ((8192 <=? c) && (c <=? 8202)) || (c =? 8232) || (c =? 8233)
  || (c =? 8239) || (c =? 8287) || (c =? 12288) || (c =? 65279).

(** ASCII case folding: what the [i] flag does to the letters of the fence
    pattern, and what [toLowerCase] does to the letters the routes compare. *)
Definition lower (c : N) : N := if (65 <=? c) && (c <=? 90) then c + 32 else c.

Definition toLowerCase (s : str) : str := List.map lower s.

Fixpoint drop_spaces (s : str) : str :=
  match s with
  | c :: s' => if is_space c then drop_spaces s' else s
  | [] => []
  end.

Definition trim_end (s : str) : str := rev (drop_spaces (rev s)).

(** [String.prototype.trim] *)
Definition trim (s : str) : str := trim_end (drop_spaces s).

(** [prefix p s]: [s] starts with [p]; [iprefix] compares letters without
    case, as a pattern under the [i] flag does. *)
Fixpoint prefix (p s : str) : bool :=
  match p, s with
  | [], _ => true
  | x :: p', y :: s' => (x =? y) && prefix p' s'
  | _ :: _, [] => false
  end.

Fixpoint iprefix (p s : str) : bool :=
  match p, s with
  | [], _ => true
  | x :: p', y :: s' => (lower x =? lower y) && iprefix p' s'
  | _ :: _, [] => false
  end.

(* ================================================================== *)
(** ** Numbers and their decimal notation *)

(** The digits of [n], most significant first, pushed in front of [acc];
    [fuel] bounds the number of digits. *)
Fixpoint digits_onto (fuel : nat) (n : N) (acc : str) : str :=
  match fuel with
  | O => acc
  | S f =>
      let acc' := (Ch.ZERO + n mod 10) :: acc in
      if n <? 10 then acc' else digits_onto f (n / 10) acc'
  end.

(** A number has no more decimal digits than binary ones. *)
Definition N_to_string (n : N) : str := digits_onto (S (N.to_nat (N.size n))) n [].

(** [String(n)] / [`${n}`] for a loop counter, an array index or a status
    code [n]: plain decimal notation, which is what the engine prints for a
    safe integer.  A number that the request supplies can be any double:
    [Number_toString] below prints those. *)
Definition number_to_string (n : Z) : str :=
  match n with
  | Z0 => $"0"
  | Zpos p => N_to_string (Npos p)
  | Zneg p => Ch.MINUS :: N_to_string (Npos p)
  end.

(** The value of the longest prefix of decimal digits, continuing from
    [acc]; [None] when [s] starts with no digit and [seen] is false. *)
Fixpoint read_digits (seen : bool) (acc : N) (s : str) : option N :=
  match s with
  | c :: s' =>
      if is_digit c then read_digits true (10 * acc + (c - Ch.ZERO)) s'
      else if seen then Some acc else None
  | [] => if seen then Some acc else None
  end.

(** [parseInt(s, 10)] on a string; [None] is [NaN]. *)
Definition parseInt (s : str) : option Z :=
  match drop_spaces s with
  | c :: s' =>
      if c =? Ch.MINUS then option_map (fun n => Z.opp (Z.of_N n)) (read_digits false 0 s')
      else if c =? Ch.PLUS then option_map Z.of_N (read_digits false 0 s')
      else option_map Z.of_N (read_digits false 0 (c :: s'))
  | [] => None
  end.

Close Scope N_scope.

(* ================================================================== *)
(** ** Integers beyond the safe range *)

Open Scope Z_scope.

(** The double nearest to the integer [a], for [a] above 2^53: 53 leading
    bits, the rest rounded to nearest, ties to the even mantissa.  [None]
    is the overflow to [Infinity]. *)
Definition nearest_double (a : Z) : option Z :=
  let e := Z.log2 a - 52 in
  let q := a / 2 ^ e in
  let r := a mod 2 ^ e in
  let half := 2 ^ (e - 1) in
  let m := if r <? half then q
           else if half <? r then q + 1
           else if Z.even q then q else q + 1 in
  let x := m * 2 ^ e in
  if 2 ^ 1024 <=? x then None else Some x.

(** The decimal the engine prints for the double [x]: of the multiples of a
    power of ten that read back as [x], the one with the highest power, and
    of two such the nearer to [x].  [lo4] and [hi4] are four times the ends
    of the interval of the numbers that round to [x]; the ends belong to it
    ([closed]) when the mantissa of [x] is even.  [p] counts down from the
    number of digits of [x]. *)
Fixpoint shortest_decimal (x lo4 hi4 : Z) (closed : bool) (p : nat) : Z :=
  let scale := 10 ^ Z.of_nat p in
  let below := x / scale * scale in
  let above := below + scale in
  let inside v :=
    if closed then (lo4 <=? 4 * v) && (4 * v <=? hi4)
    else (lo4 <? 4 * v) && (4 * v <? hi4) in
  let nearest :=
    if x - below <? above - x then below
    else if above - x <? x - below then above
    else if Z.even (below / scale) then below else above in
  match inside below, inside above, p with
  | true, true, _ => nearest
  | true, false, _ => below
  | false, true, _ => above
  | false, false, S p' => shortest_decimal x lo4 hi4 closed p'
  | false, false, O => x
  end.

Fixpoint drop_zeros (s : str) : str :=
  match s with
  | c :: s' => if (c =? Ch.ZERO)%N then drop_zeros s' else s
  | [] => []
  end.

(** [d.ddde+N]: the significant digits of [v] and its decimal exponent. *)
Definition exponent_notation (v : Z) : str :=
  let digits := N_to_string (Z.to_N v) in
  let exponent := $"e+" ++ N_to_string (N.of_nat (length digits - 1)) in
  match rev (drop_zeros (rev digits)) with
  | [d] => d :: exponent
  | d :: more => d :: Ch.DOT :: more ++ exponent
  | [] => []
  end.

(** [String(n)] / [`${n}`] for an integer-valued number of any size
    (Number::toString).  A safe integer prints as it is.  Above, the number
    is the double nearest to [n]; it prints with the fewest digits that
    read back as that double, padded with zeros below 1e21 and in exponent
    notation from there on. *)
Definition Number_toString (n : Z) : str :=
  if Z.abs n <=? 2 ^ 53 then number_to_string n
  else
    let sign := if n <? 0 then [Ch.MINUS] else [] in
    match nearest_double (Z.abs n) with
    | None => sign ++ $"Infinity"
    | Some x =>
        let e := Z.log2 x - 52 in
        let m := x / 2 ^ e in
        let gap_below := if m =? 2 ^ 52 then 2 ^ (e - 1) else 2 ^ e in
        let v := shortest_decimal x (4 * x - 2 * gap_below) (4 * x + 2 * 2 ^ e) (Z.even m)
                   (length (N_to_string (Z.to_N x))) in
        sign ++ (if v <? 10 ^ 21 then N_to_string (Z.to_N v) else exponent_notation v)
    end.

Close Scope Z_scope.

(* ================================================================== *)
(** ** Values, exceptions *)

(** The values that travel through the server: what [JSON.parse] builds and
    what [res.json] sends.  An object keeps its properties in insertion
    order; assigning to an existing key replaces the value in place. *)
Inductive value : Type :=
| VUndefined
| VNull
| VBool (b : bool)
| VNum (q : Q)
| VStr (s : str)
| VArr (items : list value)
| VObj (props : list (str * value)).

Definition num (n : Z) : value := VNum (inject_Z n).

Fixpoint obj_get (props : list (str * value)) (k : str) : value :=
  match props with
  | [] => VUndefined
  | (k', v) :: rest => if str_eqb k' k then v else obj_get rest k
  end.

(** [o[k] = v] *)
Fixpoint obj_set (props : list (str * value)) (k : str) (v : value) : list (str * value) :=
  match props with
  | [] => [(k, v)]
  | (k', v') :: rest =>
      if str_eqb k' k then (k', v) :: rest else (k', v') :: obj_set rest k v
  end.

(** [o.k] for a key that no prototype defines: only an object's own
    property answers. *)
Definition get (o : value) (k : str) : value :=
  match o with
  | VObj props => obj_get props k
  | _ => VUndefined
  end.

(** ToBoolean *)
Definition truthy (v : value) : bool :=
  match v with
  | VUndefined | VNull => false
  | VBool b => b
  | VNum q => negb (Qeq_bool q 0%Q)
  | VStr s => match s with [] => false | _ => true end
  | VArr _ | VObj _ => true
  end.

Definition isArray (v : value) : bool :=
  match v with VArr _ => true | _ => false end.

Inductive js_error : Type :=
| Error (message : str)
| TypeError (message : str)
| ReferenceError (message : str)
| SyntaxError (message : str).

Definition message (e : js_error) : str :=
  match e with
  | Error m | TypeError m | ReferenceError m | SyntaxError m => m
  end.

(** The outcome of a synchronous computation. *)
Inductive completion (A : Type) : Type :=
| Normal (a : A)
| Throw (e : js_error).

Arguments Normal {A} a.
Arguments Throw {A} e.

(* ================================================================== *)
(** ** JSON.parse *)

Module Json.

Open Scope N_scope.

(** The result of reading a prefix of the text: the value read and the text
    left, a syntax error, or the recursion budget used up. *)
Inductive parsed (A : Type) : Type :=
| Parsed (a : A) (rest : str)
| Unexpected
| Exhausted.

Arguments Parsed {A} a rest.
Arguments Unexpected {A}.
Arguments Exhausted {A}.

Definition pmap {A B : Type} (f : A -> B) (p : parsed A) : parsed B :=
  match p with
  | Parsed a rest => Parsed (f a) rest
  | Unexpected => Unexpected
  | Exhausted => Exhausted
  end.

(** JSON white space: tab, line feed, carriage return, space. *)
Definition is_ws (c : N) : bool :=
  (c =? Ch.TAB) || (c =? Ch.LF) || (c =? Ch.CR) || (c =? Ch.SPACE).

Fixpoint skip_ws (s : str) : str :=
  match s with
  | c :: s' => if is_ws c then skip_ws s' else s
  | [] => []
  end.

Definition hex_digit (c : N) : option N :=
  if is_digit c then Some (c - 48)
  else if (65 <=? c) && (c <=? 70) then Some (c - 55)
  else if (97 <=? c) && (c <=? 102) then Some (c - 87)
  else None.

Definition hex4 (a b c d : N) : option N :=
  match hex_digit a, hex_digit b, hex_digit c, hex_digit d with
  | Some x, Some y, Some z, Some w => Some (((x * 16 + y) * 16 + z) * 16 + w)
  | _, _, _, _ => None
  end.

(** The character a single-letter escape stands for. *)
Definition escape (c : N) : option N :=
  if c =? Ch.DQUOTE then Some Ch.DQUOTE
  else if c =? Ch.BACKSLASH then Some Ch.BACKSLASH
  else if c =? Ch.SLASH then Some Ch.SLASH
  else if c =? 98 then Some 8
  else if c =? 102 then Some Ch.FF
  else if c =? 110 then Some Ch.LF
  else if c =? 114 then Some Ch.CR
  else if c =? 116 then Some Ch.TAB
  else None.

(** A string's characters, after its opening quote, up to the closing one. *)
Fixpoint string_body (s : str) : parsed str :=
  match s with
  | [] => Unexpected
  | c :: s' =>
      if c =? Ch.DQUOTE then Parsed [] s'
      else if c =? Ch.BACKSLASH then
        match s' with
        | e :: s'' =>
            if e =? 117 then
              match s'' with
              | h1 :: h2 :: h3 :: h4 :: s3 =>
                  match hex4 h1 h2 h3 h4 with
                  | Some u => pmap (cons u) (string_body s3)
                  | None => Unexpected
                  end
              | _ => Unexpected
              end
            else
              match escape e with
              | Some u => pmap (cons u) (string_body s'')
              | None => Unexpected
              end
        | [] => Unexpected
        end
      else if c <? 32 then Unexpected
      else pmap (cons c) (string_body s')
  end.

(** The maximal run of digits at the head of [s]: its value continuing from
    [acc], how many digits it has, and the text after it. *)
Fixpoint digit_run (acc : N) (count : nat) (s : str) : N * nat * str :=
  match s with
  | c :: s' => if is_digit c then digit_run (10 * acc + (c - 48)) (S count) s' else (acc, count, s)
  | [] => (acc, count, [])
  end.

(** The rational [(-1)^neg * mant * 10^e], in lowest terms. *)
Definition decimal (neg : bool) (mant : N) (e : Z) : Q :=
  let m := if neg then Z.opp (Z.of_N mant) else Z.of_N mant in
  Qred (match e with
        | Zneg p => Qmake m (Pos.pow 10 p)
        | _ => inject_Z (m * 10 ^ e)
        end).

(** A leading minus sign, if any: whether there is one, and the text after. *)
Definition minus_sign (s : str) : bool * str :=
  match s with
  | c :: s' => if c =? Ch.MINUS then (true, s') else (false, s)
  | [] => (false, s)
  end.

(** The sign of an exponent, if any. *)
Definition exponent_sign (s : str) : bool * str :=
  match s with
  | c :: s' => if c =? Ch.MINUS then (true, s') else if c =? Ch.PLUS then (false, s') else (false, s)
  | [] => (false, s)
  end.

(** The exponent part, if any, of a number whose digits so far are [mant]
    with [scale] of them after the point. *)
Definition exponent_part (neg : bool) (mant : N) (scale : nat) (s : str) : parsed Q :=
  match s with
  | c :: s1 =>
      if (c =? 101) || (c =? 69) then
        let '(eneg, s2) := exponent_sign s1 in
        let '(e, k, rest) := digit_run 0 O s2 in
        match k with
        | O => Unexpected
        | S _ =>
            let e' := if eneg then Z.opp (Z.of_N e) else Z.of_N e in
            Parsed (decimal neg mant (e' - Z.of_nat scale)) rest
        end
      else Parsed (decimal neg mant (- Z.of_nat scale)) s
  | [] => Parsed (decimal neg mant (- Z.of_nat scale)) s
  end.

Definition fraction_part (neg : bool) (int : N) (s : str) : parsed Q :=
  match s with
  | c :: s1 =>
      if c =? Ch.DOT then
        let '(mant, k, rest) := digit_run int O s1 in
        match k with
        | O => Unexpected
        | S _ => exponent_part neg mant k rest
        end
      else exponent_part neg int O s
  | [] => exponent_part neg int O s
  end.

(** A JSON number: an optional minus sign; a single zero, or a nonzero digit
    and more digits; optionally a point and at least one digit; optionally
    [e] or [E], a sign, and at least one digit. *)
Definition number (s : str) : parsed Q :=
  let '(neg, s1) := minus_sign s in
  match s1 with
  | c :: s2 =>
      if c =? Ch.ZERO then fraction_part neg 0 s2
      else if is_digit c then
        let '(int, _, rest) := digit_run (c - 48) O s2 in fraction_part neg int rest
      else Unexpected
  | [] => Unexpected
  end.

(** A value, an object's members after its first brace, an array's elements
    after its first bracket.  [fuel] bounds the number of nested calls;
    [JSON_parse] gives more than a text of its length can use. *)
Fixpoint parse_value (fuel : nat) (s : str) : parsed value :=
  match fuel with
  | O => Exhausted
  | S f =>
      match skip_ws s with
      | [] => Unexpected
      | c :: r =>
          if c =? Ch.LBRACE then
            match skip_ws r with
            | c2 :: r2 => if c2 =? Ch.RBRACE then Parsed (VObj []) r2 else parse_members f [] r
            | [] => Unexpected
            end
          else if c =? Ch.LBRACKET then
            match skip_ws r with
            | c2 :: r2 => if c2 =? Ch.RBRACKET then Parsed (VArr []) r2 else parse_elements f [] r
            | [] => Unexpected
            end
          else if c =? Ch.DQUOTE then pmap VStr (string_body r)
          else if prefix $"true" (c :: r) then Parsed (VBool true) (skipn 4 (c :: r))
          else if prefix $"false" (c :: r) then Parsed (VBool false) (skipn 5 (c :: r))
          else if prefix $"null" (c :: r) then Parsed VNull (skipn 4 (c :: r))
          else pmap VNum (number (c :: r))
      end
  end

with parse_members (fuel : nat) (acc : list (str * value)) (s : str) : parsed value :=
  match fuel with
  | O => Exhausted
  | S f =>
      match skip_ws s with
      | c :: r =>
          if c =? Ch.DQUOTE then
            match string_body r with
            | Parsed k r1 =>
                match skip_ws r1 with
                | c1 :: r2 =>
                    if c1 =? Ch.COLON then
                      match parse_value f r2 with
                      | Parsed v r3 =>
                          match skip_ws r3 with
                          | c3 :: r4 =>
                              if c3 =? Ch.COMMA then parse_members f (obj_set acc k v) r4
                              else if c3 =? Ch.RBRACE then Parsed (VObj (obj_set acc k v)) r4
                              else Unexpected
                          | [] => Unexpected
                          end
                      | Unexpected => Unexpected
                      | Exhausted => Exhausted
                      end
                    else Unexpected
                | [] => Unexpected
                end
            | Unexpected => Unexpected
            | Exhausted => Exhausted
            end
          else Unexpected
      | [] => Unexpected
      end
  end

with parse_elements (fuel : nat) (acc : list value) (s : str) : parsed value :=
  match fuel with
  | O => Exhausted
  | S f =>
      match parse_value f s with
      | Parsed v r1 =>
          match skip_ws r1 with
          | c :: r2 =>
              if c =? Ch.COMMA then parse_elements f (acc ++ [v]) r2
              else if c =? Ch.RBRACKET then Parsed (VArr (acc ++ [v])) r2
              else Unexpected
          | [] => Unexpected
          end
      | Unexpected => Unexpected
      | Exhausted => Exhausted
      end
  end.

Definition unexpected_token : js_error := SyntaxError $"Unexpected token in JSON".

(** [JSON.parse(text)]: one value, white space around it, nothing else. *)
Definition JSON_parse (text : str) : completion value :=
  match parse_value (S (S (2 * length text))) text with
  | Parsed v rest =>
      match skip_ws rest with
      | [] => Normal v
      | _ :: _ => Throw unexpected_token
      end
  | Unexpected | Exhausted => Throw unexpected_token
  end.

Close Scope N_scope.

End Json.

(* ================================================================== *)
(** ** The extractor: parseJSONFromText *)

Definition bind {A B : Type} (c : completion A) (k : A -> completion B) : completion B :=
  match c with
  | Normal a => k a
  | Throw e => Throw e
  end.

(** [try { c } catch (e) { h e }] *)
Definition try_catch {A : Type} (c : completion A) (h : js_error -> completion A) : completion A :=
  match c with
  | Normal a => Normal a
  | Throw e => h e
  end.

(** The receiver of a [String.prototype] method: anything but a string has
    no [replace], and calling it throws. *)
Definition receiver (v : value) : completion str :=
  match v with
  | VStr s => Normal s
  | VUndefined | VNull => Throw (TypeError $"Cannot read properties of undefined")
  | _ => Throw (TypeError $"replace is not a function")
  end.

Definition is_string (v : value) : bool :=
  match v with VStr _ => true | _ => false end.

(** [v === 'tag'] *)
Definition is_tag (tag : string) (v : value) : bool :=
  match v with VStr s => str_eqb s $tag | _ => false end.

Module Pattern.

Open Scope N_scope.

(** [s.replace(re, r)] for a global pattern [re] that matches no empty
    string.  [m t] is the match of [re] at the head of [t], when there is
    one: its length and the text that replaces it.  The scan goes left to
    right; [skip] counts the characters of the current match still to pass. *)
Fixpoint replace_all (m : str -> option (nat * str)) (skip : nat) (s : str) : str :=
  match s with
  | [] => []
  | c :: s' =>
      match skip with
      | S k => replace_all m k s'
      | O =>
          match m s with
          | Some (S k, r) => r ++ replace_all m k s'
          | _ => c :: replace_all m O s'
          end
      end
  end.

Definition replace (m : str -> option (nat * str)) (s : str) : str := replace_all m O s.

Fixpoint count_spaces (s : str) : nat :=
  match s with
  | c :: s' => if is_space c then S (count_spaces s') else O
  | [] => O
  end.

Fixpoint word_run (s : str) : str :=
  match s with
  | c :: s' => if is_word c then c :: word_run s' else []
  | [] => []
  end.

Definition ticks : str := [Ch.BACKTICK; Ch.BACKTICK; Ch.BACKTICK].

(** [(?:json|js|javascript)?] under the [i] flag: the first alternative
    that matches, else nothing. *)
Definition fence_lang (s : str) : nat :=
  if iprefix $"json" s then 4%nat
  else if iprefix $"js" s then 2%nat
  else if iprefix $"javascript" s then 10%nat
  else 0%nat.

(** The opening-fence pattern: three backticks, an optional language tag, an
    optional line feed. *)
Definition fence_open (s : str) : option (nat * str) :=
  if prefix ticks s then
    let r := skipn 3 s in
    let l := fence_lang r in
    let nl := match skipn l r with
              | c :: _ => if c =? Ch.LF then 1%nat else 0%nat
              | [] => 0%nat
              end in
    Some ((3 + l + nl)%nat, [])
  else None.

(** Three backticks. *)
Definition fence (s : str) : option (nat * str) :=
  if prefix ticks s then Some (3%nat, []) else None.

(** An optional carriage return and a line feed, replaced by a space. *)
Definition newline (s : str) : option (nat * str) :=
  match s with
  | c :: r =>
      if c =? Ch.LF then Some (1%nat, [Ch.SPACE])
      else if c =? Ch.CR then
        match r with
        | d :: _ => if d =? Ch.LF then Some (2%nat, [Ch.SPACE]) else None
        | [] => None
        end
      else None
  | [] => None
  end.

(** A comma, white space, and the closing character [close]; replaced by
    [close] alone. *)
Definition trailing_comma (close : N) (s : str) : option (nat * str) :=
  match s with
  | c :: r =>
      if c =? Ch.COMMA then
        let n := count_spaces r in
        match skipn n r with
        | d :: _ => if d =? close then Some (S (S n), [close]) else None
        | [] => None
        end
      else None
  | [] => None
  end.

(** A single quote, replaced by a double quote. *)
Definition single_quote (s : str) : option (nat * str) :=
  match s with
  | c :: _ => if c =? Ch.SQUOTE then Some (1%nat, [Ch.DQUOTE]) else None
  | [] => None
  end.

(** A brace, comma or white space; a run of word characters; white space; a
    colon.  Replaced by the first character, the word in double quotes, and
    the colon.  The word run and the white space are greedy and what follows
    them excludes their characters, so no shorter run can match. *)
Definition bare_key (s : str) : option (nat * str) :=
  match s with
  | c :: r =>
      if (c =? Ch.LBRACE) || (c =? Ch.COMMA) || is_space c then
        match word_run r with
        | [] => None
        | w =>
            let r1 := skipn (length w) r in
            let n := count_spaces r1 in
            match skipn n r1 with
            | d :: _ =>
                if d =? Ch.COLON
                then Some (S (length w + n + 1), c :: Ch.DQUOTE :: w ++ [Ch.DQUOTE; Ch.COLON])
                else None
            | [] => None
            end
        end
      else None
  | [] => None
  end.

(** The text from the first [c] on. *)
Fixpoint from_first (c : N) (s : str) : option str :=
  match s with
  | [] => None
  | x :: s' => if x =? c then Some s else from_first c s'
  end.

(** The text up to the last [c]. *)
Definition through_last (c : N) (s : str) : option str :=
  option_map (@rev N) (from_first c (rev s)).

(** [t.match(/\{[\s\S]*\}/)] and its bracket twin: from the first opening
    character to the last closing one after it. *)
Definition bracket_span (opening closing : N) (t : str) : option str :=
  match from_first opening t with
  | Some (o :: r) => option_map (cons o) (through_last closing r)
  | _ => None
  end.

Close Scope N_scope.

End Pattern.

Section Extractor.

Import Pattern.

(** The text with its code fences removed and trimmed. *)
Definition strip_fences (text : str) : str :=
  trim (replace fence (replace fence_open text)).

(** The span of the text handed to the parser. *)
Definition candidate_of (expected : value) (t : str) : str :=
  let objMatch := bracket_span Ch.LBRACE Ch.RBRACE t in
  let arrMatch := bracket_span Ch.LBRACKET Ch.RBRACKET t in
  match is_tag "array" expected, arrMatch with
  | true, Some a => a
  | _, _ =>
      match is_tag "object" expected, objMatch with
      | true, Some o => o
      | _, _ =>
          match arrMatch, objMatch with
          | Some a, _ => a
          | None, Some o => o
          | None, None => t
          end
      end
  end.

(** The fixed sequence of textual repairs. *)
Definition repair (candidate : str) : str :=
  let repaired :=
    replace single_quote
      (replace (trailing_comma Ch.RBRACKET)
         (replace (trailing_comma Ch.RBRACE)
            (replace newline candidate))) in
  replace bare_key repaired.

(** [expected = 'object'] in the parameter list. *)
Definition expected_or_object (expected : value) : value :=
  match expected with VUndefined => VStr $"object" | _ => expected end.

Definition parseJSONFromText (text : value) (expected : value) : completion value :=
  let expected := expected_or_object expected in
  if negb (truthy text) || negb (is_string text) then Normal VNull
  else
    bind (receiver text) (fun s =>
    let t := strip_fences s in
    let candidate := candidate_of expected t in
    try_catch (Json.JSON_parse candidate) (fun _ =>
    let repaired := repair candidate in
    try_catch (Json.JSON_parse repaired) (fun _ => Normal VNull))).

End Extractor.

(* ================================================================== *)
(** ** Object literals *)

(** [{ k1: v1, k2: v2 }] with literal keys. *)
Definition object (props : list (string * value)) : value :=
  VObj (List.map (fun kv => (lit (fst kv), snd kv)) props).

(** A string literal as a value, and an array of string literals. *)
Definition text (s : string) : value := VStr (lit s).

Definition texts (l : list string) : value := VArr (List.map text l).

(** [x === undefined ? d : x]: a default parameter, a destructuring default. *)
Definition default {A : Type} (x : option A) (d : A) : A :=
  match x with Some a => a | None => d end.

(** [x || d] on an optional string: the empty string is falsy too. *)
Definition or_else (x : option str) (d : str) : str :=
  match x with
  | Some (c :: s) => c :: s
  | Some [] | None => d
  end.

(** The values [i] takes in [for (let i = 0; i < n; i++)]. *)
Definition upto (n : Z) : list Z := List.map Z.of_nat (seq 0 (Z.to_nat n)).

(* ================================================================== *)
(** ** Local deterministic generators *)

Definition concept_name (subject : str) (i : Z) : str :=
  subject ++ $" concept " ++ number_to_string (i + 1).

(** [Math.min(6, Math.max(1, Math.floor((i / numConcepts) * 6) + 1))], the
    quotient and the product taken over the rationals.  The doubles give the
    same integer: the quotient is correctly rounded, so it can only matter
    where [6 * i / numConcepts] is a whole number [k], and there the double
    nearest to [k / 6], times 6, rounds back to [k]
    ([sixths_round_back]). *)
Definition concept_level (numConcepts i : Z) : Z :=
  Z.min 6 (Z.max 1 (Qfloor ((inject_Z i / inject_Z numConcepts) * 6)%Q + 1)).

(** [Math.min(5, (i % 5) + 1)] *)
Definition concept_difficulty (i : Z) : Z := Z.min 5 (Z.rem i 5 + 1).

Definition concept (subject : str) (numConcepts i : Z) : value :=
  object
    [ ("name", VStr (concept_name subject i));
      ("level", num (concept_level numConcepts i));
      ("description", VStr ($"Auto-generated concept " ++ number_to_string (i + 1) ++ $" for " ++ subject));
      ("difficulty", num (concept_difficulty i)) ].

(** The second loop: [dependencies[concepts[i].name] = [concepts[i - 1].name]]
    for [i] from 1 below [count].  [concepts[i].name] is the name the first
    loop stored at index [i]. *)
Definition link_concepts (subject : str) (count : nat) : list (str * value) :=
  fold_left
    (fun dependencies i =>
       obj_set dependencies (concept_name subject (Z.of_nat i))
         (VArr [VStr (concept_name subject (Z.of_nat i - 1))]))
    (seq 1 (count - 1)) [].

Definition generateKnowledgeGraph (subject : option str) (numConcepts : option Z) : value :=
  let subject := default subject $"Mathematics" in
  let numConcepts := default numConcepts 6%Z in
  let concepts := List.map (concept subject numConcepts) (upto numConcepts) in
  let dependencies := link_concepts subject (length concepts) in
  object [ ("concepts", VArr concepts); ("dependencies", VObj dependencies) ].

Definition quiz_question (subject topic : str) (i : Z) : value :=
  object
    [ ("id", num (i + 1));
      ("question", VStr ($"Diagnostic " ++ subject ++ $" question: Regarding " ++ topic
                          ++ $", which of these is a key foundational principle?"));
      ("options", VArr [ VStr ($"Standard " ++ topic ++ $" practice");
                         VStr ($"Advanced " ++ subject ++ $" methodology");
                         VStr ($"Fundamental " ++ topic ++ $" theory");
                         text "None of the above" ]);
      ("correctIndex", num 2);
      ("explanation", VStr ($"Understanding the foundational theory of " ++ topic
                             ++ $" is critical for mastering " ++ subject ++ $".")) ].

(** The [difficulty] parameter is accepted and not used. *)
Definition generateQuizQuestionsLocal
  (subject topic difficulty : option str) (numQuestions : option Z) : list value :=
  let subject := default subject $"Personalized Study" in
  let topic := default topic $"Basics" in
  let numQuestions := default numQuestions 3%Z in
  List.map (quiz_question subject topic) (upto numQuestions).

Definition generateStudyPlanLocal
  (subject : option str) (duration : option Z) (durationUnit : option str) : value :=
  let subject := default subject $"Mathematics" in
  let duration := default duration 4%Z in
  let durationUnit := default durationUnit $"weeks" in
  object
    [ ("subject", VStr subject);
      ("totalDuration", VStr (Number_toString duration ++ $" " ++ durationUnit));
      ("dailyStudyTime", text "1-2 hours");
      ("phases", VArr
         [ object [ ("name", text "Fundamentals"); ("duration", text "1 week");
                    ("topics", texts ["Basics"]); ("objectives", texts ["Learn core concepts"]);
                    ("activities", texts ["Read, practice"]); ("resources", texts ["Videos"]) ];
           object [ ("name", text "Practice");
                    ("duration", VStr (Number_toString (Z.max 1 (duration - 2)) ++ $" weeks"));
                    ("topics", texts ["Problems"]); ("objectives", texts ["Apply knowledge"]);
                    ("activities", texts ["Exercises"]); ("resources", texts ["Practice sets"]) ];
           object [ ("name", text "Assessment"); ("duration", text "1 week");
                    ("topics", texts ["Review"]); ("objectives", texts ["Solidify understanding"]);
                    ("activities", texts ["Mock tests"]); ("resources", texts ["Tests"]) ] ]);
      ("milestones", VArr [ object [ ("week", num 1); ("milestone", text "Foundations");
                                     ("metrics", text "70%+") ] ]);
      ("dailySchedule", object [ ("Monday", texts ["Concept review"; "Practice"]);
                                 ("Tuesday", texts ["New concept"; "Examples"]) ]);
      ("resources", texts ["YouTube"; "Khan Academy"]);
      ("tips", texts ["Study consistently"; "Active practice"]) ].

Definition generateCompleteLearningModuleLocal (subject topic : option str) : value :=
  let subject := default subject $"Mathematics" in
  let topic := default topic $"basics" in
  object
    [ ("basics", VArr [ object [ ("concept", text "Foundation"); ("definition", text "Basic principles") ];
                        object [ ("concept", text "Core"); ("definition", text "Core ideas") ] ]);
      ("flowchart", VArr [ object [ ("step", num 1); ("title", text "Start");
                                    ("description", text "Learn basics") ];
                           object [ ("step", num 2); ("title", text "Practice");
                                    ("description", text "Do exercises") ] ]);
      ("quiz", VArr (generateQuizQuestionsLocal (Some subject) (Some topic) (Some $"medium") (Some 3%Z)));
      ("youtubeTopics", VArr [ VStr (subject ++ $" " ++ topic ++ $" basics");
                               VStr (subject ++ $" " ++ topic ++ $" tutorial") ]);
      ("recapTimetable", object [ ("Monday", texts ["Review basics"; "Practice problems"]);
                                  ("Tuesday", texts ["Watch tutorial"]) ]);
      ("conceptMap", VArr [ object [ ("name", text "Foundation"); ("type", text "foundational") ];
                            object [ ("name", text "Core"); ("type", text "intermediate") ] ]) ].

Definition assignment (subject topic : str) (i : Z) : value :=
  object
    [ ("id", num (i + 1));
      ("title", VStr (topic ++ $" assignment " ++ number_to_string (i + 1)));
      ("dueInDays", num (3 + i));
      ("quiz", VArr (generateQuizQuestionsLocal (Some subject) (Some topic) (Some $"easy") (Some 3%Z))) ].

Definition important_topics (topic : str) (prerequisite : string) : value :=
  VArr [ object [ ("name", VStr topic); ("priority", text "high");
                  ("prerequisites", texts [prerequisite]) ] ].

Definition generateQuizAssignmentsLocal
  (subject topic : option str) (numAssignments : option Z) : value :=
  let subject := default subject $"Mathematics" in
  let topic := default topic $"basics" in
  let numAssignments := default numAssignments 3%Z in
  let assignments := List.map (assignment subject topic) (upto numAssignments) in
  object [ ("importantTopics", important_topics topic "foundation");
           ("assignments", VArr assignments) ].

(** Default learning module fallback. *)
Definition getDefaultLearningModule (subject topic : str) : value :=
  object
    [ ("basics", VArr
         [ object [ ("concept", text "Foundation"); ("definition", text "Basic principles and definitions") ];
           object [ ("concept", text "Core Concept"); ("definition", text "Essential understanding of the topic") ];
           object [ ("concept", text "Application"); ("definition", text "How to use this knowledge") ] ]);
      ("flowchart", VArr
         [ object [ ("step", num 1); ("title", text "Learn Basics");
                    ("description", text "Understand fundamental concepts") ];
           object [ ("step", num 2); ("title", text "Practice");
                    ("description", text "Apply knowledge through problems") ];
           object [ ("step", num 3); ("title", text "Master");
                    ("description", text "Achieve mastery through assessment") ] ]);
      ("quiz", VArr
         [ object [ ("id", num 1); ("question", text "What is the first step in learning?");
                    ("options", texts ["Foundation"; "Application"; "Testing"; "Review"]);
                    ("correctIndex", num 0);
                    ("explanation", text "Learning begins with understanding the basics") ] ]);
      ("youtubeTopics", VArr
         [ VStr (subject ++ $" " ++ topic ++ $" basics");
           VStr (subject ++ $" " ++ topic ++ $" tutorial");
           VStr (subject ++ $" " ++ topic ++ $" explained");
           VStr (subject ++ $" " ++ topic ++ $" practice problems");
           VStr (subject ++ $" " ++ topic ++ $" advanced") ]);
      ("recapTimetable", object
         [ ("Monday", texts ["09:00 - Learn basics (60 min)"; "10:00 - Understand concepts (30 min)"]);
           ("Tuesday", texts ["09:00 - Watch tutorial (45 min)"; "09:45 - Practice problems (45 min)"]);
           ("Wednesday", texts ["10:00 - Concept review (60 min)"; "11:00 - Self-assessment (30 min)"]);
           ("Thursday", texts ["09:00 - Problem solving (90 min)"; "10:30 - Review mistakes (30 min)"]);
           ("Friday", texts ["10:00 - Practice test (60 min)"; "11:00 - Week recap (30 min)"]);
           ("Saturday", texts ["10:00 - Extra practice (90 min)"; "11:30 - Resource exploration (30 min)"]);
           ("Sunday", texts ["10:00 - Light review (30 min)"; "10:30 - Plan next week (30 min)"]) ]);
      ("conceptMap", VArr
         [ object [ ("name", text "Foundation"); ("type", text "foundational") ];
           object [ ("name", text "Core Concept"); ("type", text "intermediate") ];
           object [ ("name", text "Application"); ("type", text "intermediate") ];
           object [ ("name", text "Advanced Topic"); ("type", text "advanced") ] ]) ].

(** Defined by the server and called by no route. *)
Definition generateAiQuizLocal (subject topic : option str) (numQuestions : option Z) : value :=
  let subject := default subject $"General" in
  let topic := default topic $"basics" in
  let numQuestions := default numQuestions 5%Z in
  object [ ("importantTopics", important_topics topic "foundation");
           ("quiz", VArr (generateQuizQuestionsLocal (Some subject) (Some topic) (Some $"medium")
                            (Some numQuestions))) ].

(* ================================================================== *)
(** ** Requests, responses, handlers *)

Module Req.

(** [userProfile.successRate]: an integer-valued number, or a string that
    [parseInt] reads. *)
Inductive rate : Type :=
| RateNum (n : Z)
| RateStr (s : str).

Record profile : Type := {
  successRate : option rate;
  skillLevel : option str
}.

(** [req.body.userProfile], when the body has one: JSON's [null], or an
    object with the properties the route reads. *)
Inductive user_profile : Type :=
| Null
| Profile (p : profile).

(** [req.body]: the fields the routes read. *)
Record body : Type := {
  subject : option str;
  topic : option str;
  difficulty : option str;
  numConcepts : option Z;
  numQuestions : option Z;
  numAssignments : option Z;
  duration : option Z;
  durationUnit : option str;
  userProfile : option user_profile
}.

(** [{}] *)
Definition empty : body :=
  {| subject := None; topic := None; difficulty := None; numConcepts := None;
     numQuestions := None; numAssignments := None; duration := None;
     durationUnit := None; userProfile := None |}.

Definition no_profile : profile := {| successRate := None; skillLevel := None |}.

(** [userProfile.successRate], the first property the route reads: of
    [null] there is none to read, and the read throws. *)
Definition properties (u : user_profile) : completion profile :=
  match u with
  | Null => Throw (TypeError $"Cannot read properties of null (reading 'successRate')")
  | Profile p => Normal p
  end.

(** The object a profile is read as where nothing is thrown. *)
Definition profile_of (u : user_profile) : profile :=
  match u with
  | Null => no_profile
  | Profile p => p
  end.

End Req.

(** What a route asks the model for: the prompt template of the route with
    the parameters it embeds.  The wording of the templates is left out. *)
Inductive prompt : Type :=
| PromptKnowledgeGraph (subject : str) (numConcepts : Z)
| PromptQuizQuestions (subject topic difficulty : str) (numQuestions : Z)
| PromptStudyPlan (subject : str) (duration : Z) (durationUnit : str)
| PromptLearningModule (subject topic : str)
| PromptQuizAssignments (subject topic : str) (numAssignments : Z)
| PromptAiQuiz (subject topic : str) (numQuestions : Z) (difficulty : str).

Record response : Type := {
  status : Z;
  body : value
}.

(** An async handler: it ends by sending a response ([Ret]), or by an
    exception that leaves it ([Raise]); [Await p k] is
    [await callGoogleAPI(p)], which resumes [k] with the completion text or
    with the error the call threw. *)
Inductive prog (A : Type) : Type :=
| Ret (a : A)
| Raise (e : js_error)
| Await (p : prompt) (k : completion str -> prog A).

Arguments Ret {A} a.
Arguments Raise {A} e.
Arguments Await {A} p k.

Fixpoint pbind {A B : Type} (m : prog A) (f : A -> prog B) : prog B :=
  match m with
  | Ret a => f a
  | Raise e => Raise e
  | Await p k => Await p (fun r => pbind (k r) f)
  end.

Notation "x <- m ;; f" := (pbind m (fun x => f))
  (at level 61, m at next level, right associativity).

(** [try { m } catch (error) { h error }] *)
Fixpoint ptry {A : Type} (m : prog A) (h : js_error -> prog A) : prog A :=
  match m with
  | Ret a => Ret a
  | Raise e => h e
  | Await p k => Await p (fun r => ptry (k r) h)
  end.

Definition callGoogleAPI (p : prompt) : prog str :=
  Await p (fun r => match r with Normal t => Ret t | Throw e => Raise e end).

Definition lift {A : Type} (c : completion A) : prog A :=
  match c with Normal a => Ret a | Throw e => Raise e end.

(** [res.json(v)] and [res.status(code).json(v)] *)
Definition json (v : value) : prog response := Ret {| status := 200; body := v |}.

Definition status_json (code : Z) (v : value) : prog response :=
  Ret {| status := code; body := v |}.

(** Running a handler against the upstream: what the handler ended with and
    the prompts it sent, in order. *)
Fixpoint run {A : Type} (upstream : prompt -> completion str) (m : prog A)
  : completion A * list prompt :=
  match m with
  | Ret a => (Normal a, [])
  | Raise e => (Throw e, [])
  | Await p k => let '(r, sent) := run upstream (k (upstream p)) in (r, p :: sent)
  end.

(** The names a block can see, with the strings they are bound to; reading a
    name that no enclosing scope binds throws. *)
Definition scope := list (string * str).

Fixpoint resolve (sc : scope) (x : string) : prog str :=
  match sc with
  | (y, v) :: rest => if String.eqb x y then Ret v else resolve rest x
  | [] => Raise (ReferenceError ($x ++ $" is not defined"))
  end.

Inductive route : Type :=
| KnowledgeGraphRoute
| QuizQuestionsRoute
| StudyPlanRoute
| CompleteLearningModuleRoute
| QuizAssignmentsRoute
| AiQuizRoute.

(** The difficulty the ai-quiz route derives from [userProfile]. *)
Definition derive_difficulty (userProfile : Req.profile) : str :=
  let difficulty := $"medium" in
  (* parseInt(userProfile.successRate || 0, 10) *)
  let success :=
    parseInt
      match Req.successRate userProfile with
      | Some (Req.RateNum n) => if Z.eqb n 0 then number_to_string 0 else Number_toString n
      | Some (Req.RateStr s) => match s with [] => number_to_string 0 | _ => s end
      | None => number_to_string 0
      end in
  match success with
  | Some success =>
      if (85 <=? success)%Z then $"expert"
      else if (70 <=? success)%Z then $"hard"
      else if (50 <=? success)%Z then $"medium"
      else $"easy"
  | None =>
      match Req.skillLevel userProfile with
      | Some (c :: s) =>
          let lvl := toLowerCase (c :: s) in
          if str_eqb lvl $"beginner" then $"easy"
          else if str_eqb lvl $"intermediate" then $"medium"
          else if str_eqb lvl $"advanced" then $"hard"
          else difficulty
      | Some [] | None => difficulty
      end
  end.

(** [{ ...q, k1: v1, ... }] *)
Definition spread (q : value) (more : list (string * value)) : value :=
  match q with
  | VObj props => VObj (fold_left (fun o kv => obj_set o (lit (fst kv)) (snd kv)) more props)
  | _ => object more
  end.

Section Server.

(** [process.env.GOOGLE_API_KEY], and the key literal the source falls back
    to and treats as no key at all. *)
Variable env_GOOGLE_API_KEY : option str.
Variable key_literal : str.

Definition GOOGLE_API_KEY : str := or_else env_GOOGLE_API_KEY key_literal.

Definition USE_LOCAL_AI : bool :=
  match GOOGLE_API_KEY with [] => true | _ => str_eqb GOOGLE_API_KEY key_literal end.

Definition invalid_ai_response : js_error := Error $"Invalid AI response".

(** POST /api/knowledge-graph *)
Definition knowledge_graph (b : Req.body) : prog response :=
  ptry
    (let subject := default (Req.subject b) $"Mathematics" in
     let numConcepts := default (Req.numConcepts b) 12%Z in
     let prompt := PromptKnowledgeGraph subject numConcepts in
     if USE_LOCAL_AI then
       let parsed := generateKnowledgeGraph (Some subject) (Some numConcepts) in
       json parsed
     else
       resp <- callGoogleAPI prompt ;;
       parsed <- lift (parseJSONFromText (VStr resp) (text "object")) ;;
       if negb (truthy parsed) || negb (truthy (get parsed $"concepts"))
       then Raise invalid_ai_response
       else json parsed)
    (fun error =>
       status_json 500
         (object [ ("error", VStr (message error));
                   ("fallback", generateKnowledgeGraph (Req.subject b) (Req.numConcepts b)) ])).

(** POST /api/quiz-questions *)
Definition quiz_questions (b : Req.body) : prog response :=
  ptry
    (let subject := default (Req.subject b) $"Mathematics" in
     let topic := default (Req.topic b) $"basics" in
     let difficulty := default (Req.difficulty b) $"medium" in
     let numQuestions := default (Req.numQuestions b) 3%Z in
     let prompt := PromptQuizQuestions subject topic difficulty numQuestions in
     if USE_LOCAL_AI then
       let questions :=
         generateQuizQuestionsLocal (Some subject) (Some topic) (Some difficulty) (Some numQuestions) in
       json (VArr (List.map
                     (fun q => spread q [ ("targetConcept", VStr topic);
                                          ("prerequisiteGap", text "Basic understanding") ])
                     questions))
     else
       resp <- callGoogleAPI prompt ;;
       parsed <- lift (parseJSONFromText (VStr resp) (text "array")) ;;
       if negb (isArray parsed) then Raise invalid_ai_response else json parsed)
    (fun error =>
       status_json 500
         (object [ ("error", VStr (message error));
                   ("fallback", VArr (generateQuizQuestionsLocal (Req.subject b) (Req.topic b)
                                        (Req.difficulty b) (Req.numQuestions b))) ])).

(** POST /api/study-plan *)
Definition study_plan (b : Req.body) : prog response :=
  let subject := default (Req.subject b) $"Mathematics" in
  let duration := default (Req.duration b) 4%Z in
  let durationUnit := default (Req.durationUnit b) $"weeks" in
  ptry
    (let prompt := PromptStudyPlan subject duration durationUnit in
     if USE_LOCAL_AI then
       let parsed := generateStudyPlanLocal (Some subject) (Some duration) (Some durationUnit) in
       json parsed
     else
       resp <- callGoogleAPI prompt ;;
       parsed <- lift (parseJSONFromText (VStr resp) (text "object")) ;;
       if negb (truthy parsed) || negb (truthy (get parsed $"phases")) then
         status_json 400
           (object
              [ ("error", text "Invalid response from AI");
                ("fallback", object
                   [ ("subject", VStr subject);
                     ("totalDuration", VStr (Number_toString duration ++ $" " ++ durationUnit));
                     ("dailyStudyTime", text "2-3 hours");
                     ("phases", VArr
                        [ object [ ("name", text "Fundamentals"); ("duration", text "1 week");
                                   ("topics", texts ["Basics"]);
                                   ("objectives", texts ["Learn core concepts"]);
                                   ("activities", texts ["Study, practice problems"]);
                                   ("resources", texts ["Videos, textbooks"]) ];
                          object [ ("name", text "Intermediate"); ("duration", text "2 weeks");
                                   ("topics", texts ["Application"]);
                                   ("objectives", texts ["Apply concepts"]);
                                   ("activities", texts ["Problem solving"]);
                                   ("resources", texts ["Practice sets"]) ];
                          object [ ("name", text "Mastery"); ("duration", text "1 week");
                                   ("topics", texts ["Advanced"]);
                                   ("objectives", texts ["Master the subject"]);
                                   ("activities", texts ["Assessments"]);
                                   ("resources", texts ["Tests, projects"]) ] ]);
                     ("milestones", VArr
                        [ object [ ("week", num 1); ("milestone", text "Learn foundations");
                                   ("metrics", text "70%+ on basics") ];
                          object [ ("week", num 3); ("milestone", text "Apply knowledge");
                                   ("metrics", text "80%+ on practice") ];
                          object [ ("week", num 4); ("milestone", text "Achieve mastery");
                                   ("metrics", text "90%+ on assessment") ] ]);
                     ("tips", texts [ "Study consistently daily"; "Take breaks every 45 mins";
                                      "Review previous concepts";
                                      "Practice actively, not passively" ]) ]) ])
       else json parsed)
    (fun error =>
       status_json 500
         (object
            [ ("error", VStr (message error));
              ("fallback", object
                 [ ("subject", VStr subject);
                   ("totalDuration", VStr (Number_toString duration ++ $" " ++ durationUnit));
                   ("dailyStudyTime", text "2-3 hours");
                   ("phases", VArr
                      [ object [ ("name", text "Fundamentals"); ("duration", text "1 week");
                                 ("topics", texts ["Basics"]); ("objectives", texts ["Learn"]);
                                 ("activities", texts ["Study"]); ("resources", texts ["Resources"]) ] ]);
                   ("tips", texts ["Study daily"; "Take breaks"; "Practice"]) ]) ])).

(** POST /api/complete-learning-module *)
Definition complete_learning_module (b : Req.body) : prog response :=
  let subject := default (Req.subject b) $"Mathematics" in
  let topic := default (Req.topic b) $"basics" in
  ptry
    (let prompt := PromptLearningModule subject topic in
     if USE_LOCAL_AI then
       let parsed := generateCompleteLearningModuleLocal (Some subject) (Some topic) in
       json parsed
     else
       resp <- callGoogleAPI prompt ;;
       parsed <- lift (parseJSONFromText (VStr resp) (text "object")) ;;
       if negb (truthy parsed) || negb (truthy (get parsed $"basics")) then
         status_json 400
           (object [ ("error", text "Invalid response from AI");
                     ("fallback", getDefaultLearningModule subject topic) ])
       else json parsed)
    (fun error =>
       status_json 500
         (object [ ("error", VStr (message error));
                   ("fallback", getDefaultLearningModule
                                  (or_else (Req.subject b) $"Mathematics")
                                  (or_else (Req.topic b) $"basics")) ])).

(** POST /api/quiz-assignments *)
Definition quiz_assignments (b : Req.body) : prog response :=
  let subject := default (Req.subject b) $"Mathematics" in
  let topic := default (Req.topic b) $"basics" in
  let numAssignments := default (Req.numAssignments b) 3%Z in
  ptry
    (let prompt := PromptQuizAssignments subject topic numAssignments in
     if USE_LOCAL_AI then
       let parsed := generateQuizAssignmentsLocal (Some subject) (Some topic) (Some numAssignments) in
       json parsed
     else
       resp <- callGoogleAPI prompt ;;
       parsed <- lift (parseJSONFromText (VStr resp) (text "object")) ;;
       if negb (truthy parsed) || negb (truthy (get parsed $"importantTopics")) then
         status_json 400
           (object
              [ ("error", text "Invalid response from AI");
                ("fallback", object
                   [ ("importantTopics", important_topics topic "foundation");
                     ("assignments", VArr
                        [ object
                            [ ("id", num 1); ("title", VStr ($"Intro " ++ topic));
                              ("dueInDays", num 3);
                              ("quiz", VArr
                                 [ object [ ("id", num 1); ("question", text "What is 1+1?");
                                            ("options", texts ["1"; "2"; "3"; "4"]);
                                            ("correctIndex", num 1);
                                            ("explanation", text "1+1=2") ] ]) ] ]) ]) ])
       else json parsed)
    (fun error =>
       status_json 500
         (object
            [ ("error", VStr (message error));
              ("fallback", object
                 [ ("importantTopics", important_topics topic "Foundation");
                   ("assignments", VArr
                      [ object
                          [ ("id", num 1); ("title", VStr ($"Introduction to " ++ topic));
                            ("dueInDays", num 3);
                            ("quiz", VArr (generateQuizQuestionsLocal (Some subject) (Some topic)
                                             (Some $"easy") (Some 3%Z))) ] ]) ]) ])).

(** POST /api/ai-quiz.  The destructuring default [userProfile = {}]
    stands in for a missing [userProfile] only: a [null] stays, and the
    first statement of the [try] block that reads a property of it throws.
    [difficulty] is declared by [let] inside the [try] block, so the
    [catch] block, which names it, does not see it: it sees the handler's
    own bindings, and the module declares nothing of that name. *)
Definition ai_quiz (b : Req.body) : prog response :=
  let subject := default (Req.subject b) $"General" in
  let topic := default (Req.topic b) $"basics" in
  let userProfile := default (Req.userProfile b) (Req.Profile Req.no_profile) in
  let numQuestions := default (Req.numQuestions b) 5%Z in
  let handler_scope : scope := [ ("subject", subject); ("topic", topic) ] in
  ptry
    (userProfile <- lift (Req.properties userProfile) ;;
     let difficulty := derive_difficulty userProfile in
     if USE_LOCAL_AI then
       json (object
               [ ("importantTopics", important_topics topic "Foundation");
                 ("quiz", VArr (generateQuizQuestionsLocal (Some subject) (Some topic)
                                  (Some difficulty) (Some numQuestions))) ])
     else
       let prompt := PromptAiQuiz subject topic numQuestions difficulty in
       resp <- callGoogleAPI prompt ;;
       parsed <- lift (parseJSONFromText (VStr resp) (text "object")) ;;
       if negb (truthy parsed)
          || (negb (truthy (get parsed $"quiz")) && negb (truthy (get parsed $"importantTopics")))
       then
         status_json 400
           (object
              [ ("error", text "Invalid response from AI");
                ("fallback", object
                   [ ("importantTopics", important_topics topic "Foundation");
                     ("quiz", VArr (generateQuizQuestionsLocal (Some subject) (Some topic)
                                      (Some difficulty) (Some numQuestions))) ]) ])
       else json parsed)
    (fun error =>
       difficulty <- resolve handler_scope "difficulty" ;;
       status_json 500
         (object
            [ ("error", VStr (message error));
              ("fallback", object
                 [ ("importantTopics", important_topics topic "Foundation");
                   ("quiz", VArr (generateQuizQuestionsLocal (Some subject) (Some topic)
                                    (Some difficulty) (Some numQuestions))) ]) ])).

Definition handle (r : route) (b : Req.body) : prog response :=
  match r with
  | KnowledgeGraphRoute => knowledge_graph b
  | QuizQuestionsRoute => quiz_questions b
  | StudyPlanRoute => study_plan b
  | CompleteLearningModuleRoute => complete_learning_module b
  | QuizAssignmentsRoute => quiz_assignments b
  | AiQuizRoute => ai_quiz b
  end.

End Server.

(** The error-handling middleware: what a request gets when an exception
    is forwarded to it. *)
Definition error_handler (err : js_error) : response :=
  {| status := 500;
     body := object [ ("error", text "Internal Server Error"); ("message", VStr (message err)) ] |}.

(** An own property is present. *)
Definition has (o : value) (k : string) : bool :=
  match o with
  | VObj props => existsb (fun kv => str_eqb (fst kv) (lit k)) props
  | _ => false
  end.

(** A 400 or 500 response whose body has an [error] and a [fallback]. *)
Definition error_with_fallback (r : response) : bool :=
  (Z.eqb (status r) 400 || Z.eqb (status r) 500) && has (body r) "error" && has (body r) "fallback".

(* ================================================================== *)
(** ** The client: KnowledgeGraph and LearningEngine *)

Module KnowledgeGraph.

Record edge : Type := {
  from : value;
  to : str
}.

Record t : Type := {
  nodes : value;
  edges : list edge;
  dependencies : value
}.

(** [Object.entries(v)] *)
Definition entries (v : value) : list (str * value) :=
  match v with
  | VObj props => props
  | VArr items =>
      List.map (fun ix => (number_to_string (Z.of_nat (fst ix)), snd ix))
        (combine (seq 0 (length items)) items)
  | VStr s =>
      List.map (fun ix => (number_to_string (Z.of_nat (fst ix)), VStr [snd ix]))
        (combine (seq 0 (length s)) s)
  | _ => []
  end.

(** [sources.forEach(source => edges.push({ from: source, to: target }))] *)
Definition push_sources (acc : list edge) (target : str) (sources : value)
  : completion (list edge) :=
  match sources with
  | VArr items => Normal (acc ++ List.map (fun source => {| from := source; to := target |}) items)
  | _ => Throw (TypeError $"sources.forEach is not a function")
  end.

Fixpoint push_entries (acc : list edge) (es : list (str * value)) : completion (list edge) :=
  match es with
  | [] => Normal acc
  | (target, sources) :: rest =>
      bind (push_sources acc target sources) (fun acc' => push_entries acc' rest)
  end.

Definition setData (data : value) : completion t :=
  match data with
  | VUndefined | VNull => Throw (TypeError $"Cannot read properties of undefined")
  | _ =>
      let nodes := if truthy (get data $"concepts") then get data $"concepts" else VArr [] in
      let dependencies :=
        if truthy (get data $"dependencies") then get data $"dependencies" else VObj [] in
      bind (push_entries [] (entries dependencies)) (fun edges =>
      Normal {| nodes := nodes; edges := edges; dependencies := dependencies |})
  end.

(** [b] can be reached from [a] along one or more edges. *)
Inductive reaches (es : list edge) : str -> str -> Prop :=
| reaches_edge a b : In {| from := VStr a; to := b |} es -> reaches es a b
| reaches_trans a b c : reaches es a b -> reaches es b c -> reaches es a c.

Definition acyclic (es : list edge) : Prop := forall a, ~ reaches es a a.

End KnowledgeGraph.

Module LearningEngine.

Open Scope float_scope.

(** A session-history entry.  [None] is a [score] or [duration] that is
    missing or [null]. *)
Record entry : Type := {
  topic : str;
  score : option float;
  duration : option float;
  timestamp : str
}.

Record profile : Type := {
  skillLevel : str;
  pace : str;
  consistency : str;
  successRate : float
}.

(** The engine's state: [this.learnerProfile]. *)
Record t : Type := {
  learnerProfile : profile
}.

(** [new LearningEngine()] *)
Definition create : t :=
  {| learnerProfile :=
       {| skillLevel := $"beginner"; pace := $"medium"; consistency := $"low"; successRate := 0 |} |}.

(** [x || 0] on a number: zero and NaN are falsy. *)
Definition or_zero (x : option float) : float :=
  match x with
  | Some f => if PrimFloat.is_nan f || PrimFloat.is_zero f then 0 else f
  | None => 0
  end.

(** [s.score >= 70]: a missing score is not. *)
Definition passed (s : entry) : bool :=
  match score s with
  | Some f => 70 <=? f
  | None => false
  end.

(** A length as a number. *)
Definition of_nat (n : nat) : float := PrimFloat.of_uint63 (Uint63.of_Z (Z.of_nat n)).

Definition of_Z (z : Z) : float :=
  if (z <? 0)%Z then - PrimFloat.of_uint63 (Uint63.of_Z (- z)) else PrimFloat.of_uint63 (Uint63.of_Z z).

(** [Math.round(x)]: the nearest integer, a tie going up.  A finite [x] is
    [m * 2^e]; with [e] negative its magnitude is below [2^53] and the
    rounded integer is computed exactly. *)
Definition Math_round (x : float) : float :=
  match Prim2SF x with
  | S754_finite s m e =>
      if (0 <=? e)%Z then x
      else
        let n := if s then Z.neg m else Z.pos m in
        let d := (2 ^ (- e))%Z in
        let r := ((2 * n + d) / (2 * d))%Z in
        if (r =? 0)%Z && s then - 0 else of_Z r
  | _ => x
  end.

(** The method is [async]: the profile is what its promise resolves with.
    [None] is a [sessionData] that is [null] or [undefined]. *)
Definition analyzeLearnerProfile (this : t) (sessionData : option (list entry)) : profile * t :=
  match sessionData with
  | None | Some [] => (learnerProfile this, this)
  | Some sessionData =>
      let avgScore := fold_left (fun acc s => acc + or_zero (score s)) sessionData 0 in
      let avgDuration := fold_left (fun acc s => acc + or_zero (duration s)) sessionData 0 in
      let avgScore := avgScore / of_nat (length sessionData) in
      let avgDuration := avgDuration / of_nat (length sessionData) in
      let successRate :=
        of_nat (length (filter passed sessionData)) / of_nat (length sessionData) in
      let learnerProfile :=
        {| skillLevel := if avgScore <? 40 then $"beginner"
                         else if avgScore <? 70 then $"intermediate" else $"advanced";
           pace := if avgDuration <? 300 then $"fast"
                   else if avgDuration <? 900 then $"medium" else $"slow";
           consistency := if (10 <? length sessionData)%nat then $"high"
                          else if (5 <? length sessionData)%nat then $"medium" else $"low";
           successRate := Math_round (successRate * 100) |} in
      (learnerProfile, {| learnerProfile := learnerProfile |})
  end.

Close Scope float_scope.

End LearningEngine.

(* ================================================================== *)
(** ** Reading the specification's words *)

(** The tier the specification assigns to a success rate. *)
Definition tier (successRate : Z) : str :=
  if (85 <=? successRate)%Z then $"expert"
  else if (70 <=? successRate)%Z then $"hard"
  else if (50 <=? successRate)%Z then $"medium"
  else $"easy".

(** The order of the tiers: easy, medium, hard, expert. *)
Definition tier_rank (t : str) : nat :=
  if str_eqb t $"easy" then 0
  else if str_eqb t $"medium" then 1
  else if str_eqb t $"hard" then 2
  else 3.

Definition numeric_rate (n : Z) (skillLevel : option str) : Req.profile :=
  {| Req.successRate := Some (Req.RateNum n); Req.skillLevel := skillLevel |}.

(* ================================================================== *)
(** ** The routes' defaults, shapes and sample requests *)

Definition biology_cells : Req.body :=
  {| Req.subject := Some $"Biology"; Req.topic := Some $"Cells"; Req.difficulty := None;
     Req.numConcepts := None; Req.numQuestions := Some 3%Z; Req.numAssignments := None;
     Req.duration := None; Req.durationUnit := None; Req.userProfile := None |}.

(** [{ "userProfile": null }] *)
Definition null_profile : Req.body :=
  {| Req.subject := None; Req.topic := None; Req.difficulty := None;
     Req.numConcepts := None; Req.numQuestions := None; Req.numAssignments := None;
     Req.duration := None; Req.durationUnit := None; Req.userProfile := Some Req.Null |}.

(** The request makes its route read a property of [null]: it is for
    /api/ai-quiz and its [userProfile] is [null]. *)
Definition reads_null (r : route) (b : Req.body) : bool :=
  match r, Req.userProfile b with
  | AiQuizRoute, Some Req.Null => true
  | _, _ => false
  end.

(** An upstream that is down: every call throws. *)
Definition upstream_down : prompt -> completion str :=
  fun _ => Throw (Error $"fetch failed").

(** A server with a key of its own: not in fallback mode. *)
Definition configured_key : option str := Some $"a-configured-key".

Definition placeholder_key : str := $"the-key-literal".

(** The body with each field a route reads, when missing, set to the
    default the route's destructuring gives it. *)
Definition with_defaults (r : route) (b : Req.body) : Req.body :=
  let fill {A : Type} (x : option A) (d : A) : option A := Some (default x d) in
  match r with
  | KnowledgeGraphRoute =>
      {| Req.subject := fill (Req.subject b) $"Mathematics"; Req.topic := Req.topic b;
         Req.difficulty := Req.difficulty b;
         Req.numConcepts := fill (Req.numConcepts b) 12%Z;
         Req.numQuestions := Req.numQuestions b; Req.numAssignments := Req.numAssignments b;
         Req.duration := Req.duration b; Req.durationUnit := Req.durationUnit b;
         Req.userProfile := Req.userProfile b |}
  | QuizQuestionsRoute =>
      {| Req.subject := fill (Req.subject b) $"Mathematics";
         Req.topic := fill (Req.topic b) $"basics";
         Req.difficulty := fill (Req.difficulty b) $"medium";
         Req.numConcepts := Req.numConcepts b;
         Req.numQuestions := fill (Req.numQuestions b) 3%Z;
         Req.numAssignments := Req.numAssignments b;
         Req.duration := Req.duration b; Req.durationUnit := Req.durationUnit b;
         Req.userProfile := Req.userProfile b |}
  | StudyPlanRoute =>
      {| Req.subject := fill (Req.subject b) $"Mathematics"; Req.topic := Req.topic b;
         Req.difficulty := Req.difficulty b; Req.numConcepts := Req.numConcepts b;
         Req.numQuestions := Req.numQuestions b; Req.numAssignments := Req.numAssignments b;
         Req.duration := fill (Req.duration b) 4%Z;
         Req.durationUnit := fill (Req.durationUnit b) $"weeks";
         Req.userProfile := Req.userProfile b |}
  | CompleteLearningModuleRoute =>
      {| Req.subject := fill (Req.subject b) $"Mathematics";
         Req.topic := fill (Req.topic b) $"basics";
         Req.difficulty := Req.difficulty b; Req.numConcepts := Req.numConcepts b;
         Req.numQuestions := Req.numQuestions b; Req.numAssignments := Req.numAssignments b;
         Req.duration := Req.duration b; Req.durationUnit := Req.durationUnit b;
         Req.userProfile := Req.userProfile b |}
  | QuizAssignmentsRoute =>
      {| Req.subject := fill (Req.subject b) $"Mathematics";
         Req.topic := fill (Req.topic b) $"basics";
         Req.difficulty := Req.difficulty b; Req.numConcepts := Req.numConcepts b;
         Req.numQuestions := Req.numQuestions b;
         Req.numAssignments := fill (Req.numAssignments b) 3%Z;
         Req.duration := Req.duration b; Req.durationUnit := Req.durationUnit b;
         Req.userProfile := Req.userProfile b |}
  | AiQuizRoute =>
      {| Req.subject := fill (Req.subject b) $"General";
         Req.topic := fill (Req.topic b) $"basics";
         Req.difficulty := Req.difficulty b; Req.numConcepts := Req.numConcepts b;
         Req.numQuestions := fill (Req.numQuestions b) 5%Z;
         Req.numAssignments := Req.numAssignments b;
         Req.duration := Req.duration b; Req.durationUnit := Req.durationUnit b;
         Req.userProfile := fill (Req.userProfile b) (Req.Profile Req.no_profile) |}
  end.

(** The [fallback] of the response a run ended with. *)
Definition fallback_of (outcome : completion response * list prompt) : value :=
  match fst outcome with
  | Normal resp => get (body resp) $"fallback"
  | Throw _ => VUndefined
  end.

Definition items (v : value) : list value :=
  match v with VArr l => l | _ => [] end.

Definition is_number (v : value) : bool :=
  match v with VNum _ => true | _ => false end.

Definition is_object (v : value) : bool :=
  match v with VObj _ => true | _ => false end.

(** An integer from [lo] to [hi]. *)
Definition integer_between (lo hi : Z) (v : value) : bool :=
  match v with
  | VNum q => Pos.eqb (Qden q) 1 && (lo <=? Qnum q)%Z && (Qnum q <=? hi)%Z
  | _ => false
  end.

(** An array whose elements all pass [p]. *)
Definition array_of (p : value -> bool) (v : value) : bool :=
  match v with
  | VArr l => forallb p l
  | _ => false
  end.

(** Concept: name, level 1 to 6, description, difficulty 1 to 5. *)
Definition concept_shape (c : value) : bool :=
  is_string (get c $"name") && integer_between 1 6 (get c $"level")
  && is_string (get c $"description") && integer_between 1 5 (get c $"difficulty").

(** QuizQuestion: id, question text, four answer options, the index of the
    correct one, explanation. *)
Definition question_shape (q : value) : bool :=
  is_number (get q $"id") && is_string (get q $"question")
  && array_of is_string (get q $"options")
  && Nat.eqb (length (match get q $"options" with VArr l => l | _ => [] end)) 4
  && integer_between 0 3 (get q $"correctIndex")
  && is_string (get q $"explanation").

(** The success shape the interface table gives each route. *)
Definition conforms (r : route) (v : value) : bool :=
  match r with
  | KnowledgeGraphRoute =>
      array_of concept_shape (get v $"concepts") && is_object (get v $"dependencies")
  | QuizQuestionsRoute => array_of question_shape v
  | StudyPlanRoute =>
      is_string (get v $"subject") && is_string (get v $"totalDuration")
      && is_string (get v $"dailyStudyTime") && array_of is_object (get v $"phases")
      && array_of is_object (get v $"milestones") && is_object (get v $"dailySchedule")
      && array_of is_string (get v $"resources") && array_of is_string (get v $"tips")
  | CompleteLearningModuleRoute =>
      array_of is_object (get v $"basics") && array_of is_object (get v $"flowchart")
      && array_of question_shape (get v $"quiz") && array_of is_string (get v $"youtubeTopics")
      && is_object (get v $"recapTimetable") && array_of is_object (get v $"conceptMap")
  | QuizAssignmentsRoute =>
      array_of is_object (get v $"importantTopics") && array_of is_object (get v $"assignments")
  | AiQuizRoute =>
      array_of is_object (get v $"importantTopics") && array_of question_shape (get v $"quiz")
  end.

(** What fallback mode answers: the local generator of the route on the
    request's parameters, the route's defaults standing in for missing ones. *)
Definition local_payload (r : route) (b : Req.body) : value :=
  let b := with_defaults r b in
  match r with
  | KnowledgeGraphRoute => generateKnowledgeGraph (Req.subject b) (Req.numConcepts b)
  | QuizQuestionsRoute =>
      VArr (List.map
              (fun q => spread q [ ("targetConcept", VStr (default (Req.topic b) []));
                                   ("prerequisiteGap", text "Basic understanding") ])
              (generateQuizQuestionsLocal (Req.subject b) (Req.topic b) (Req.difficulty b)
                 (Req.numQuestions b)))
  | StudyPlanRoute => generateStudyPlanLocal (Req.subject b) (Req.duration b) (Req.durationUnit b)
  | CompleteLearningModuleRoute => generateCompleteLearningModuleLocal (Req.subject b) (Req.topic b)
  | QuizAssignmentsRoute =>
      generateQuizAssignmentsLocal (Req.subject b) (Req.topic b) (Req.numAssignments b)
  | AiQuizRoute =>
      object
        [ ("importantTopics", important_topics (default (Req.topic b) []) "Foundation");
          ("quiz", VArr (generateQuizQuestionsLocal (Req.subject b) (Req.topic b)
                           (Some (derive_difficulty
                                    (Req.profile_of
                                       (default (Req.userProfile b) (Req.Profile Req.no_profile)))))
                           (Req.numQuestions b))) ]
  end.

(* ================================================================== *)
(** ** Sample histories and the chain of concepts *)

(** One session: a score of 90 in 100.5 seconds. *)
Definition good_session : LearningEngine.entry :=
  {| LearningEngine.topic := $"Cells"; LearningEngine.score := Some 90%float; LearningEngine.duration := Some 100.5%float;
     LearningEngine.timestamp := $"2024-01-01T00:00:00.000Z" |}.

(** The engine after it has analysed that session. *)
Definition practised : LearningEngine.t :=
  snd (LearningEngine.analyzeLearnerProfile LearningEngine.create (Some [good_session])).

(** The chain of [n] concepts: an edge from each concept to the next. *)
Definition chain_edges (subject : str) (n : nat) : list KnowledgeGraph.edge :=
  List.map (fun i => {| KnowledgeGraph.from := VStr (concept_name subject (Z.of_nat i - 1));
                        KnowledgeGraph.to := concept_name subject (Z.of_nat i) |})
    (seq 1 (n - 1)).

Definition chain_dependencies (subject : str) (n : nat) : list (str * value) :=
  List.map (fun i => (concept_name subject (Z.of_nat i),
                      VArr [VStr (concept_name subject (Z.of_nat i - 1))]))
    (seq 1 (n - 1)).

(* ================================================================== *)
(** ** The extractor's two parses, fenced texts, bare-key objects *)

Definition nonempty_string (v : value) : bool :=
  match v with VStr (_ :: _) => true | _ => false end.

Definition strict_parse (s : str) (expected : value) : completion value :=
  Json.JSON_parse (candidate_of (expected_or_object expected) (strip_fences s)).

Definition retry_parse (s : str) (expected : value) : completion value :=
  Json.JSON_parse (repair (candidate_of (expected_or_object expected) (strip_fences s))).

Definition failed {A : Type} (c : completion A) : Prop := exists e, c = Throw e.

(** [t] between code fences, the opening one tagged [tag]. *)
Definition fenced (tag : str) (t : str) : str :=
  Pattern.ticks ++ tag ++ [Ch.LF] ++ t ++ [Ch.LF] ++ Pattern.ticks.

(** A character that none of the repairs touches and that a JSON string
    holds as it is. *)
Definition plain (c : N) : bool :=
  (32 <=? c)%N && negb (c =? Ch.DQUOTE)%N && negb (c =? Ch.BACKSLASH)%N
  && negb (c =? Ch.SQUOTE)%N && negb (c =? Ch.COMMA)%N && negb (c =? Ch.COLON)%N
  && negb (c =? Ch.BACKTICK)%N.

(** The object literal with a bare key and a trailing comma, and the JSON
    text it is meant to be. *)
Definition bare_object (k v : str) : str :=
  [Ch.LBRACE] ++ k ++ [Ch.COLON; Ch.SPACE; Ch.DQUOTE] ++ v ++ [Ch.DQUOTE; Ch.COMMA; Ch.RBRACE].

Definition intended_object (k v : str) : str :=
  [Ch.LBRACE; Ch.DQUOTE] ++ k ++ [Ch.DQUOTE; Ch.COLON; Ch.SPACE; Ch.DQUOTE] ++ v
  ++ [Ch.DQUOTE; Ch.RBRACE].

(** The characters of a JSON string that stand for themselves. *)
Definition literal (c : N) : bool :=
  (32 <=? c)%N && negb (c =? Ch.DQUOTE)%N && negb (c =? Ch.BACKSLASH)%N.

(* ================================================================== *)
(** ** The upstream client: callGoogleAPI *)

Module Upstream.

(** What [fetch] ends with: a transport failure, or a response with its
    [ok] flag, its status and its body text. *)
Inductive fetched : Type :=
| FetchFailed (e : js_error)
| Fetched (ok : bool) (status : Z) (body : str).

(** [v?.[0]]: the first element of an array, the property ["0"] of an
    object, the first code unit of a string. *)
Definition first_of (v : value) : value :=
  match v with
  | VArr (x :: _) => x
  | VObj props => obj_get props $"0"
  | VStr (c :: _) => VStr [c]
  | _ => VUndefined
  end.

(** [a || b] *)
Definition or_value (a b : value) : value := if truthy a then a else b.

Section CallGoogleAPI.

(** [JSON.stringify] of the parsed response, and [String] of a value that
    is not a string: library functions, left as they are. *)
Variable JSON_stringify : value -> str.
Variable String_of : value -> str.

Definition js_String (v : value) : str :=
  match v with VStr s => s | _ => String_of v end.

(** The body of [callGoogleAPI], given what [fetch] ended with.  The
    [catch] block logs and rethrows. *)
Definition callGoogleAPI_with (r : fetched) : completion str :=
  try_catch
    match r with
    | FetchFailed e => Throw e
    | Fetched ok status body =>
        if negb ok then
          Throw (Error ($"Google API " ++ number_to_string status ++ $": " ++ body))
        else
          bind (Json.JSON_parse body) (fun data =>
          let text :=
            or_value
              (get (first_of (get (get (first_of (get data $"candidates")) $"content") $"parts"))
                 $"text")
              (or_value (get (get data $"response") $"output_text")
                 (VStr (JSON_stringify data))) in
          Normal (trim (js_String (or_value text (VStr [])))))
    end
    (fun e => Throw e).

End CallGoogleAPI.

End Upstream.

(* ================================================================== *)
(** ** Completions that hold a JSON text *)

(** A code fence somewhere in the text. *)
Fixpoint has_fence (s : str) : bool :=
  match s with
  | [] => false
  | _ :: s' => prefix Pattern.ticks s || has_fence s'
  end.

(** The run of backticks a text starts with. *)
Fixpoint backticks (s : str) : nat :=
  match s with
  | c :: s' => if (c =? Ch.BACKTICK)%N then S (backticks s') else O
  | [] => O
  end.

(** No [c] in the text. *)
Definition free_of (c : N) (s : str) : bool := forallb (fun x => negb (x =? c)%N) s.

(** [inner] between braces, or between square brackets. *)
Definition bracketed (array : bool) (inner : str) : str :=
  if array then [Ch.LBRACKET] ++ inner ++ [Ch.RBRACKET]
  else [Ch.LBRACE] ++ inner ++ [Ch.RBRACE].

Definition opening (array : bool) : N := if array then Ch.LBRACKET else Ch.LBRACE.
Definition closing (array : bool) : N := if array then Ch.RBRACKET else Ch.RBRACE.

(** Prose, a JSON text that is bare or in a code fence of its own, and
    prose again. *)
Definition in_prose (pre : str) (tag : option str) (core post : str) : str :=
  pre ++ match tag with Some tag => fenced tag core | None => core end ++ post.

(** A character of a string value that may hold apostrophes, and what
    the quote repair makes of a character. *)
Definition loose (c : N) : bool := plain c || (c =? Ch.SQUOTE)%N.

Definition requote (c : N) : N := if (c =? Ch.SQUOTE)%N then Ch.DQUOTE else c.

(** A string literal, the elements of an array of string literals, and
    such an array with a comma before its closing bracket. *)
Definition quoted (s : str) : str := [Ch.DQUOTE] ++ s ++ [Ch.DQUOTE].

Fixpoint elements (items : list str) : str :=
  match items with
  | [] => []
  | [x] => quoted x
  | x :: rest => quoted x ++ [Ch.COMMA; Ch.SPACE] ++ elements rest
  end.

Definition array_with_trailing_comma (items : list str) : str :=
  [Ch.LBRACKET] ++ elements items ++ [Ch.COMMA; Ch.RBRACKET].

(* ================================================================== *)
(** ** Object literals in the JavaScript style *)

Module Literal.

(** The pieces of an object literal as a completion may write it: keys
    without quotes, a comma before a closing brace or bracket, white space
    and line feeds anywhere between the pieces.  A key without quotes comes
    with the character before it, which the key pattern matches with it: an
    opening brace, a comma, or white space. *)
Inductive token : Type :=
| Punct (c : N)
| Key (c : N) (w : str)
| Str (s : str)
| Atom (w : str).

(** A piece and the white space after it. *)
Definition item : Type := (token * str)%type.

Definition token_text (t : token) : str :=
  match t with
  | Punct c => [c]
  | Key c w => c :: w
  | Str s => quoted s
  | Atom w => w
  end.

Fixpoint text_of (l : list item) : str :=
  match l with
  | [] => []
  | (t, ws) :: rest => token_text t ++ ws ++ text_of rest
  end.

(** White space between the pieces: space, tab, line feed. *)
Definition layout (c : N) : bool :=
  (c =? Ch.SPACE)%N || (c =? Ch.TAB)%N || (c =? Ch.LF)%N.

Definition punctuation (c : N) : bool :=
  (c =? Ch.LBRACE)%N || (c =? Ch.RBRACE)%N || (c =? Ch.LBRACKET)%N || (c =? Ch.RBRACKET)%N
  || (c =? Ch.COMMA)%N || (c =? Ch.COLON)%N.

(** What stands before a key without quotes. *)
Definition before_key (c : N) : bool :=
  (c =? Ch.LBRACE)%N || (c =? Ch.COMMA)%N || layout c.

(** The characters of a number and of [true], [false], [null]. *)
Definition atom_char (c : N) : bool :=
  is_word c || (c =? Ch.DOT)%N || (c =? Ch.PLUS)%N || (c =? Ch.MINUS)%N.

(** The pattern [m] matches nowhere inside a string literal of content
    [s]: the closing quote ends what a match could look at. *)
Fixpoint unmatched (m : str -> option (nat * str)) (s : str) : bool :=
  match s with
  | [] => true
  | _ :: s' =>
      match m (s ++ [Ch.DQUOTE]) with
      | None => unmatched m s'
      | Some _ => false
      end
  end.

(** A string content that no repair touches: no line break, no apostrophe,
    no comma that white space and a closing brace or bracket follow, no
    word between a brace, comma or white space and a colon. *)
Definition quiet (s : str) : bool :=
  free_of Ch.LF s && free_of Ch.CR s && free_of Ch.SQUOTE s
  && unmatched (Pattern.trailing_comma Ch.RBRACE) s
  && unmatched (Pattern.trailing_comma Ch.RBRACKET) s
  && unmatched Pattern.bare_key s.

Definition nonempty (s : str) : bool :=
  match s with [] => false | _ :: _ => true end.

Definition token_ok (t : token) : bool :=
  match t with
  | Punct c => punctuation c
  | Key c w => before_key c && nonempty w && forallb is_word w
  | Str s => quiet s
  | Atom w => nonempty w && forallb atom_char w
  end.

(** Every piece is of its kind, and only white space stands between. *)
Definition lexical (l : list item) : bool :=
  forallb (fun i : item => token_ok (fst i) && forallb layout (snd i)) l.

Definition next_is_colon (rest : list item) : bool :=
  match rest with
  | (Punct c, _) :: _ => (c =? Ch.COLON)%N
  | _ => false
  end.

Definition next_is_atom (rest : list item) : bool :=
  match rest with
  | (Atom _, _) :: _ => true
  | _ => false
  end.

(** A colon follows a key without quotes, and a colon follows no number or
    word; two of these do not touch. *)
Fixpoint adjacent (l : list item) : bool :=
  match l with
  | [] => true
  | (t, ws) :: rest =>
      match t with
      | Key _ _ => next_is_colon rest
      | Atom _ => negb (next_is_colon rest) && (nonempty ws || negb (next_is_atom rest))
      | _ => true
      end
      && adjacent rest
  end.

(** The literal opens with a brace and ends with one. *)
Definition opens (l : list item) : bool :=
  match l with
  | (Punct c, _) :: _ | (Key c _, _) :: _ => (c =? Ch.LBRACE)%N
  | _ => false
  end.

Definition closes (l : list item) : bool :=
  match last l (Atom [], []) with
  | (Punct c, []) => (c =? Ch.RBRACE)%N
  | _ => false
  end.

(** An object literal the repairs are made for. *)
Definition relaxed (l : list item) : bool :=
  lexical l && adjacent l && opens l && closes l && negb (has_fence (text_of l)).

(** The JSON text the literal is meant to be: every line feed a space,
    every comma before a closing brace or bracket dropped with the white
    space after it, every key in quotes and followed by its colon at
    once. *)
Definition unbreak (c : N) : N := if (c =? Ch.LF)%N then Ch.SPACE else c.

Definition unbroken (i : item) : item :=
  match i with
  | (Key c w, ws) => (Key (unbreak c) w, List.map unbreak ws)
  | (t, ws) => (t, List.map unbreak ws)
  end.

Fixpoint without_trailing (close : N) (l : list item) : list item :=
  match l with
  | [] => []
  | (t, ws) :: rest =>
      match t, rest with
      | Punct c, (Punct d, _) :: _ =>
          if (c =? Ch.COMMA)%N && (d =? close)%N then without_trailing close rest
          else (t, ws) :: without_trailing close rest
      | _, _ => (t, ws) :: without_trailing close rest
      end
  end.

Fixpoint quote_keys (l : list item) : str :=
  match l with
  | [] => []
  | (Key c w, _) :: rest => c :: quoted w ++ quote_keys rest
  | (t, ws) :: rest => token_text t ++ ws ++ quote_keys rest
  end.

Definition intended (l : list item) : str :=
  quote_keys
    (without_trailing Ch.RBRACKET (without_trailing Ch.RBRACE (List.map unbroken l))).

(** [{name: "x",}], the example of the specification. *)
Definition spec_example : list item :=
  [ (Key Ch.LBRACE $"name", []); (Punct Ch.COLON, $" "); (Str $"x", []);
    (Punct Ch.COMMA, []); (Punct Ch.RBRACE, []) ].

(** [{name: "x", age: 3, tags: ["a",], inner: {ok: true,},}] *)
Definition nested_example : list item :=
  [ (Key Ch.LBRACE $"name", []); (Punct Ch.COLON, $" "); (Str $"x", []); (Punct Ch.COMMA, []);
    (Key Ch.SPACE $"age", []); (Punct Ch.COLON, $" "); (Atom $"3", []); (Punct Ch.COMMA, []);
    (Key Ch.SPACE $"tags", []); (Punct Ch.COLON, $" "); (Punct Ch.LBRACKET, []);
    (Str $"a", []); (Punct Ch.COMMA, []); (Punct Ch.RBRACKET, []); (Punct Ch.COMMA, []);
    (Key Ch.SPACE $"inner", []); (Punct Ch.COLON, $" ");
    (Key Ch.LBRACE $"ok", []); (Punct Ch.COLON, $" "); (Atom $"true", []);
    (Punct Ch.COMMA, []); (Punct Ch.RBRACE, []); (Punct Ch.COMMA, []); (Punct Ch.RBRACE, []) ].

(** [{time: "10:30", list: "a, b",}]: a colon and a comma inside strings,
    where no repair matches. *)
Definition punctuated_example : list item :=
  [ (Key Ch.LBRACE $"time", []); (Punct Ch.COLON, $" "); (Str $"10:30", []);
    (Punct Ch.COMMA, []);
    (Key Ch.SPACE $"list", []); (Punct Ch.COLON, $" "); (Str $"a, b", []);
    (Punct Ch.COMMA, []); (Punct Ch.RBRACE, []) ].

(** [{ name : "x" , }] *)
Definition spaced_example : list item :=
  [ (Punct Ch.LBRACE, []); (Key Ch.SPACE $"name", $" "); (Punct Ch.COLON, $" ");
    (Str $"x", $" "); (Punct Ch.COMMA, $" "); (Punct Ch.RBRACE, []) ].

(** An object on four lines, its second key in quotes:
    [{], [  name: "x",], [  "tags": ["a", "b",],], [}]. *)
Definition lines_example : list item :=
  [ (Punct Ch.LBRACE, [Ch.LF; Ch.SPACE]);
    (Key Ch.SPACE $"name", []); (Punct Ch.COLON, $" "); (Str $"x", []);
    (Punct Ch.COMMA, [Ch.LF] ++ $"  ");
    (Str $"tags", []); (Punct Ch.COLON, $" "); (Punct Ch.LBRACKET, []);
    (Str $"a", []); (Punct Ch.COMMA, $" "); (Str $"b", []); (Punct Ch.COMMA, []);
    (Punct Ch.RBRACKET, []); (Punct Ch.COMMA, [Ch.LF]); (Punct Ch.RBRACE, []) ].

(** [{name: "a b: c",}]: the word [b] stands between a space and a colon. *)
Definition colon_example : list item :=
  [ (Key Ch.LBRACE $"name", []); (Punct Ch.COLON, $" "); (Str $"a b: c", []);
    (Punct Ch.COMMA, []); (Punct Ch.RBRACE, []) ].

End Literal.

(** What a route requires of the parsed completion before it sends it. *)
Definition accepted (r : route) (parsed : value) : bool :=
  match r with
  | KnowledgeGraphRoute => truthy parsed && truthy (get parsed $"concepts")
  | QuizQuestionsRoute => isArray parsed
  | StudyPlanRoute => truthy parsed && truthy (get parsed $"phases")
  | CompleteLearningModuleRoute => truthy parsed && truthy (get parsed $"basics")
  | QuizAssignmentsRoute => truthy parsed && truthy (get parsed $"importantTopics")
  | AiQuizRoute =>
      truthy parsed
      && (truthy (get parsed $"quiz") || truthy (get parsed $"importantTopics"))
  end.

(** The shape tag a route gives the extractor. *)
Definition expects_array (r : route) : bool :=
  match r with QuizQuestionsRoute => true | _ => false end.

(** A number of a JSON text is kept here as the rational its literal
    denotes, where the engine keeps the double nearest to it.  A route and
    the client only test a parsed number and pass it on, and for that the
    two are alike unless the double is zero where the rational is not, or
    is infinite, which [res.json] sends as [null].  So [q] is zero, or
    above 2^-1075 and below 2^1024 - 2^970 in magnitude: the numbers that
    round to a double other than zero and the infinities. *)
Definition double_range (q : Q) : bool :=
  let n := Z.abs (Qnum q) in
  let d := Zpos (Qden q) in
  (n =? 0)%Z || ((d <? 2 ^ 1075 * n)%Z && (n <? (2 ^ 1024 - 2 ^ 970) * d)%Z).

(** Every number in the value is in that range. *)
Fixpoint in_double_range (v : value) : bool :=
  match v with
  | VNum q => double_range q
  | VArr items => forallb in_double_range items
  | VObj props => forallb (fun kv => let '(_, x) := kv in in_double_range x) props
  | _ => true
  end.

(* ================================================================== *)
(** ** More of the client *)

(** The edges a dependency mapping stands for: one from each prerequisite
    to the concept that lists it, in the order of the mapping. *)
Definition dependency_edges (dependencies : list (str * value)) : list KnowledgeGraph.edge :=
  flat_map
    (fun kv =>
       match snd kv with
       | VArr sources =>
           List.map (fun source => {| KnowledgeGraph.from := source; KnowledgeGraph.to := fst kv |})
             sources
       | _ => []
       end)
    dependencies.

(** [data.dependencies || {}] *)
Definition dependencies_of (data : value) : value :=
  if truthy (get data $"dependencies") then get data $"dependencies" else VObj [].

Module GapAnalyzer.

(** [studentUnderstanding] is a [Map] from concept names to scores: entries
    in insertion order, [set] on a present key replacing its value. *)
Record t : Type := {
  studentUnderstanding : list (str * Z);
  identifiedGaps : list str
}.

(** [new GapAnalyzer()] *)
Definition create : t := {| studentUnderstanding := []; identifiedGaps := [] |}.

Fixpoint map_get (m : list (str * Z)) (k : str) : option Z :=
  match m with
  | [] => None
  | (k', v) :: rest => if str_eqb k' k then Some v else map_get rest k
  end.

Fixpoint map_set (m : list (str * Z)) (k : str) (v : Z) : list (str * Z) :=
  match m with
  | [] => [(k, v)]
  | (k', v') :: rest => if str_eqb k' k then (k', v) :: rest else (k', v') :: map_set rest k v
  end.

(** [gaps.includes(concept)] *)
Definition includes (gaps : list str) (concept : str) : bool :=
  existsb (fun g => str_eqb g concept) gaps.

Definition assessConcept (this : t) (concept : str) (isCorrect : bool) : t :=
  (* this.studentUnderstanding.get(concept) || 0 *)
  let current :=
    match map_get (studentUnderstanding this) concept with
    | Some v => if Z.eqb v 0 then 0%Z else v
    | None => 0%Z
    end in
  let newValue := if isCorrect then Z.min 100 (current + 25) else Z.max 0 (current - 15) in
  let understanding := map_set (studentUnderstanding this) concept newValue in
  if (newValue <? 50)%Z then
    {| studentUnderstanding := understanding;
       identifiedGaps :=
         if includes (identifiedGaps this) concept then identifiedGaps this
         else identifiedGaps this ++ [concept] |}
  else
    {| studentUnderstanding := understanding;
       identifiedGaps := filter (fun g => negb (str_eqb g concept)) (identifiedGaps this) |}.

(** The analyzer after a run of answers, each a concept and whether the
    answer was correct. *)
Definition after (answers : list (str * bool)) : t :=
  fold_left (fun this a => assessConcept this (fst a) (snd a)) answers create.

(** The score [assessConcept] stores. *)
Definition new_value (this : t) (concept : str) (isCorrect : bool) : Z :=
  let current := match map_get (studentUnderstanding this) concept with
                 | Some v => v
                 | None => 0%Z
                 end in
  if isCorrect then Z.min 100 (current + 25) else Z.max 0 (current - 15).

(** What every analyzer reached from a new one satisfies. *)
Definition consistent (this : t) : Prop :=
  (forall c v, map_get (studentUnderstanding this) c = Some v -> (0 <= v <= 100)%Z)
  /\ NoDup (identifiedGaps this)
  /\ (forall c, In c (identifiedGaps this)
                <-> exists v, map_get (studentUnderstanding this) c = Some v /\ (v < 50)%Z).

End GapAnalyzer.

Module PersonalizationEngine.

(** What [themes[skillLevel]] finds: a colour of the table, or a member
    every object inherits. *)
Inductive found : Type :=
| Colour (c : str)
| Inherited (name : str).

(** The names [Object.prototype] defines. *)
Definition inherited_names : list string :=
  [ "constructor"; "hasOwnProperty"; "isPrototypeOf"; "propertyIsEnumerable";
    "toLocaleString"; "toString"; "valueOf"; "__proto__";
    "__defineGetter__"; "__defineSetter__"; "__lookupGetter__"; "__lookupSetter__" ].

Definition themes : list (string * string) :=
  [ ("beginner", "#6366f1"); ("intermediate", "#f59e0b"); ("advanced", "#10b981") ].

(** [themes[skillLevel] || themes.beginner]: every inherited member is an
    object or a function, hence truthy. *)
Definition getCustomUIColor (skillLevel : str) : found :=
  match find (fun kv => str_eqb (lit (fst kv)) skillLevel) themes with
  | Some kv => Colour (lit (snd kv))
  | None =>
      if existsb (fun n => str_eqb (lit n) skillLevel) inherited_names
      then Inherited skillLevel
      else Colour $"#6366f1"
  end.

Definition getCustomQuestionCount (skillLevel : str) : Z :=
  if str_eqb skillLevel $"beginner" then 3
  else if str_eqb skillLevel $"advanced" then 8
  else 5.

(** A profile whose three labels are among those the engine gives. *)
Definition labelled (p : LearningEngine.profile) : Prop :=
  In (LearningEngine.skillLevel p) [ $"beginner"; $"intermediate"; $"advanced" ]
  /\ In (LearningEngine.pace p) [ $"fast"; $"medium"; $"slow" ]
  /\ In (LearningEngine.consistency p) [ $"high"; $"medium"; $"low" ].

End PersonalizationEngine.

Module Render.

(** A concept as the renderer reads it, at the types the generator gives
    its fields. *)
Record concept_fields : Type := {
  name : str;
  level : Z;
  description : str;
  difficulty : Z
}.

Definition integer (v : value) : option Z :=
  match v with
  | VNum q => if Pos.eqb (Qden q) 1 then Some (Qnum q) else None
  | _ => None
  end.

Definition read_concept (c : value) : option concept_fields :=
  match get c $"name", integer (get c $"level"), get c $"description",
        integer (get c $"difficulty") with
  | VStr n, Some l, VStr d, Some k =>
      Some {| name := n; level := l; description := d; difficulty := k |}
  | _, _, _, _ => None
  end.

Definition colors : list string := [ "#10b981"; "#3b82f6"; "#f59e0b"; "#ef4444"; "#7c3aed" ].

(** [colors[diff - 1] || '#6366f1'] *)
Definition getDifficultyColor (diff : Z) : str :=
  match (if (1 <=? diff)%Z then nth_error colors (Z.to_nat (diff - 1)) else None) with
  | Some c => lit c
  | None => $"#6366f1"
  end.

Record vis_node : Type := {
  id : str;
  label : str;
  title : str;
  value_ : Z;
  group : str;
  color : str
}.

Definition visNode (c : concept_fields) : vis_node :=
  {| id := name c; label := name c; title := description c; value_ := level c;
     group := $"level" ++ number_to_string (level c);
     color := getDifficultyColor (difficulty c) |}.

Fixpoint read_all (cs : list value) : option (list concept_fields) :=
  match cs with
  | [] => Some []
  | c :: rest =>
      match read_concept c, read_all rest with
      | Some x, Some xs => Some (x :: xs)
      | _, _ => None
      end
  end.

(** The nodes and edges [renderKnowledgeGraph] hands to the network, for a
    graph whose concepts are of the shape above. *)
Definition renderKnowledgeGraph (kg : KnowledgeGraph.t)
  : option (list vis_node * list KnowledgeGraph.edge) :=
  match KnowledgeGraph.nodes kg with
  | VArr cs =>
      match read_all cs with
      | Some concepts => Some (List.map visNode concepts, KnowledgeGraph.edges kg)
      | None => None
      end
  | _ => None
  end.

End Render.

Module Charts.

(** [l.slice(-n)] *)
Definition slice_last {A : Type} (n : nat) (l : list A) : list A :=
  skipn (length l - n) l.

(** [s.substring(0, n)] *)
Definition substring0 (n : nat) (s : str) : str := firstn n s.

Record series : Type := {
  labels : list str;
  scores : list (option float);
  masteryLabels : list str
}.

(** The labels and data [updateCharts] gives the performance, timeline and
    mastery charts, once the charts exist. *)
Definition updateCharts (sessionHistory : list LearningEngine.entry) : series :=
  let lastSessions := slice_last 10 sessionHistory in
  {| labels := List.map (fun i => $"Session " ++ number_to_string (Z.of_nat i + 1))
                 (seq 0 (length lastSessions));
     scores := List.map LearningEngine.score lastSessions;
     masteryLabels :=
       List.map (fun s => substring0 10
                            match LearningEngine.topic s with
                            | [] => $"General"
                            | topic => topic
                            end)
         lastSessions |}.

End Charts.

Module Client.

(** [o.k] as the client reads a response body ([k] is no name that a
    prototype defines): reading a property of [null] or [undefined] throws.
    The body the client reads is the one the route sent. *)
Definition member (o : value) (k : string) : completion value :=
  match o with
  | VUndefined =>
      Throw (TypeError ($"Cannot read properties of undefined (reading '" ++ $k ++ $"')"))
  | VNull => Throw (TypeError ($"Cannot read properties of null (reading '" ++ $k ++ $"')"))
  | _ => Normal (get o $k)
  end.

(** [data.k ? data : data.fallback], what the client keeps of a response
    body. *)
Definition keep (k : string) (data : value) : completion value :=
  bind (member data k) (fun v =>
  if truthy v then Normal data else member data "fallback").

(** generateLearningPath, generateAdvancedLearningModule, generateStudyPlan,
    refreshPersonalizedQuiz *)
Definition keep_graph : value -> completion value := keep "concepts".
Definition keep_module : value -> completion value := keep "basics".
Definition keep_plan : value -> completion value := keep "phases".

(** refreshAssessmentQuestions: [Array.isArray(data) ? data : data.fallback || []] *)
Definition keep_questions (data : value) : completion value :=
  if isArray data then Normal data
  else bind (member data "fallback") (fun f =>
       Normal (if truthy f then f else VArr [])).

(** generateLearningPath keeps a graph and gives it to [kg.setData]. *)
Definition load_graph (data : value) : completion KnowledgeGraph.t :=
  bind (keep_graph data) KnowledgeGraph.setData.


End Client.

(* ================================================================== *)
(** * Properties *)

Unset Implicit Arguments.

(** ** Strings and decimal notation *)

Lemma str_eqb_refl (a : str) : str_eqb a a = true.
Proof.
  induction a as [|x a IH]; simpl; [reflexivity|].
  now rewrite N.eqb_refl, IH.
Qed.

Lemma str_eqb_eq (a b : str) : str_eqb a b = true <-> a = b.
Proof.
  split; [|intros ->; apply str_eqb_refl].
  revert b; induction a as [|x a IH]; intros [|y b]; simpl; try discriminate; auto.
  intros H. apply andb_true_iff in H as [Hx Hr].
  apply N.eqb_eq in Hx. f_equal; auto.
Qed.

Lemma str_eqb_neq (a b : str) : a <> b -> str_eqb a b = false.
Proof.
  intros H. destruct (str_eqb a b) eqn:E; [|reflexivity].
  apply str_eqb_eq in E. contradiction.
Qed.

Lemma is_digit_decimal (n : N) : is_digit (Ch.ZERO + n mod 10) = true.
Proof.
  assert (n mod 10 < 10)%N by (apply N.mod_lt; discriminate).
  unfold is_digit, Ch.ZERO. apply andb_true_iff; split; apply N.leb_le; lia.
Qed.

Lemma digits_onto_step (f : nat) (n : N) (acc : str) :
  digits_onto (S f) n acc
  = if (n <? 10)%N then (Ch.ZERO + n mod 10)%N :: acc
    else digits_onto f (n / 10) ((Ch.ZERO + n mod 10)%N :: acc).
Proof. reflexivity. Qed.

(** Reading the digits [digits_onto] writes gives the number back, when the
    fuel is enough for the digits of [n]. *)
Lemma read_digits_onto (fuel : nat) :
  forall (n : N) (acc : str) (seen : bool),
    (n < 2 ^ N.of_nat (S fuel))%N ->
    read_digits seen 0 (digits_onto (S fuel) n acc) = read_digits true n acc.
Proof.
  assert (step : forall n acc seen,
             read_digits seen 0 ((Ch.ZERO + n mod 10)%N :: acc)
             = read_digits true (n mod 10) acc).
  { intros n acc seen. cbn [read_digits]. rewrite is_digit_decimal. f_equal.
    unfold Ch.ZERO. lia. }
  induction fuel as [|f IH]; intros n acc seen Hn.
  - assert (n < 10)%N as Hlt by (change (2 ^ N.of_nat 1)%N with 2%N in Hn; lia).
    rewrite digits_onto_step. pose proof Hlt as Hb. apply N.ltb_lt in Hb. rewrite Hb.
    rewrite step, N.mod_small by assumption. reflexivity.
  - rewrite digits_onto_step. destruct (n <? 10)%N eqn:E.
    + apply N.ltb_lt in E. rewrite step, N.mod_small by assumption. reflexivity.
    + apply N.ltb_ge in E.
      rewrite IH.
      * cbn [read_digits]. rewrite is_digit_decimal. f_equal.
        unfold Ch.ZERO. lia.
      * rewrite Nnat.Nat2N.inj_succ, N.pow_succ_r' in Hn.
        lia.
Qed.

Lemma digits_onto_head (fuel : nat) :
  forall (n : N) (d : N) (acc : str),
    is_digit d = true ->
    exists c s, digits_onto fuel n (d :: acc) = c :: s /\ is_digit c = true.
Proof.
  induction fuel as [|f IH]; intros n d acc Hd.
  - simpl. eauto.
  - rewrite digits_onto_step. destruct (n <? 10)%N.
    + eexists _, _; split; [reflexivity|apply is_digit_decimal].
    + apply IH. apply is_digit_decimal.
Qed.

Lemma N_to_string_head (n : N) :
  exists c s, N_to_string n = c :: s /\ is_digit c = true.
Proof.
  unfold N_to_string. rewrite digits_onto_step.
  destruct (n <? 10)%N.
  - eexists _, _; split; [reflexivity|apply is_digit_decimal].
  - apply digits_onto_head, is_digit_decimal.
Qed.

Lemma read_N_to_string (n : N) (seen : bool) :
  read_digits seen 0 (N_to_string n) = Some n.
Proof.
  unfold N_to_string. rewrite read_digits_onto; [reflexivity|].
  apply N.lt_le_trans with (2 ^ N.size n)%N.
  - apply N.size_gt.
  - apply N.pow_le_mono_r; [discriminate|]. lia.
Qed.

Lemma digit_not_space (c : N) : is_digit c = true -> is_space c = false.
Proof.
  unfold is_digit, is_space. intros H.
  apply andb_true_iff in H as [H1 H2]. apply N.leb_le in H1, H2.
  repeat (apply orb_false_iff; split);
    try (apply andb_false_iff; first [left; apply N.leb_gt; lia | right; apply N.leb_gt; lia]);
    apply N.eqb_neq; lia.
Qed.

(** [parseInt(String(n), 10)] is [n]. *)
Lemma parseInt_number_to_string (n : Z) : parseInt (number_to_string n) = Some n.
Proof.
  destruct n as [|p|p]; [reflexivity| |].
  - unfold number_to_string, parseInt.
    destruct (N_to_string_head (Npos p)) as (c & s & E & Hc).
    pose proof (read_N_to_string (Npos p) false) as R.
    rewrite E in *. cbn [drop_spaces]. rewrite (digit_not_space _ Hc).
    assert ((c =? Ch.MINUS)%N = false) as ->
        by (unfold is_digit in Hc; apply andb_true_iff in Hc as [H1 H2];
            apply N.leb_le in H1, H2; apply N.eqb_neq; unfold Ch.MINUS; lia).
    assert ((c =? Ch.PLUS)%N = false) as ->
        by (unfold is_digit in Hc; apply andb_true_iff in Hc as [H1 H2];
            apply N.leb_le in H1, H2; apply N.eqb_neq; unfold Ch.PLUS; lia).
    rewrite R. reflexivity.
  - unfold number_to_string, parseInt. cbn [drop_spaces].
    change (is_space Ch.MINUS) with false. cbv iota.
    rewrite N.eqb_refl, read_N_to_string. reflexivity.
Qed.

Lemma number_to_string_inj (n m : Z) : number_to_string n = number_to_string m -> n = m.
Proof.
  intros H. pose proof (parseInt_number_to_string n) as Hn.
  rewrite H, parseInt_number_to_string in Hn. congruence.
Qed.

(* ================================================================== *)
(** ** The difficulty derivation of /api/ai-quiz *)

(** A safe integer prints as it is. *)
Lemma Number_toString_safe (n : Z) :
  (Z.abs n <= 2 ^ 53)%Z -> Number_toString n = number_to_string n.
Proof.
  intros H. unfold Number_toString.
  destruct (Z.leb_spec (Z.abs n) (2 ^ 53)) as [_|H']; [reflexivity|lia].
Qed.

(** The tier of a numeric rate is the tier of what [parseInt] reads in its
    printed form. *)
Lemma derive_difficulty_read (n k : Z) (sl : option str) :
  parseInt (if (n =? 0)%Z then number_to_string 0 else Number_toString n) = Some k ->
  derive_difficulty (numeric_rate n sl) = tier k.
Proof.
  intros H. unfold derive_difficulty, numeric_rate; cbn [Req.successRate Req.skillLevel].
  rewrite H. reflexivity.
Qed.

(** On the safe integers, which hold every percentage, [parseInt] reads the
    rate back and the tier is the rate's. *)
Lemma derive_difficulty_numeric (n : Z) (sl : option str) :
  (Z.abs n <= 2 ^ 53)%Z -> derive_difficulty (numeric_rate n sl) = tier n.
Proof.
  intros H. apply derive_difficulty_read.
  destruct (Z.eqb_spec n 0) as [->|_]; [reflexivity|].
  rewrite Number_toString_safe by exact H. apply parseInt_number_to_string.
Qed.

Lemma tier_monotone (n m : Z) : (n <= m)%Z -> tier_rank (tier n) <= tier_rank (tier m).
Proof.
  intros H. unfold tier.
  repeat match goal with
         | |- context [(?a <=? ?b)%Z] => destruct (Z.leb_spec a b)
         end; try lia; vm_compute; lia.
Qed.

(** The difficulty the handler derived is the one its prompt carries. *)
Lemma ai_quiz_prompt (env : option str) (key : str) (b : Req.body)
      (upstream : prompt -> completion str) :
  USE_LOCAL_AI env key = false ->
  Req.userProfile b <> Some Req.Null ->
  exists rest,
    snd (run upstream (ai_quiz env key b))
    = PromptAiQuiz (default (Req.subject b) $"General") (default (Req.topic b) $"basics")
        (default (Req.numQuestions b) 5%Z)
        (derive_difficulty
           (Req.profile_of (default (Req.userProfile b) (Req.Profile Req.no_profile)))) :: rest.
Proof.
  intros H Hp. unfold ai_quiz. rewrite H.
  destruct (Req.userProfile b) as [[|p]|]; [contradiction| |];
    cbn [default Req.properties Req.profile_of lift ptry pbind callGoogleAPI run];
    match goal with |- context [run upstream ?m] => destruct (run upstream m) as [r sent] end;
    exists sent; reflexivity.
Qed.

(** On the safe integers the derived difficulty follows the inclusive
    thresholds (85 and up expert, 70 and up hard, 50 and up medium, below
    that easy) whatever [skillLevel] says, it is monotonic in the rate, and
    the rates 0, 50, 70, 85 give easy, medium, hard, expert. *)
Lemma ai_quiz_difficulty_thresholds :
  forall (n m : Z) (sl sl' : option str),
    (Z.abs n <= 2 ^ 53)%Z -> (Z.abs m <= 2 ^ 53)%Z ->
    derive_difficulty (numeric_rate n sl) = tier n
    /\ ((n <= m)%Z ->
        tier_rank (derive_difficulty (numeric_rate n sl))
        <= tier_rank (derive_difficulty (numeric_rate m sl')))
    /\ derive_difficulty (numeric_rate 0 sl) = $"easy"
    /\ derive_difficulty (numeric_rate 50 sl) = $"medium"
    /\ derive_difficulty (numeric_rate 70 sl) = $"hard"
    /\ derive_difficulty (numeric_rate 85 sl) = $"expert".
Proof.
  intros n m sl sl' Hn Hm.
  rewrite (derive_difficulty_numeric n) by exact Hn.
  rewrite (derive_difficulty_numeric m) by exact Hm.
  repeat split; try reflexivity. apply tier_monotone.
Qed.

(** The printed form of a number from 1e21 on is in exponent notation, and
    [parseInt] reads its first digit only. *)
Example large_numbers_in_print :
  Number_toString (10 ^ 21) = $"1e+21"
  /\ Number_toString (2 ^ 70) = $"1.1805916207174113e+21"
  /\ Number_toString (2 ^ 64) = $"18446744073709552000"
  /\ Number_toString (2 ^ 53 + 1) = $"9007199254740992"
  /\ Number_toString (10 ^ 23) = $"1e+23"
  /\ Number_toString (2 ^ 1024 - 2 ^ 971) = $"1.7976931348623157e+308"
  /\ Number_toString (10 ^ 400) = $"Infinity"
  /\ parseInt $"1e+21" = Some 1%Z
  /\ parseInt $"Infinity" = None.
Proof. repeat split; vm_compute; reflexivity. Qed.

(** C4 (violated from 1e21 on).  The route hands the number to [parseInt],
    which reads the string the number prints as.  Up to 2^53 that is the
    number, and the thresholds of the specification hold: 85 and up expert,
    70 and up hard, 50 and up medium, below that easy, whatever
    [skillLevel] says.  The rate 1e21 prints as "1e+21", [parseInt] reads 1
    and the difficulty is 'easy', where the thresholds give 'expert': the
    derivation is not monotonic, the rate 85 being 'expert'. *)
Theorem success_rate_1e21_is_easy :
  forall sl sl' : option str,
    derive_difficulty (numeric_rate (10 ^ 21) sl) = $"easy"
    /\ tier (10 ^ 21) = $"expert"
    /\ derive_difficulty (numeric_rate 85 sl') = $"expert"
    /\ (85 <= 10 ^ 21)%Z
    /\ ~ tier_rank (derive_difficulty (numeric_rate 85 sl'))
         <= tier_rank (derive_difficulty (numeric_rate (10 ^ 21) sl))
    /\ (forall n : Z, (Z.abs n <= 2 ^ 53)%Z -> derive_difficulty (numeric_rate n sl) = tier n).
Proof.
  intros sl sl'.
  assert (derive_difficulty (numeric_rate (10 ^ 21) sl) = $"easy") as Hbig
      by (apply (derive_difficulty_read (10 ^ 21) 1 sl); vm_compute; reflexivity).
  assert (derive_difficulty (numeric_rate 85 sl') = $"expert") as H85
      by (apply (derive_difficulty_read 85 85 sl'); vm_compute; reflexivity).
  rewrite Hbig, H85.
  split; [reflexivity|]. split; [reflexivity|]. split; [reflexivity|].
  split; [vm_compute; discriminate|]. split.
  - vm_compute. lia.
  - intros n Hn. apply derive_difficulty_numeric. exact Hn.
Qed.

(** A rate given as a string is read by [parseInt] too; text that is no
    number leaves the choice to [skillLevel]. *)
Example derive_difficulty_from_strings :
  derive_difficulty {| Req.successRate := Some (Req.RateStr $"72.5%");
                       Req.skillLevel := Some $"beginner" |} = $"hard"
  /\ derive_difficulty {| Req.successRate := Some (Req.RateStr $"n/a");
                          Req.skillLevel := Some $"Advanced" |} = $"hard"
  /\ derive_difficulty {| Req.successRate := Some (Req.RateStr $"n/a");
                          Req.skillLevel := Some $"Beginner" |} = $"easy"
  /\ derive_difficulty {| Req.successRate := Some (Req.RateStr $"n/a");
                          Req.skillLevel := None |} = $"medium"
  /\ derive_difficulty Req.no_profile = $"easy".
Proof. repeat split. Qed.

(* ================================================================== *)
(** ** The routes in fallback mode *)

(** With no key in the environment the server is in fallback mode, whatever
    the literal is. *)
Lemma no_key_is_local (key : str) : USE_LOCAL_AI None key = true.
Proof.
  unfold USE_LOCAL_AI, GOOGLE_API_KEY, or_else.
  destruct key; [reflexivity|apply str_eqb_refl].
Qed.

(** C8.  In fallback mode, POST /api/quiz-questions with subject "Biology",
    topic "Cells" and numQuestions 3 answers 200 with an array of exactly
    three question objects, each with exactly four options and correctIndex
    2, and sends nothing upstream. *)
Theorem quiz_questions_biology_cells :
  forall (env : option str) (key : str) (upstream : prompt -> completion str),
    USE_LOCAL_AI env key = true ->
    exists qs,
      run upstream (quiz_questions env key biology_cells)
      = (Normal {| status := 200; body := VArr qs |}, [])
      /\ length qs = 3
      /\ Forall (fun q => exists options,
                     get q $"options" = VArr options
                     /\ length options = 4
                     /\ get q $"correctIndex" = num 2) qs.
Proof.
  intros env key upstream H. unfold quiz_questions. rewrite H.
  eexists. split; [reflexivity|]. split; [reflexivity|].
  repeat constructor; eexists; repeat split.
Qed.

Lemma quiz_questions_biology_cells_witness :
  exists qs,
    run (fun _ => Throw (Error $"offline")) (quiz_questions None $"placeholder" biology_cells)
    = (Normal {| status := 200; body := VArr qs |}, [])
    /\ length qs = 3
    /\ Forall (fun q => exists options,
                   get q $"options" = VArr options
                   /\ length options = 4
                   /\ get q $"correctIndex" = num 2) qs.
Proof.
  apply (quiz_questions_biology_cells None $"placeholder" (fun _ => Throw (Error $"offline"))).
  reflexivity.
Defined.

(* ================================================================== *)
(** ** Errors and their fallback payloads *)

Lemma configured_is_not_local : USE_LOCAL_AI configured_key placeholder_key = false.
Proof. reflexivity. Qed.

(** When the upstream call throws, the [catch] block of /api/ai-quiz reads
    [difficulty], which it cannot see: the handler ends with a
    ReferenceError and sends nothing. *)
Lemma ai_quiz_catch_escapes (env : option str) (key : str) (b : Req.body)
      (upstream : prompt -> completion str) :
  USE_LOCAL_AI env key = false ->
  (forall p, exists e, upstream p = Throw e) ->
  fst (run upstream (ai_quiz env key b)) = Throw (ReferenceError $"difficulty is not defined").
Proof.
  intros H Hup. unfold ai_quiz. rewrite H.
  destruct (Req.userProfile b) as [[|p]|];
    cbn [default Req.properties lift ptry pbind callGoogleAPI run]; try reflexivity;
    match goal with |- context [upstream ?p] => destruct (Hup p) as [e ->] end;
    reflexivity.
Qed.

(** A [userProfile] that is [null] takes the handler into its [catch]
    block before anything else is done, in fallback mode too: nothing is
    sent upstream, and the handler ends with the same ReferenceError. *)
Lemma ai_quiz_null_profile_escapes (env : option str) (key : str) (b : Req.body)
      (upstream : prompt -> completion str) :
  Req.userProfile b = Some Req.Null ->
  run upstream (ai_quiz env key b)
  = (Throw (ReferenceError $"difficulty is not defined"), []).
Proof.
  intros H. unfold ai_quiz. rewrite H. reflexivity.
Qed.

(** C1 (violated by /api/ai-quiz).  With a key configured and the upstream
    down, the handler of POST /api/ai-quiz with body [{}] fails on its
    primary path and sends no response at all: its promise rejects with
    "difficulty is not defined"; and the body the error-handling middleware
    makes of that exception has no [fallback]. *)
Theorem ai_quiz_error_without_fallback :
  run upstream_down (ai_quiz configured_key placeholder_key Req.empty)
  = (Throw (ReferenceError $"difficulty is not defined"),
     [PromptAiQuiz $"General" $"basics" 5 $"easy"])
  /\ error_with_fallback (error_handler (ReferenceError $"difficulty is not defined")) = false
  /\ has (body (error_handler (ReferenceError $"difficulty is not defined"))) "fallback" = false.
Proof. repeat split. Qed.

(** The extractor's results reach a route only through [lift]. *)
Ltac split_upstream upstream :=
  cbn [ptry pbind callGoogleAPI run];
  match goal with |- context [upstream ?p] => destruct (upstream p) as [resp|e] end;
  cbn [ptry pbind lift run];
  [ match goal with
    | |- context [parseJSONFromText ?t ?x] => destruct (parseJSONFromText t x) as [parsed|e]
    end; cbn [ptry pbind lift run]
  | ].

(** X1.  The five routes other than ai-quiz answer every request whose
    body is an object with its fields, where present, of the documented
    types (strings, integer counts), whatever the upstream returns or
    throws: with 200, or with 400 or 500 and a body that has an error and a
    fallback. *)
Lemma five_routes_always_fallback (env : option str) (key : str) (r : route) (b : Req.body)
      (upstream : prompt -> completion str) :
  r <> AiQuizRoute ->
  exists resp,
    fst (run upstream (handle env key r b)) = Normal resp
    /\ (status resp = 200%Z \/ error_with_fallback resp = true).
Proof.
  intros Hr. destruct r; try contradiction; cbn [handle].
  - unfold knowledge_graph. destruct (USE_LOCAL_AI env key).
    + eexists; split; [reflexivity|left; reflexivity].
    + split_upstream upstream.
      * destruct (negb (truthy parsed) || negb (truthy (get parsed $"concepts")));
          eexists; (split; [reflexivity|]); [right|left]; reflexivity.
      * eexists; split; [reflexivity|right; reflexivity].
      * eexists; split; [reflexivity|right; reflexivity].
  - unfold quiz_questions. destruct (USE_LOCAL_AI env key).
    + eexists; split; [reflexivity|left; reflexivity].
    + split_upstream upstream.
      * destruct (negb (isArray parsed));
          eexists; (split; [reflexivity|]); [right|left]; reflexivity.
      * eexists; split; [reflexivity|right; reflexivity].
      * eexists; split; [reflexivity|right; reflexivity].
  - unfold study_plan. destruct (USE_LOCAL_AI env key).
    + eexists; split; [reflexivity|left; reflexivity].
    + split_upstream upstream.
      * destruct (negb (truthy parsed) || negb (truthy (get parsed $"phases")));
          eexists; (split; [reflexivity|]); [right|left]; reflexivity.
      * eexists; split; [reflexivity|right; reflexivity].
      * eexists; split; [reflexivity|right; reflexivity].
  - unfold complete_learning_module. destruct (USE_LOCAL_AI env key).
    + eexists; split; [reflexivity|left; reflexivity].
    + split_upstream upstream.
      * destruct (negb (truthy parsed) || negb (truthy (get parsed $"basics")));
          eexists; (split; [reflexivity|]); [right|left]; reflexivity.
      * eexists; split; [reflexivity|right; reflexivity].
      * eexists; split; [reflexivity|right; reflexivity].
  - unfold quiz_assignments. destruct (USE_LOCAL_AI env key).
    + eexists; split; [reflexivity|left; reflexivity].
    + split_upstream upstream.
      * destruct (negb (truthy parsed) || negb (truthy (get parsed $"importantTopics")));
          eexists; (split; [reflexivity|]); [right|left]; reflexivity.
      * eexists; split; [reflexivity|right; reflexivity].
      * eexists; split; [reflexivity|right; reflexivity].
Qed.

(* ================================================================== *)
(** ** Defaults for missing fields *)

(** In fallback mode a body with fields missing is answered as the body
    with the defaults written out is. *)
Lemma defaults_in_fallback_mode (env : option str) (key : str) (r : route) (b : Req.body)
      (upstream : prompt -> completion str) :
  USE_LOCAL_AI env key = true ->
  run upstream (handle env key r b) = run upstream (handle env key r (with_defaults r b)).
Proof.
  intros H.
  destruct r; cbn [handle];
    unfold knowledge_graph, quiz_questions, study_plan, complete_learning_module,
      quiz_assignments, ai_quiz;
    rewrite H; reflexivity.
Qed.

(** X3.  The four routes that destructure the body before their [try]
    answer a body with fields missing as they answer the body with the
    defaults written out, whatever the upstream does. *)
Lemma defaults_outside_try (env : option str) (key : str) (r : route) (b : Req.body)
      (upstream : prompt -> completion str) :
  r <> KnowledgeGraphRoute -> r <> QuizQuestionsRoute ->
  run upstream (handle env key r b) = run upstream (handle env key r (with_defaults r b)).
Proof.
  intros H1 H2. destruct r; try contradiction; cbn [handle].
  - reflexivity.
  - unfold complete_learning_module, with_defaults; cbn [Req.subject Req.topic default].
    replace (or_else (Some (default (Req.subject b) $"Mathematics")) $"Mathematics")
      with (or_else (Req.subject b) $"Mathematics")
      by (destruct (Req.subject b) as [[|c s]|]; reflexivity).
    replace (or_else (Some (default (Req.topic b) $"basics")) $"basics")
      with (or_else (Req.topic b) $"basics")
      by (destruct (Req.topic b) as [[|c s]|]; reflexivity).
    reflexivity.
  - reflexivity.
  - reflexivity.
Qed.

(** C9 (violated on the error path of two routes).  With a key configured
    and the upstream down, POST /api/quiz-questions with body [{}] answers
    with a fallback built for subject "Personalized Study" and topic
    "Basics", not for the route's defaults "Mathematics" and "basics", which
    the same body with the defaults written out gets; and POST
    /api/knowledge-graph with body [{}] answers with a fallback of 6
    concepts where the route's default is 12. *)
Theorem error_path_ignores_route_defaults :
  fallback_of (run upstream_down (quiz_questions configured_key placeholder_key Req.empty))
  = VArr (generateQuizQuestionsLocal (Some $"Personalized Study") (Some $"Basics") None (Some 3%Z))
  /\ fallback_of (run upstream_down
                    (quiz_questions configured_key placeholder_key
                       (with_defaults QuizQuestionsRoute Req.empty)))
     = VArr (generateQuizQuestionsLocal (Some $"Mathematics") (Some $"basics") None (Some 3%Z))
  /\ run upstream_down (quiz_questions configured_key placeholder_key Req.empty)
     <> run upstream_down (quiz_questions configured_key placeholder_key
                             (with_defaults QuizQuestionsRoute Req.empty))
  /\ length (items (get (fallback_of (run upstream_down
                (knowledge_graph configured_key placeholder_key Req.empty))) $"concepts")) = 6
  /\ length (items (get (fallback_of (run upstream_down
                (knowledge_graph configured_key placeholder_key
                   (with_defaults KnowledgeGraphRoute Req.empty)))) $"concepts")) = 12.
Proof.
  split; [reflexivity|]. split; [reflexivity|]. split; [|split; reflexivity].
  intros E. apply (f_equal fallback_of) in E. vm_compute in E. discriminate E.
Qed.

(* ================================================================== *)
(** ** The learner profile *)

Module ProfileFacts.

Import LearningEngine.

(** The profile of a history that is not empty is computed from the
    history, and it is what the engine stores. *)
Lemma analyze_nonempty (this : t) (s : entry) (h : list entry) :
  exists p, analyzeLearnerProfile this (Some (s :: h)) = (p, {| learnerProfile := p |})
            /\ p = fst (analyzeLearnerProfile create (Some (s :: h))).
Proof. eexists; split; reflexivity. Qed.

(** C3, as stated, fails on the empty history: the same (empty) history
    gives the fresh engine its initial profile and the practised engine the
    profile of its last analysis. *)
Lemma analyze_empty_history_reads_state :
  fst (analyzeLearnerProfile create (Some []))
  <> fst (analyzeLearnerProfile practised (Some []))
  /\ skillLevel (fst (analyzeLearnerProfile create (Some []))) = $"beginner"
  /\ skillLevel (fst (analyzeLearnerProfile practised (Some []))) = $"advanced".
Proof.
  split; [|split; reflexivity].
  intros E. apply (f_equal skillLevel) in E. vm_compute in E. discriminate E.
Qed.

(** C3, amended.  For a history that is not empty, the profile is a function
    of the history alone: any two engines, whatever they store, return the
    same profile for it, and that profile is what the engine stores
    afterwards.  For an empty or absent history the call returns the stored
    profile and leaves the engine as it is. *)
Theorem analyze_profile_of_history :
  forall (this this' : t) (s : entry) (h : list entry),
    fst (analyzeLearnerProfile this (Some (s :: h)))
    = fst (analyzeLearnerProfile this' (Some (s :: h)))
    /\ learnerProfile (snd (analyzeLearnerProfile this (Some (s :: h))))
       = fst (analyzeLearnerProfile this (Some (s :: h)))
    /\ analyzeLearnerProfile this (Some []) = (learnerProfile this, this)
    /\ analyzeLearnerProfile this None = (learnerProfile this, this).
Proof.
  intros this this' s h.
  destruct (analyze_nonempty this s h) as (p & E & Hp).
  destruct (analyze_nonempty this' s h) as (p' & E' & Hp').
  rewrite E, E'. cbn [fst snd learnerProfile].
  repeat split. congruence.
Qed.

(** The rounding of the success rate is the engine's: 29 passed sessions of
    200 are 14.499999999999998 percent in double arithmetic, hence 14. *)
Example success_rate_29_of_200 :
  successRate
    (fst (analyzeLearnerProfile create
            (Some (repeat good_session 29
                   ++ repeat {| topic := $"Cells"; score := Some 50%float;
                                duration := Some 1000%float; timestamp := [] |} 171))))
  = 14%float.
Proof. vm_compute. reflexivity. Qed.

End ProfileFacts.

(* ================================================================== *)
(** ** Fallback mode: the shapes of the payloads *)

Lemma forallb_map {A B : Type} (p : B -> bool) (f : A -> B) (l : list A) :
  (forall x, In x l -> p (f x) = true) -> forallb p (List.map f l) = true.
Proof.
  induction l as [|a l IH]; intros H; simpl; [reflexivity|].
  rewrite H by (left; reflexivity). apply IH. intros x Hx. apply H. right; assumption.
Qed.

Lemma in_upto (n i : Z) : In i (upto n) <-> (0 <= i < n)%Z.
Proof.
  unfold upto. rewrite in_map_iff. split.
  - intros (k & <- & Hk). apply in_seq in Hk. lia.
  - intros H. exists (Z.to_nat i). split; [lia|]. apply in_seq. lia.
Qed.

Lemma length_upto (n : Z) : length (upto n) = Z.to_nat n.
Proof. unfold upto. now rewrite length_map, length_seq. Qed.

(** In double arithmetic, a sixth of 1 to 5, times 6, is the integer again. *)
Example sixths_round_back :
  (1 / 6 * 6 =? 1)%float = true /\ (2 / 6 * 6 =? 2)%float = true
  /\ (3 / 6 * 6 =? 3)%float = true /\ (4 / 6 * 6 =? 4)%float = true
  /\ (5 / 6 * 6 =? 5)%float = true.
Proof. repeat split. Qed.

Lemma concept_level_range (n i : Z) : (1 <= concept_level n i <= 6)%Z.
Proof. unfold concept_level. lia. Qed.

Lemma concept_difficulty_range (i : Z) : (0 <= i)%Z -> (1 <= concept_difficulty i <= 5)%Z.
Proof. intros H. unfold concept_difficulty. pose proof (Z.rem_bound_pos i 5 H). lia. Qed.

Lemma concept_has_shape (subject : str) (n i : Z) :
  (0 <= i)%Z -> concept_shape (concept subject n i) = true.
Proof.
  intros H. unfold concept_shape.
  change (get (concept subject n i) $"name") with (VStr (concept_name subject i)).
  change (get (concept subject n i) $"level") with (num (concept_level n i)).
  change (get (concept subject n i) $"difficulty") with (num (concept_difficulty i)).
  change (is_string (get (concept subject n i) $"description")) with true.
  pose proof (concept_level_range n i). pose proof (concept_difficulty_range i H).
  unfold integer_between, num, inject_Z; cbn [Qnum Qden is_string Pos.eqb andb].
  repeat (apply andb_true_iff; split); try reflexivity; apply Z.leb_le; lia.
Qed.

Lemma question_has_shape (subject topic : str) (i : Z) :
  question_shape (quiz_question subject topic i) = true.
Proof. reflexivity. Qed.

Lemma tagged_question_has_shape (subject topic : str) (i : Z) (a b : value) :
  question_shape (spread (quiz_question subject topic i)
                    [ ("targetConcept", a); ("prerequisiteGap", b) ]) = true.
Proof. reflexivity. Qed.

Lemma questions_have_shape (subject topic difficulty : option str) (n : option Z) :
  forallb question_shape (generateQuizQuestionsLocal subject topic difficulty n) = true.
Proof.
  unfold generateQuizQuestionsLocal. apply forallb_map. intros; apply question_has_shape.
Qed.

Lemma local_payload_conforms (r : route) (b : Req.body) : conforms r (local_payload r b) = true.
Proof.
  destruct r; unfold local_payload, conforms.
  - unfold generateKnowledgeGraph.
    match goal with
    | |- context [object [("concepts", VArr ?cs); ("dependencies", VObj ?ds)]] =>
        change (get (object [("concepts", VArr cs); ("dependencies", VObj ds)]) $"concepts")
          with (VArr cs);
        change (get (object [("concepts", VArr cs); ("dependencies", VObj ds)]) $"dependencies")
          with (VObj ds)
    end.
    cbn [array_of is_object]. rewrite andb_true_r.
    apply forallb_map. intros i Hi. apply in_upto in Hi. apply concept_has_shape. lia.
  - cbn [array_of]. unfold generateQuizQuestionsLocal. rewrite map_map.
    apply forallb_map. intros; apply tagged_question_has_shape.
  - reflexivity.
  - reflexivity.
  - unfold generateQuizAssignmentsLocal.
    match goal with
    | |- context [object [("importantTopics", ?t); ("assignments", VArr ?a)]] =>
        change (get (object [("importantTopics", t); ("assignments", VArr a)]) $"importantTopics")
          with t;
        change (get (object [("importantTopics", t); ("assignments", VArr a)]) $"assignments")
          with (VArr a)
    end.
    cbn [array_of]. apply andb_true_iff; split; [reflexivity|].
    apply forallb_map. reflexivity.
  - match goal with
    | |- context [object [("importantTopics", ?t); ("quiz", VArr ?a)]] =>
        change (get (object [("importantTopics", t); ("quiz", VArr a)]) $"importantTopics")
          with t;
        change (get (object [("importantTopics", t); ("quiz", VArr a)]) $"quiz")
          with (VArr a)
    end.
    cbn [array_of]. apply andb_true_iff; split; [reflexivity|].
    apply questions_have_shape.
Qed.

(** With no valid key configured, every content route answers a request
    that does not make it read a property of [null] with status 200 and the
    payload its local generator computes from the request's parameters
    alone; the payload has the route's shape; and nothing is sent
    upstream. *)
Lemma fallback_mode_answers_locally :
  forall (env : option str) (key : str) (upstream : prompt -> completion str)
         (r : route) (b : Req.body),
    USE_LOCAL_AI env key = true ->
    reads_null r b = false ->
    run upstream (handle env key r b)
    = (Normal {| status := 200; body := local_payload r b |}, [])
    /\ conforms r (local_payload r b) = true.
Proof.
  intros env key upstream r b H Hnull. split; [|apply local_payload_conforms].
  destruct r; cbn [handle];
    unfold knowledge_graph, quiz_questions, study_plan, complete_learning_module,
      quiz_assignments, ai_quiz;
    rewrite H; try reflexivity.
  unfold reads_null in Hnull. unfold local_payload, with_defaults.
  cbn [Req.userProfile Req.subject Req.topic Req.numQuestions default].
  destruct (Req.userProfile b) as [[|p]|]; [discriminate Hnull| |]; reflexivity.
Qed.

(** C2 (violated by /api/ai-quiz on a null [userProfile]).  In fallback
    mode, POST /api/ai-quiz with body [{ "userProfile": null }] gets no
    200: the destructuring default does not replace a [null], reading
    [userProfile.successRate] throws inside the [try] block, the [catch]
    block throws in turn on [difficulty], and the handler ends with that
    ReferenceError, having sent nothing.  So it is in every mode, for every
    body with a null [userProfile].  Every other request is answered in
    fallback mode as the specification says: 200, the local generator's
    payload, of the route's shape, and nothing sent upstream. *)
Theorem null_profile_gets_no_answer :
  forall (key : str) (upstream : prompt -> completion str),
    USE_LOCAL_AI None key = true
    /\ run upstream (handle None key AiQuizRoute null_profile)
       = (Throw (ReferenceError $"difficulty is not defined"), [])
    /\ error_with_fallback (error_handler (ReferenceError $"difficulty is not defined")) = false
    /\ (forall (env : option str) (b : Req.body),
           reads_null AiQuizRoute b = true ->
           run upstream (handle env key AiQuizRoute b)
           = (Throw (ReferenceError $"difficulty is not defined"), []))
    /\ (forall (env : option str) (r : route) (b : Req.body),
           USE_LOCAL_AI env key = true ->
           reads_null r b = false ->
           run upstream (handle env key r b)
           = (Normal {| status := 200; body := local_payload r b |}, [])
           /\ conforms r (local_payload r b) = true).
Proof.
  intros key upstream.
  split; [apply no_key_is_local|].
  split; [apply ai_quiz_null_profile_escapes; reflexivity|].
  split; [reflexivity|]. split.
  - intros env b H. apply ai_quiz_null_profile_escapes.
    unfold reads_null in H. destruct (Req.userProfile b) as [[|p]|]; try discriminate H.
    reflexivity.
  - intros env r b H Hnull. now apply fallback_mode_answers_locally.
Qed.

(* ================================================================== *)
(** ** The generated knowledge graph *)

Lemma concept_name_inj (subject : str) (i j : Z) :
  concept_name subject i = concept_name subject j -> i = j.
Proof.
  unfold concept_name. intros H.
  apply app_inv_head in H. apply app_inv_head in H.
  apply number_to_string_inj in H. lia.
Qed.

Lemma obj_set_fresh (props : list (str * value)) (k : str) (v : value) :
  (forall kv, In kv props -> fst kv <> k) -> obj_set props k v = props ++ [(k, v)].
Proof.
  induction props as [|[k' v'] props IH]; intros H; simpl; [reflexivity|].
  rewrite str_eqb_neq by (apply (H (k', v')); left; reflexivity).
  f_equal. apply IH. intros kv Hkv. apply H. right; assumption.
Qed.

(** The second loop of the generator writes each key once: the keys are the
    names of different indices. *)
Lemma link_from (subject : str) (k : nat) :
  forall (a : nat) (acc : list (str * value)),
    (forall kv, In kv acc -> exists j, (j < a)%nat /\ fst kv = concept_name subject (Z.of_nat j)) ->
    fold_left
      (fun dependencies i =>
         obj_set dependencies (concept_name subject (Z.of_nat i))
           (VArr [VStr (concept_name subject (Z.of_nat i - 1))]))
      (seq a k) acc
    = acc ++ List.map (fun i => (concept_name subject (Z.of_nat i),
                                 VArr [VStr (concept_name subject (Z.of_nat i - 1))]))
               (seq a k).
Proof.
  induction k as [|k IH]; intros a acc Hacc; simpl.
  - now rewrite app_nil_r.
  - rewrite obj_set_fresh.
    + rewrite IH.
      * now rewrite <- app_assoc.
      * intros kv Hkv. apply in_app_or in Hkv as [Hkv|[<-|[]]].
        -- destruct (Hacc kv Hkv) as (j & Hj & E). exists j. split; [lia|assumption].
        -- exists a. split; [lia|reflexivity].
    + intros kv Hkv E. destruct (Hacc kv Hkv) as (j & Hj & E').
      rewrite E' in E. apply concept_name_inj in E. lia.
Qed.

Lemma link_concepts_chain (subject : str) (n : nat) :
  link_concepts subject n = chain_dependencies subject n.
Proof.
  unfold link_concepts, chain_dependencies.
  rewrite link_from; [reflexivity|]. intros kv [].
Qed.

Lemma obj_get_chain (subject : str) (l : list nat) (i : Z) :
  obj_get (List.map (fun i => (concept_name subject (Z.of_nat i),
                               VArr [VStr (concept_name subject (Z.of_nat i - 1))])) l)
          (concept_name subject i)
  = if existsb (fun j => Z.eqb (Z.of_nat j) i) l
    then VArr [VStr (concept_name subject (i - 1))] else VUndefined.
Proof.
  induction l as [|j l IH]; simpl; [reflexivity|].
  destruct (Z.eqb_spec (Z.of_nat j) i) as [->|Hne].
  - now rewrite str_eqb_refl.
  - rewrite str_eqb_neq; [apply IH|].
    intros E. apply concept_name_inj in E. contradiction.
Qed.

Lemma push_entries_chain (subject : str) (l : list nat) :
  forall acc,
    KnowledgeGraph.push_entries acc
      (List.map (fun i => (concept_name subject (Z.of_nat i),
                           VArr [VStr (concept_name subject (Z.of_nat i - 1))])) l)
    = Normal (acc ++ List.map
                       (fun i => {| KnowledgeGraph.from := VStr (concept_name subject (Z.of_nat i - 1));
                                    KnowledgeGraph.to := concept_name subject (Z.of_nat i) |}) l).
Proof.
  induction l as [|i l IH]; intros acc; simpl.
  - now rewrite app_nil_r.
  - rewrite IH. now rewrite <- app_assoc.
Qed.

(** Along the chain every path goes from a concept to a later one. *)
Lemma chain_reaches_forward (subject : str) (n : nat) (a b : str) :
  KnowledgeGraph.reaches (chain_edges subject n) a b ->
  exists i j : Z, (i < j)%Z /\ a = concept_name subject i /\ b = concept_name subject j.
Proof.
  induction 1 as [a b Hin|a b c _ (i & j & Hij & -> & ->) _ (j' & k & Hjk & E & ->)].
  - unfold chain_edges in Hin. apply in_map_iff in Hin as (i & E & _).
    injection E as E1 E2. subst a b.
    exists (Z.of_nat i - 1)%Z, (Z.of_nat i). repeat split. lia.
  - apply concept_name_inj in E. subst j'. exists i, k. repeat split. lia.
Qed.

Lemma chain_acyclic (subject : str) (n : nat) : KnowledgeGraph.acyclic (chain_edges subject n).
Proof.
  intros a H. apply chain_reaches_forward in H as (i & j & Hij & -> & E).
  apply concept_name_inj in E. lia.
Qed.

(** C10.  For every subject and every [numConcepts] of at least 1, the
    generator returns exactly [numConcepts] concepts, the [i]-th named after
    its index, each with a level from 1 to 6 and a difficulty from 1 to 5;
    its dependencies give every concept after the first the concept before
    it as its one prerequisite, and the first concept none; the edges the
    client derives from them are the chain, which has no cycle. *)
Theorem knowledge_graph_is_a_chain :
  forall (subject : str) (numConcepts : Z),
    (1 <= numConcepts)%Z ->
    exists concepts dependencies,
      generateKnowledgeGraph (Some subject) (Some numConcepts)
      = object [ ("concepts", VArr concepts); ("dependencies", VObj dependencies) ]
      /\ Z.of_nat (length concepts) = numConcepts
      /\ Forall (fun c => exists level difficulty,
                     get c $"level" = num level /\ (1 <= level <= 6)%Z
                     /\ get c $"difficulty" = num difficulty /\ (1 <= difficulty <= 5)%Z)
                concepts
      /\ (forall i, (0 <= i < numConcepts)%Z ->
            get (nth (Z.to_nat i) concepts VUndefined) $"name" = VStr (concept_name subject i))
      /\ (forall i, (1 <= i < numConcepts)%Z ->
            obj_get dependencies (concept_name subject i)
            = VArr [VStr (concept_name subject (i - 1))])
      /\ obj_get dependencies (concept_name subject 0) = VUndefined
      /\ length dependencies = (length concepts - 1)%nat
      /\ exists g,
          KnowledgeGraph.setData (generateKnowledgeGraph (Some subject) (Some numConcepts))
          = Normal g
          /\ KnowledgeGraph.edges g = chain_edges subject (length concepts)
          /\ KnowledgeGraph.acyclic (KnowledgeGraph.edges g).
Proof.
  intros subject n Hn.
  exists (List.map (concept subject n) (upto n)),
         (chain_dependencies subject (length (List.map (concept subject n) (upto n)))).
  assert (Hlen : length (List.map (concept subject n) (upto n)) = Z.to_nat n)
    by now rewrite length_map, length_upto.
  split.
  { unfold generateKnowledgeGraph; cbn [default]. now rewrite link_concepts_chain. }
  split; [rewrite Hlen; lia|].
  split.
  { apply Forall_forall. intros c Hc. apply in_map_iff in Hc as (i & <- & Hi).
    apply in_upto in Hi. exists (concept_level n i), (concept_difficulty i).
    repeat split; try apply concept_level_range; apply concept_difficulty_range; lia. }
  split.
  { intros i Hi.
    rewrite (nth_indep _ VUndefined (concept subject n 0)) by (rewrite Hlen; lia).
    rewrite map_nth. unfold upto.
    change 0%Z with (Z.of_nat 0) at 1.
    rewrite map_nth, seq_nth by lia.
    cbn [Nat.add]. rewrite Z2Nat.id by lia. reflexivity. }
  rewrite Hlen. unfold chain_dependencies.
  split.
  { intros i Hi. rewrite obj_get_chain.
    replace (existsb (fun j => Z.eqb (Z.of_nat j) i) (seq 1 (Z.to_nat n - 1))) with true;
      [reflexivity|].
    symmetry. apply existsb_exists. exists (Z.to_nat i). split; [apply in_seq; lia|].
    apply Z.eqb_eq. lia. }
  split.
  { rewrite obj_get_chain.
    replace (existsb (fun j => Z.eqb (Z.of_nat j) 0) (seq 1 (Z.to_nat n - 1))) with false;
      [reflexivity|].
    symmetry. apply not_true_is_false. intros H.
    apply existsb_exists in H as (j & Hj & E). apply in_seq in Hj. apply Z.eqb_eq in E. lia. }
  split; [now rewrite length_map, length_seq|].
  eexists. split.
  { unfold generateKnowledgeGraph; cbn [default]. rewrite link_concepts_chain, Hlen.
    unfold KnowledgeGraph.setData, chain_dependencies.
    match goal with
    | |- context [object [("concepts", VArr ?cs); ("dependencies", VObj ?ds)]] =>
        change (get (object [("concepts", VArr cs); ("dependencies", VObj ds)]) $"concepts")
          with (VArr cs);
        change (get (object [("concepts", VArr cs); ("dependencies", VObj ds)]) $"dependencies")
          with (VObj ds)
    end.
    cbn [truthy KnowledgeGraph.entries object]. rewrite push_entries_chain.
    cbn [bind app]. reflexivity. }
  cbn [KnowledgeGraph.edges]. split; [reflexivity|].
  apply (chain_acyclic subject (Z.to_nat n)).
Qed.

Lemma knowledge_graph_is_a_chain_witness :
  exists concepts dependencies,
    generateKnowledgeGraph (Some $"Algebra") (Some 3%Z)
    = object [ ("concepts", VArr concepts); ("dependencies", VObj dependencies) ]
    /\ Z.of_nat (length concepts) = 3%Z
    /\ Forall (fun c => exists level difficulty,
                   get c $"level" = num level /\ (1 <= level <= 6)%Z
                   /\ get c $"difficulty" = num difficulty /\ (1 <= difficulty <= 5)%Z)
              concepts
    /\ (forall i, (0 <= i < 3)%Z ->
          get (nth (Z.to_nat i) concepts VUndefined) $"name" = VStr (concept_name $"Algebra" i))
    /\ (forall i, (1 <= i < 3)%Z ->
          obj_get dependencies (concept_name $"Algebra" i)
          = VArr [VStr (concept_name $"Algebra" (i - 1))])
    /\ obj_get dependencies (concept_name $"Algebra" 0) = VUndefined
    /\ length dependencies = (length concepts - 1)%nat
    /\ exists g,
        KnowledgeGraph.setData (generateKnowledgeGraph (Some $"Algebra") (Some 3%Z)) = Normal g
        /\ KnowledgeGraph.edges g = chain_edges $"Algebra" (length concepts)
        /\ KnowledgeGraph.acyclic (KnowledgeGraph.edges g).
Proof. apply (knowledge_graph_is_a_chain $"Algebra" 3). lia. Defined.

(** The graph of three concepts, written out. *)
Example knowledge_graph_of_three :
  generateKnowledgeGraph (Some $"Algebra") (Some 3%Z)
  = object
      [ ("concepts", VArr
           [ object [ ("name", text "Algebra concept 1"); ("level", num 1);
                      ("description", text "Auto-generated concept 1 for Algebra");
                      ("difficulty", num 1) ];
             object [ ("name", text "Algebra concept 2"); ("level", num 3);
                      ("description", text "Auto-generated concept 2 for Algebra");
                      ("difficulty", num 2) ];
             object [ ("name", text "Algebra concept 3"); ("level", num 5);
                      ("description", text "Auto-generated concept 3 for Algebra");
                      ("difficulty", num 3) ] ]);
        ("dependencies", object
           [ ("Algebra concept 2", texts ["Algebra concept 1"]);
             ("Algebra concept 3", texts ["Algebra concept 2"]) ]) ].
Proof. vm_compute. reflexivity. Qed.

(* ================================================================== *)
(** ** JSON.parse: what it consumes, and its budget *)

Module JsonFacts.
Import Json.

Lemma skip_ws_length (s : str) : length (skip_ws s) <= length s.
Proof.
  induction s as [|c s IH]; simpl; [lia|]. destruct (is_ws c); simpl; lia.
Qed.

Lemma pmap_parsed {A B : Type} (f : A -> B) (p : parsed A) (b : B) (r : str) :
  pmap f p = Parsed b r -> exists a, p = Parsed a r /\ b = f a.
Proof. destruct p; simpl; intros H; try discriminate. injection H as <- <-. eauto. Qed.

Lemma string_body_length (s : str) :
  forall k r, string_body s = Parsed k r -> length r < length s.
Proof.
  induction s as [s IH] using (well_founded_induction (Wf_nat.well_founded_ltof _ (@length N))).
  unfold Wf_nat.ltof in IH.
  intros k r H. destruct s as [|c s]; [discriminate|].
  cbn [string_body] in H.
  destruct (c =? Ch.DQUOTE)%N.
  { injection H as <- <-. simpl; lia. }
  destruct (c =? Ch.BACKSLASH)%N.
  { destruct s as [|e s]; [discriminate|].
    destruct (e =? 117)%N.
    - destruct s as [|h1 [|h2 [|h3 [|h4 s]]]]; try discriminate.
      destruct (hex4 h1 h2 h3 h4); [|discriminate].
      apply pmap_parsed in H as (a & H & _). apply IH in H; simpl in *; lia.
    - destruct (escape e); [|discriminate].
      apply pmap_parsed in H as (a & H & _). apply IH in H; simpl in *; lia. }
  destruct (c <? 32)%N; [discriminate|].
  apply pmap_parsed in H as (a & H & _). apply IH in H; simpl in *; lia.
Qed.

Lemma digit_run_length (s : str) :
  forall acc count acc' count' r,
    digit_run acc count s = (acc', count', r) -> length r <= length s.
Proof.
  induction s as [|c s IH]; intros acc count acc' count' r H; simpl in H.
  - injection H as <- <- <-. simpl; lia.
  - destruct (is_digit c).
    + apply IH in H. simpl; lia.
    + injection H as <- <- <-. simpl; lia.
Qed.

Lemma exponent_part_length (neg : bool) (mant : N) (scale : nat) (s : str) :
  forall q r, exponent_part neg mant scale s = Parsed q r -> length r <= length s.
Proof.
  intros q r H. unfold exponent_part in H.
  destruct s as [|c s1]; [injection H as <- <-; lia|].
  destruct ((c =? 101)%N || (c =? 69)%N).
  - destruct (exponent_sign s1) as [eneg s2] eqn:S.
    assert (length s2 <= length s1) as Hs2.
    { unfold exponent_sign in S. destruct s1 as [|d s1']; [injection S as <- <-; lia|].
      destruct (d =? Ch.MINUS)%N; [injection S as <- <-; simpl; lia|].
      destruct (d =? Ch.PLUS)%N; injection S as <- <-; simpl; lia. }
    destruct (digit_run 0 0 s2) as [[e k] rest] eqn:E.
    apply digit_run_length in E.
    destruct k; [discriminate|]. injection H as <- <-. simpl; lia.
  - injection H as <- <-. lia.
Qed.

Lemma fraction_part_length (neg : bool) (int : N) (s : str) :
  forall q r, fraction_part neg int s = Parsed q r -> length r <= length s.
Proof.
  intros q r H. unfold fraction_part in H.
  destruct s as [|c s1]; [apply exponent_part_length in H; assumption|].
  destruct (c =? Ch.DOT)%N.
  - destruct (digit_run int 0 s1) as [[mant k] rest] eqn:E.
    apply digit_run_length in E.
    destruct k; [discriminate|]. apply exponent_part_length in H. simpl; lia.
  - apply exponent_part_length in H. assumption.
Qed.

Lemma number_length (s : str) :
  forall q r, number s = Parsed q r -> length r < length s.
Proof.
  intros q r H. unfold number in H.
  destruct (minus_sign s) as [neg s1] eqn:E.
  assert (length s1 <= length s) as Hs1.
  { unfold minus_sign in E. destruct s as [|c s']; [injection E as <- <-; lia|].
    destruct (c =? Ch.MINUS)%N; injection E as <- <-; simpl; lia. }
  destruct s1 as [|c s2]; [discriminate|].
  destruct (c =? Ch.ZERO)%N.
  - apply fraction_part_length in H. simpl in *; lia.
  - destruct (is_digit c); [|discriminate].
    destruct (digit_run (c - 48) 0 s2) as [[int k] rest] eqn:D.
    apply digit_run_length in D. apply fraction_part_length in H. simpl in *; lia.
Qed.

Lemma skip_ws_cons (s : str) (c : N) (r : str) :
  skip_ws s = c :: r -> S (length r) <= length s.
Proof. intros H. pose proof (skip_ws_length s) as L. rewrite H in L. exact L. Qed.

Lemma keyword_rest (k : nat) (s : str) : s <> [] -> 0 < k -> length (skipn k s) < length s.
Proof.
  intros Hs Hk. rewrite length_skipn. destruct s; [contradiction|]. cbn [length]. lia.
Qed.

(** What the parser leaves is shorter than what it was given. *)
Lemma parse_length (fuel : nat) :
  (forall s v r, parse_value fuel s = Parsed v r -> length r < length s)
  /\ (forall acc s v r, parse_members fuel acc s = Parsed v r -> length r < length s)
  /\ (forall acc s v r, parse_elements fuel acc s = Parsed v r -> length r < length s).
Proof.
  induction fuel as [|f (IHv & IHm & IHe)]; [repeat split; discriminate|].
  repeat split.
  - intros s v r H. cbn [parse_value] in H.
    destruct (skip_ws s) as [|c t] eqn:W; [discriminate|]. apply skip_ws_cons in W.
    destruct (c =? Ch.LBRACE)%N.
    { destruct (skip_ws t) as [|c2 t2] eqn:W2; [discriminate|]. apply skip_ws_cons in W2.
      destruct (c2 =? Ch.RBRACE)%N; [injection H as <- <-; lia|].
      apply IHm in H. lia. }
    destruct (c =? Ch.LBRACKET)%N.
    { destruct (skip_ws t) as [|c2 t2] eqn:W2; [discriminate|]. apply skip_ws_cons in W2.
      destruct (c2 =? Ch.RBRACKET)%N; [injection H as <- <-; lia|].
      apply IHe in H. lia. }
    destruct (c =? Ch.DQUOTE)%N.
    { apply pmap_parsed in H as (a & H & _). apply string_body_length in H. lia. }
    assert (forall k, 0 < k -> length (skipn k (c :: t)) < length s) as K.
    { intros k Hk. pose proof (keyword_rest k (c :: t) ltac:(discriminate) Hk). simpl in *; lia. }
    destruct (prefix $"true" (c :: t)); [injection H as <- <-; exact (K 4 ltac:(lia))|].
    destruct (prefix $"false" (c :: t)); [injection H as <- <-; exact (K 5 ltac:(lia))|].
    destruct (prefix $"null" (c :: t)); [injection H as <- <-; exact (K 4 ltac:(lia))|].
    apply pmap_parsed in H as (a & H & _). apply number_length in H. simpl in *; lia.
  - intros acc s v r H. cbn [parse_members] in H.
    destruct (skip_ws s) as [|c t] eqn:W; [discriminate|]. apply skip_ws_cons in W.
    destruct (c =? Ch.DQUOTE)%N; [|discriminate].
    destruct (string_body t) as [k t1| |] eqn:B; try discriminate.
    apply string_body_length in B.
    destruct (skip_ws t1) as [|c1 t2] eqn:W1; [discriminate|]. apply skip_ws_cons in W1.
    destruct (c1 =? Ch.COLON)%N; [|discriminate].
    destruct (parse_value f t2) as [v1 t3| |] eqn:V; try discriminate.
    apply IHv in V.
    destruct (skip_ws t3) as [|c3 t4] eqn:W3; [discriminate|]. apply skip_ws_cons in W3.
    destruct (c3 =? Ch.COMMA)%N; [apply IHm in H; lia|].
    destruct (c3 =? Ch.RBRACE)%N; [injection H as <- <-; lia|discriminate].
  - intros acc s v r H. cbn [parse_elements] in H.
    destruct (parse_value f s) as [v1 t1| |] eqn:V; try discriminate.
    apply IHv in V.
    destruct (skip_ws t1) as [|c t2] eqn:W; [discriminate|]. apply skip_ws_cons in W.
    destruct (c =? Ch.COMMA)%N; [apply IHe in H; lia|].
    destruct (c =? Ch.RBRACKET)%N; [injection H as <- <-; lia|discriminate].
Qed.

Lemma pmap_exhausted {A B : Type} (f : A -> B) (p : parsed A) :
  pmap f p = Exhausted -> p = Exhausted.
Proof. destruct p; simpl; intros H; try discriminate; reflexivity. Qed.

Lemma string_body_total (s : str) : string_body s <> Exhausted.
Proof.
  induction s as [s IH] using (well_founded_induction (Wf_nat.well_founded_ltof _ (@length N))).
  unfold Wf_nat.ltof in IH.
  destruct s as [|c s]; [discriminate|]. cbn [string_body].
  destruct (c =? Ch.DQUOTE)%N; [discriminate|].
  destruct (c =? Ch.BACKSLASH)%N.
  { destruct s as [|e s]; [discriminate|].
    destruct (e =? 117)%N.
    - destruct s as [|h1 [|h2 [|h3 [|h4 s]]]]; try discriminate.
      destruct (hex4 h1 h2 h3 h4); [|discriminate].
      intros H. apply pmap_exhausted in H. revert H. apply IH. simpl; lia.
    - destruct (escape e); [|discriminate].
      intros H. apply pmap_exhausted in H. revert H. apply IH. simpl; lia. }
  destruct (c <? 32)%N; [discriminate|].
  intros H. apply pmap_exhausted in H. revert H. apply IH. simpl; lia.
Qed.

Lemma number_total (s : str) : number s <> Exhausted.
Proof.
  unfold number. destruct (minus_sign s) as [neg s1].
  destruct s1 as [|c s2]; [discriminate|].
  assert (forall neg mant scale t, exponent_part neg mant scale t <> Exhausted) as HE.
  { intros. unfold exponent_part. destruct t as [|d t1]; [discriminate|].
    destruct ((d =? 101)%N || (d =? 69)%N); [|discriminate].
    destruct (exponent_sign t1) as [eneg t2].
    destruct (digit_run 0 0 t2) as [[e k] rest]. destruct k; discriminate. }
  assert (forall neg int t, fraction_part neg int t <> Exhausted) as HF.
  { intros. unfold fraction_part. destruct t as [|d t1]; [apply HE|].
    destruct (d =? Ch.DOT)%N; [|apply HE].
    destruct (digit_run int 0 t1) as [[mant k] rest]. destruct k; [discriminate|apply HE]. }
  destruct (c =? Ch.ZERO)%N; [apply HF|].
  destruct (is_digit c); [|discriminate].
  destruct (digit_run (c - 48) 0 s2) as [[int k] rest]. apply HF.
Qed.

(** The parser never uses up a budget of twice the length of the text. *)
Lemma parse_fuel (fuel : nat) :
  (forall s, 2 * length s + 1 <= fuel -> parse_value fuel s <> Exhausted)
  /\ (forall acc s, 2 * length s + 1 <= fuel -> parse_members fuel acc s <> Exhausted)
  /\ (forall acc s, 2 * length s + 2 <= fuel -> parse_elements fuel acc s <> Exhausted).
Proof.
  induction fuel as [|f (IHv & IHm & IHe)]; [repeat split; intros; lia|].
  destruct (parse_length f) as (Lv & Lm & Le).
  repeat split.
  - intros s Hs. cbn [parse_value].
    destruct (skip_ws s) as [|c t] eqn:W; [discriminate|]. apply skip_ws_cons in W.
    destruct (c =? Ch.LBRACE)%N.
    { destruct (skip_ws t) as [|c2 t2] eqn:W2; [discriminate|].
      destruct (c2 =? Ch.RBRACE)%N; [discriminate|]. apply IHm. lia. }
    destruct (c =? Ch.LBRACKET)%N.
    { destruct (skip_ws t) as [|c2 t2] eqn:W2; [discriminate|].
      destruct (c2 =? Ch.RBRACKET)%N; [discriminate|]. apply IHe. lia. }
    destruct (c =? Ch.DQUOTE)%N.
    { intros H. apply pmap_exhausted in H. revert H. apply string_body_total. }
    destruct (prefix $"true" (c :: t)); [discriminate|].
    destruct (prefix $"false" (c :: t)); [discriminate|].
    destruct (prefix $"null" (c :: t)); [discriminate|].
    intros H. apply pmap_exhausted in H. revert H. apply number_total.
  - intros acc s Hs. cbn [parse_members].
    destruct (skip_ws s) as [|c t] eqn:W; [discriminate|]. apply skip_ws_cons in W.
    destruct (c =? Ch.DQUOTE)%N; [|discriminate].
    destruct (string_body t) as [k t1| |] eqn:B; [|discriminate|now apply string_body_total in B].
    apply string_body_length in B.
    destruct (skip_ws t1) as [|c1 t2] eqn:W1; [discriminate|]. apply skip_ws_cons in W1.
    destruct (c1 =? Ch.COLON)%N; [|discriminate].
    destruct (parse_value f t2) as [v1 t3| |] eqn:V;
      [|discriminate|exfalso; revert V; apply IHv; lia].
    apply Lv in V.
    destruct (skip_ws t3) as [|c3 t4] eqn:W3; [discriminate|]. apply skip_ws_cons in W3.
    destruct (c3 =? Ch.COMMA)%N; [apply IHm; lia|].
    destruct (c3 =? Ch.RBRACE)%N; discriminate.
  - intros acc s Hs. cbn [parse_elements].
    destruct (parse_value f s) as [v1 t1| |] eqn:V;
      [|discriminate|exfalso; revert V; apply IHv; lia].
    apply Lv in V.
    destruct (skip_ws t1) as [|c t2] eqn:W; [discriminate|]. apply skip_ws_cons in W.
    destruct (c =? Ch.COMMA)%N; [apply IHe; lia|].
    destruct (c =? Ch.RBRACKET)%N; discriminate.
Qed.

(** [JSON_parse] fails on a syntax error only: its budget is never used up. *)
Lemma JSON_parse_budget (text : str) :
  parse_value (S (S (2 * length text))) text <> Exhausted.
Proof. apply (proj1 (parse_fuel _)). lia. Qed.

End JsonFacts.

(* ================================================================== *)
(** ** The extractor never throws *)

Lemma parseJSONFromText_unfold (s : str) (expected : value) :
  s <> [] ->
  parseJSONFromText (VStr s) expected
  = match strict_parse s expected with
    | Normal p => Normal p
    | Throw _ =>
        match retry_parse s expected with
        | Normal p => Normal p
        | Throw _ => Normal VNull
        end
    end.
Proof.
  intros Hs. destruct s as [|c s]; [contradiction|]. reflexivity.
Qed.

Lemma parseJSONFromText_not_text (text expected : value) :
  nonempty_string text = false -> parseJSONFromText text expected = Normal VNull.
Proof.
  intros H. unfold parseJSONFromText.
  destruct text as [| |b|q|[|c s]| |]; cbn [is_string negb]; rewrite ?orb_true_r;
    try reflexivity. discriminate H.
Qed.

Lemma parseJSONFromText_returns (text expected : value) :
  exists v, parseJSONFromText text expected = Normal v.
Proof.
  destruct (nonempty_string text) eqn:T.
  - destruct text as [| | | | [|c s] | |]; try discriminate T.
    rewrite parseJSONFromText_unfold by discriminate.
    destruct (strict_parse (c :: s) expected); [eauto|].
    destruct (retry_parse (c :: s) expected); eauto.
  - exists VNull. apply parseJSONFromText_not_text. exact T.
Qed.

(** X2.  When its [userProfile] is not [null], /api/ai-quiz answers
    whatever text the upstream completes with: with 200, or with 400 and a
    fallback.  The handler then stays out of its [catch] block, which a
    null [userProfile] and an upstream that throws take it into. *)
Lemma ai_quiz_answers_a_completion (env : option str) (key : str) (b : Req.body)
      (upstream : prompt -> completion str) :
  USE_LOCAL_AI env key = false ->
  reads_null AiQuizRoute b = false ->
  (forall p, exists t, upstream p = Normal t) ->
  exists resp,
    fst (run upstream (ai_quiz env key b)) = Normal resp
    /\ (status resp = 200%Z \/ (status resp = 400%Z /\ error_with_fallback resp = true)).
Proof.
  intros H Hnull Hup. unfold ai_quiz. rewrite H. unfold reads_null in Hnull.
  destruct (Req.userProfile b) as [[|p]|]; [discriminate Hnull| |];
    cbn [default Req.properties ptry pbind lift callGoogleAPI run];
    match goal with |- context [upstream ?p] => destruct (Hup p) as [t ->] end;
    cbn [ptry pbind lift run];
    destruct (parseJSONFromText_returns (VStr t) (text "object")) as [parsed ->];
    cbn [ptry pbind lift run];
    match goal with |- context [if ?c then _ else _] => destruct c end;
    eexists; (split; [reflexivity|]); [right; split|left|right; split|left]; reflexivity.
Qed.

Lemma parseJSONFromText_null_literal :
  parseJSONFromText (text "null") VUndefined = Normal VNull
  /\ nonempty_string (text "null") = true
  /\ strict_parse $"null" VUndefined = Normal VNull
  /\ ~ failed (strict_parse $"null" VUndefined).
Proof.
  repeat split. intros [e H]. discriminate H.
Qed.

Theorem parseJSONFromText_total :
  forall (text expected : value),
    exists v,
      parseJSONFromText text expected = Normal v
      /\ (v = VNull <->
          nonempty_string text = false
          \/ exists s, text = VStr s
               /\ ((failed (strict_parse s expected) /\ failed (retry_parse s expected))
                   \/ strict_parse s expected = Normal VNull
                   \/ (failed (strict_parse s expected) /\ retry_parse s expected = Normal VNull)))
      /\ (v <> VNull ->
          exists s, text = VStr s
            /\ (strict_parse s expected = Normal v
                \/ (failed (strict_parse s expected) /\ retry_parse s expected = Normal v))).
Proof.
  intros text expected.
  destruct (nonempty_string text) eqn:T.
  - destruct text as [| | | | [|c s] | |]; try discriminate T.
    rewrite parseJSONFromText_unfold by discriminate.
    destruct (strict_parse (c :: s) expected) as [p|e] eqn:S1.
    + exists p. split; [reflexivity|]. split.
      * split.
        -- intros ->. right. exists (c :: s). split; [reflexivity|]. right; left. exact S1.
        -- intros [H|(s' & E & [[[e H] _]|[H|[[e H] _]]])]; try discriminate H;
             injection E as <-; congruence.
      * intros _. exists (c :: s). split; [reflexivity|]. left. exact S1.
    + destruct (retry_parse (c :: s) expected) as [p|e'] eqn:S2.
      * exists p. split; [reflexivity|]. split.
        -- split.
           ++ intros ->. right. exists (c :: s). split; [reflexivity|].
              right; right. split; [exists e; exact S1|exact S2].
           ++ intros [H|(s' & E & [[_ [e2 H]]|[H|[_ H]]])]; try discriminate H;
                injection E as <-; congruence.
        -- intros _. exists (c :: s). split; [reflexivity|]. right.
           split; [exists e; exact S1|exact S2].
      * exists VNull. split; [reflexivity|]. split.
        -- split; [|reflexivity]. intros _. right. exists (c :: s). split; [reflexivity|].
           left. split; [exists e; exact S1|exists e'; exact S2].
        -- intros H. contradiction.
  - exists VNull. split; [apply parseJSONFromText_not_text; exact T|]. split.
    + split; [intros _; left; reflexivity|reflexivity].
    + intros H. contradiction.
Qed.

(* ================================================================== *)
(** ** Code fences *)

(** Once a match is under way, the scan passes its characters whatever
    they are. *)
Lemma replace_all_skip (m : str -> option (nat * str)) (a b : str) (j : nat) :
  Pattern.replace_all m (length a + j) (a ++ b) = Pattern.replace_all m j b.
Proof. induction a as [|c a IH]; simpl; [reflexivity|exact IH]. Qed.

Module FenceFacts.
Import Pattern.

(** A pattern that has no line feed does not start in [u] and end beyond a
    line feed that follows [u]. *)
Lemma prefix_before_lf (p u x : str) :
  p <> [] -> Forall (fun c => c <> Ch.LF) p ->
  prefix p (u ++ Ch.LF :: x) = prefix p u.
Proof.
  intros Hp Hlf. revert u. induction Hlf as [|c p Hc Hlf IH]; [contradiction|].
  intros [|d u]; simpl.
  - apply andb_false_iff. left. apply N.eqb_neq. exact Hc.
  - f_equal. destruct p as [|c' p]; [reflexivity|]. apply IH. discriminate.
Qed.

Lemma iprefix_before_lf (p u x : str) :
  p <> [] -> Forall (fun c => lower c <> Ch.LF) p ->
  iprefix p (u ++ Ch.LF :: x) = iprefix p u.
Proof.
  intros Hp Hlf. revert u. induction Hlf as [|c p Hc Hlf IH]; [contradiction|].
  intros [|d u]; simpl.
  - apply andb_false_iff. left. apply N.eqb_neq. exact Hc.
  - f_equal. destruct p as [|c' p]; [reflexivity|]. apply IH. discriminate.
Qed.

Lemma prefix_length (p u : str) : prefix p u = true -> length p <= length u.
Proof.
  revert u. induction p as [|c p IH]; intros [|d u] H; simpl in *; try lia; try discriminate.
  apply andb_true_iff in H as [_ H]. apply IH in H. lia.
Qed.

Lemma iprefix_length (p u : str) : iprefix p u = true -> length p <= length u.
Proof.
  revert u. induction p as [|c p IH]; intros [|d u] H; simpl in *; try lia; try discriminate.
  apply andb_true_iff in H as [_ H]. apply IH in H. lia.
Qed.

Lemma fence_lang_before_lf (u x : str) : fence_lang (u ++ Ch.LF :: x) = fence_lang u.
Proof.
  unfold fence_lang.
  rewrite !iprefix_before_lf; try discriminate; try reflexivity;
    repeat constructor; discriminate.
Qed.

Lemma fence_lang_length (u : str) : fence_lang u <= length u.
Proof.
  unfold fence_lang.
  destruct (iprefix $"json" u) eqn:E1; [apply iprefix_length in E1; exact E1|].
  destruct (iprefix $"js" u) eqn:E2; [apply iprefix_length in E2; exact E2|].
  destruct (iprefix $"javascript" u) eqn:E3; [apply iprefix_length in E3; exact E3|].
  lia.
Qed.

Lemma skipn_app_le {A : Type} (n : nat) (a b : list A) :
  n <= length a -> skipn n (a ++ b) = skipn n a ++ b.
Proof.
  intros H. rewrite skipn_app. replace (n - length a) with 0 by lia. reflexivity.
Qed.

(** The opening-fence pattern at the head of [u], with a line feed and more
    after [u]: the same match as in [u] alone, or, when the match in [u]
    runs to the end of [u], one character longer. *)
Lemma fence_open_before_lf (u x : str) :
  fence_open (u ++ Ch.LF :: x) = fence_open u
  \/ (fence_open u = Some (length u, [])
      /\ fence_open (u ++ Ch.LF :: x) = Some (S (length u), [])).
Proof.
  unfold fence_open.
  rewrite prefix_before_lf by (try discriminate; repeat constructor; discriminate).
  destruct (prefix ticks u) eqn:P; [|left; reflexivity].
  apply prefix_length in P. change (length ticks) with 3 in P.
  rewrite skipn_app_le by exact P.
  rewrite fence_lang_before_lf.
  pose proof (fence_lang_length (skipn 3 u)) as L.
  rewrite skipn_app_le by exact L.
  destruct (skipn (fence_lang (skipn 3 u)) (skipn 3 u)) as [|c r] eqn:E.
  - right. cbn [app]. rewrite N.eqb_refl.
    apply (f_equal (@length N)) in E. rewrite !length_skipn in E. cbn [length] in E.
    rewrite length_skipn in L.
    split; do 2 f_equal; lia.
  - left. reflexivity.
Qed.

Lemma fence_open_length (u : str) (n : nat) (r : str) :
  fence_open u = Some (n, r) -> n <= length u /\ r = [].
Proof.
  unfold fence_open. destruct (prefix ticks u) eqn:P; [|discriminate].
  apply prefix_length in P. change (length ticks) with 3 in P.
  assert (length (skipn 3 u) = length u - 3) as Lv by apply length_skipn.
  remember (skipn 3 u) as v eqn:Ev. clear Ev.
  pose proof (fence_lang_length v) as L.
  assert (length (skipn (fence_lang v) v) = length v - fence_lang v) as Lw by apply length_skipn.
  remember (skipn (fence_lang v) v) as w eqn:Ew. clear Ew.
  intros H. injection H as <- <-. split; [|reflexivity].
  destruct w as [|c w]; [lia|]. cbn [length] in Lw. destruct (c =? Ch.LF)%N; lia.
Qed.

(** Removing the opening fences of [t] followed by a closing fence on a line
    of its own: what removing them from [t] gives, and perhaps the line feed. *)
Lemma replace_fence_open_closing (t : str) :
  forall k, k <= length t ->
    exists tail, (tail = [] \/ tail = [Ch.LF])
      /\ replace_all fence_open k (t ++ Ch.LF :: ticks) = replace_all fence_open k t ++ tail.
Proof.
  induction t as [|c t IH]; intros k Hk.
  - assert (k = 0) as -> by (simpl in Hk; lia). exists [Ch.LF]. split; [right|]; reflexivity.
  - destruct k as [|k].
    + cbn [replace_all app].
      destruct (fence_open_before_lf (c :: t) ticks) as [E|[E1 E2]].
      * cbn [app] in E. rewrite E.
        destruct (fence_open (c :: t)) as [[[|j] r]|] eqn:M.
        -- destruct (IH 0 ltac:(lia)) as (tail & Ht & ->). exists tail. split; [exact Ht|reflexivity].
        -- apply fence_open_length in M as [Hj ->]. cbn [length] in Hj.
           destruct (IH j ltac:(lia)) as (tail & Ht & ->). exists tail. split; [exact Ht|reflexivity].
        -- destruct (IH 0 ltac:(lia)) as (tail & Ht & ->). exists tail. split; [exact Ht|reflexivity].
      * cbn [app] in E2. rewrite E1, E2. cbn [length app].
        exists []. split; [left; reflexivity|].
        replace (S (length t)) with (length t + 1) by lia.
        rewrite replace_all_skip.
        pose proof (replace_all_skip fence_open t [] 0) as R.
        rewrite Nat.add_0_r, app_nil_r in R. rewrite R. reflexivity.
    + cbn [replace_all app]. apply IH. simpl in Hk; lia.
Qed.

Lemma fence_before_lf (u x : str) : fence (u ++ Ch.LF :: x) = fence u.
Proof.
  unfold fence.
  rewrite prefix_before_lf by (try discriminate; repeat constructor; discriminate).
  reflexivity.
Qed.

Lemma fence_length (u : str) (n : nat) (r : str) :
  fence u = Some (n, r) -> n <= length u /\ r = [].
Proof.
  unfold fence. destruct (prefix ticks u) eqn:P; [|discriminate].
  apply prefix_length in P. intros H. injection H as <- <-. split; [exact P|reflexivity].
Qed.

Lemma replace_fence_lf (t : str) :
  forall k, k <= length t ->
    replace_all fence k (t ++ [Ch.LF]) = replace_all fence k t ++ [Ch.LF].
Proof.
  induction t as [|c t IH]; intros k Hk.
  - assert (k = 0) as -> by (simpl in Hk; lia). reflexivity.
  - destruct k as [|k].
    + cbn [replace_all app].
      pose proof (fence_before_lf (c :: t) []) as E. cbn [app] in E. rewrite E.
      destruct (fence (c :: t)) as [[[|j] r]|] eqn:M.
      * rewrite IH by lia. reflexivity.
      * apply fence_length in M as [Hj ->]. cbn [length] in Hj. cbn [app]. apply IH. lia.
      * rewrite IH by lia. reflexivity.
    + cbn [replace_all app]. apply IH. simpl in Hk; lia.
Qed.

Lemma drop_spaces_lf (y : str) :
  drop_spaces (y ++ [Ch.LF]) = [] /\ drop_spaces y = []
  \/ drop_spaces (y ++ [Ch.LF]) = drop_spaces y ++ [Ch.LF] /\ drop_spaces y <> [].
Proof.
  induction y as [|c y IH]; [left; split; reflexivity|].
  cbn [app drop_spaces]. destruct (is_space c); [exact IH|].
  right. split; [reflexivity|discriminate].
Qed.

Lemma trim_lf (y : str) : trim (y ++ [Ch.LF]) = trim y.
Proof.
  unfold trim. destruct (drop_spaces_lf y) as [[-> ->]|[-> _]]; [reflexivity|].
  unfold trim_end. rewrite rev_app_distr. reflexivity.
Qed.

Lemma strip_fences_fenced (tag t : str) :
  tag = [] \/ tag = $"json" -> strip_fences (fenced tag t) = strip_fences t.
Proof.
  intros Htag. unfold strip_fences, replace.
  assert (replace_all fence_open 0 (fenced tag t)
          = replace_all fence_open 0 (t ++ Ch.LF :: ticks)) as ->
      by (destruct Htag as [-> | ->]; reflexivity).
  destruct (replace_fence_open_closing t 0 ltac:(lia)) as (tail & [-> | ->] & ->).
  - now rewrite app_nil_r.
  - rewrite replace_fence_lf by lia. apply trim_lf.
Qed.

End FenceFacts.

Theorem fenced_text_parses_alike :
  forall (t : str) (expected : value),
    parseJSONFromText (VStr (fenced [] t)) expected = parseJSONFromText (VStr t) expected
    /\ parseJSONFromText (VStr (fenced $"json" t)) expected = parseJSONFromText (VStr t) expected.
Proof.
  assert (forall tag t expected,
             tag = [] \/ tag = $"json" ->
             parseJSONFromText (VStr (fenced tag t)) expected
             = parseJSONFromText (VStr t) expected) as H.
  { intros tag t expected Htag.
    assert (exists d u, fenced tag t = d :: u) as (d & u & E)
        by (destruct Htag as [-> | ->]; eexists _, _; reflexivity).
    pose proof (FenceFacts.strip_fences_fenced tag t Htag) as S.
    rewrite E in *. unfold parseJSONFromText at 1.
    cbn [truthy is_string negb orb receiver bind]. rewrite S.
    destruct t as [|c t]; [|reflexivity].
    change (strip_fences []) with (@nil N).
    assert (candidate_of (expected_or_object expected) [] = []) as ->
        by (unfold candidate_of;
            destruct (is_tag "array" (expected_or_object expected));
            destruct (is_tag "object" (expected_or_object expected)); reflexivity).
    reflexivity. }
  intros t expected. split; apply H; [left|right]; reflexivity.
Qed.

(* ================================================================== *)
(** ** Bare keys and trailing commas *)

Module RepairFacts.
Import Pattern Json.

(** A pattern whose matches start with a character of [trig] leaves a text
    without such characters as it is. *)
Lemma replace_untriggered (m : str -> option (nat * str)) (trig : N -> bool) :
  (forall c b, trig c = false -> m (c :: b) = None) ->
  forall a b, forallb (fun c => negb (trig c)) a = true ->
    replace_all m 0 (a ++ b) = a ++ replace_all m 0 b.
Proof.
  intros Hm a b. induction a as [|c a IH]; intros Ha; [reflexivity|].
  cbn [forallb] in Ha. apply andb_true_iff in Ha as [Hc Ha].
  cbn [app replace_all]. rewrite Hm by (now apply negb_true_iff in Hc).
  f_equal. apply IH. exact Ha.
Qed.

Lemma replace_untouched (m : str -> option (nat * str)) (trig : N -> bool) (s : str) :
  (forall c b, trig c = false -> m (c :: b) = None) ->
  forallb (fun c => negb (trig c)) s = true -> replace m s = s.
Proof.
  intros Hm Hs. unfold replace.
  rewrite <- (app_nil_r s) at 1. rewrite (replace_untriggered m trig Hm) by exact Hs.
  apply app_nil_r.
Qed.

Lemma fence_open_trigger (c : N) (b : str) :
  (c =? Ch.BACKTICK)%N = false -> fence_open (c :: b) = None.
Proof.
  intros H. unfold fence_open, ticks. cbn [prefix].
  rewrite N.eqb_sym, H. reflexivity.
Qed.

Lemma fence_trigger (c : N) (b : str) :
  (c =? Ch.BACKTICK)%N = false -> fence (c :: b) = None.
Proof.
  intros H. unfold fence, ticks. cbn [prefix]. rewrite N.eqb_sym, H. reflexivity.
Qed.

Lemma newline_trigger (c : N) (b : str) :
  ((c =? Ch.LF) || (c =? Ch.CR))%N = false -> newline (c :: b) = None.
Proof.
  intros H. apply orb_false_iff in H as [H1 H2]. unfold newline. now rewrite H1, H2.
Qed.

Lemma trailing_comma_trigger (close c : N) (b : str) :
  (c =? Ch.COMMA)%N = false -> trailing_comma close (c :: b) = None.
Proof. intros H. unfold trailing_comma. now rewrite H. Qed.

Lemma single_quote_trigger (c : N) (b : str) :
  (c =? Ch.SQUOTE)%N = false -> single_quote (c :: b) = None.
Proof. intros H. unfold single_quote. now rewrite H. Qed.

Lemma in_skipn {A : Type} (x : A) (n : nat) (l : list A) : In x (skipn n l) -> In x l.
Proof.
  intros H. rewrite <- (firstn_skipn n l). apply in_or_app. right; exact H.
Qed.

(** The key pattern matches only where a colon follows. *)
Lemma bare_key_needs_colon (s : str) :
  forallb (fun c => negb (c =? Ch.COLON)%N) s = true -> bare_key s = None.
Proof.
  intros H. unfold bare_key. destruct s as [|c r]; [reflexivity|].
  destruct ((c =? Ch.LBRACE)%N || (c =? Ch.COMMA)%N || is_space c); [|reflexivity].
  destruct (word_run r) as [|w0 w]; [reflexivity|].
  destruct (skipn (count_spaces (skipn (length (w0 :: w)) r)) (skipn (length (w0 :: w)) r))
    as [|d t] eqn:E; [reflexivity|].
  destruct (d =? Ch.COLON)%N eqn:D; [|reflexivity].
  exfalso.
  assert (In d (c :: r)) as Hin.
  { right. apply (in_skipn d (length (w0 :: w))).
    apply (in_skipn d (count_spaces (skipn (length (w0 :: w)) r))).
    rewrite E. left; reflexivity. }
  rewrite forallb_forall in H. apply H in Hin. rewrite D in Hin. discriminate Hin.
Qed.

Lemma replace_bare_key_no_colon (s : str) :
  forallb (fun c => negb (c =? Ch.COLON)%N) s = true -> replace_all bare_key 0 s = s.
Proof.
  induction s as [|c s IH]; intros H; [reflexivity|].
  cbn [replace_all]. rewrite bare_key_needs_colon by exact H.
  f_equal. apply IH. cbn [forallb] in H. now apply andb_true_iff in H as [_ H].
Qed.

Lemma word_run_app (k : str) (d : N) (r : str) :
  forallb is_word k = true -> is_word d = false -> word_run (k ++ d :: r) = k.
Proof.
  intros Hk Hd. induction k as [|c k IH]; cbn [app word_run].
  - now rewrite Hd.
  - cbn [forallb] in Hk. apply andb_true_iff in Hk as [Hc Hk]. rewrite Hc. f_equal. now apply IH.
Qed.

Lemma skip_ws_head (c : N) (r : str) : is_ws c = false -> skip_ws (c :: r) = c :: r.
Proof. intros H. cbn [skip_ws]. now rewrite H. Qed.

Lemma string_body_literal (k r : str) :
  forallb literal k = true -> string_body (k ++ Ch.DQUOTE :: r) = Parsed k r.
Proof.
  intros Hk. induction k as [|c k IH]; [reflexivity|].
  cbn [forallb] in Hk. apply andb_true_iff in Hk as [Hc Hk].
  unfold literal in Hc. apply andb_true_iff in Hc as [Hc H3]. apply andb_true_iff in Hc as [H1 H2].
  apply negb_true_iff in H2, H3. apply N.leb_le in H1.
  cbn [app string_body]. rewrite H2, H3.
  assert ((c <? 32)%N = false) as -> by (apply N.ltb_ge; exact H1).
  rewrite IH by exact Hk. reflexivity.
Qed.

Ltac char_facts :=
  repeat match goal with
         | H : (_ && _) = true |- _ => apply andb_true_iff in H as [? ?]
         | H : (_ || _) = true |- _ => apply orb_true_iff in H as [?|?]
         | H : negb _ = true |- _ => apply negb_true_iff in H
         | H : (_ <=? _)%N = true |- _ => apply N.leb_le in H
         | H : (_ =? _)%N = true |- _ => apply N.eqb_eq in H
         | H : (_ =? _)%N = false |- _ => apply N.eqb_neq in H
         end.

Ltac char_goal :=
  repeat match goal with
         | |- (_ && _) = true => apply andb_true_iff; split
         | |- (_ || _) = false => apply orb_false_iff; split
         | |- (_ && _) = false => apply andb_false_iff
         | |- negb _ = true => apply negb_true_iff
         | |- (_ <=? _)%N = true => apply N.leb_le
         | |- (_ =? _)%N = false => apply N.eqb_neq
         | |- (_ <? _)%N = false => apply N.ltb_ge
         end.

(** Both sides as one right-nested concatenation. *)
Ltac same_text := repeat (progress (rewrite <- ?app_assoc; cbn [app])); reflexivity.

(** Decide the comparisons of known characters. *)
Ltac known_chars :=
  repeat match goal with
         | |- context [(?a =? ?b)%N] =>
             let r := eval vm_compute in (a =? b)%N in
             match r with
             | true => change (a =? b)%N with true
             | false => change (a =? b)%N with false
             end
         | |- context [skip_ws (?a :: ?r)] =>
             let w := eval vm_compute in (is_ws a) in
             match w with
             | false => change (skip_ws (a :: r)) with (a :: r)
             | true => change (skip_ws (a :: r)) with (skip_ws r)
             end
         end;
  cbn iota.

(** What a word character is not. *)
Lemma word_char (c : N) :
  is_word c = true ->
  (48 <= c <= 122)%N /\ c <> 58%N /\ c <> 91%N /\ c <> 92%N /\ c <> 93%N /\ c <> 96%N.
Proof.
  unfold is_word, is_digit, Ch.UNDERSCORE. intros H. char_facts; lia.
Qed.

Lemma plain_char (c : N) :
  plain c = true ->
  (32 <= c)%N /\ c <> 34%N /\ c <> 92%N /\ c <> 39%N /\ c <> 44%N /\ c <> 58%N /\ c <> 96%N.
Proof.
  unfold plain, Ch.DQUOTE, Ch.BACKSLASH, Ch.SQUOTE, Ch.COMMA, Ch.COLON, Ch.BACKTICK.
  intros H. char_facts. repeat split; assumption.
Qed.

(** At a brace followed by a word and a colon, the key pattern matches the
    three and puts the word in quotes. *)
Lemma bare_key_quotes (k rest : str) :
  k <> [] -> forallb is_word k = true ->
  bare_key (Ch.LBRACE :: k ++ Ch.COLON :: rest)
  = Some (S (length k + 0 + 1), Ch.LBRACE :: Ch.DQUOTE :: k ++ [Ch.DQUOTE; Ch.COLON]).
Proof.
  intros Hne Hk. unfold bare_key. known_chars. cbn [orb].
  rewrite word_run_app by (try assumption; reflexivity).
  assert (skipn (length k) (k ++ Ch.COLON :: rest) = Ch.COLON :: rest) as E
      by (rewrite skipn_app, Nat.sub_diag, skipn_all; reflexivity).
  destruct k as [|c k']; [contradiction|]. cbn iota. rewrite E.
  change (count_spaces (Ch.COLON :: rest)) with 0.
  cbn [skipn]. known_chars. reflexivity.
Qed.

(** A property of characters that the key's and the value's have holds of
    every character of the object literal, given that it holds of the
    punctuation. *)
Lemma forallb_bare_object (p : N -> bool) (k v : str) (more : str) :
  (forall c, is_word c = true -> p c = true) ->
  (forall c, plain c = true -> p c = true) ->
  forallb is_word k = true -> forallb plain v = true ->
  forallb p [Ch.LBRACE; Ch.COLON; Ch.SPACE; Ch.DQUOTE; Ch.RBRACE] = true ->
  forallb p more = true ->
  forallb p ([Ch.LBRACE] ++ k ++ [Ch.COLON; Ch.SPACE; Ch.DQUOTE] ++ v ++ Ch.DQUOTE :: more) = true.
Proof.
  intros Hw Hp Hk Hv Hpunct Hmore.
  cbn [forallb] in Hpunct. char_facts.
  rewrite !forallb_app. cbn [forallb].
  assert (forallb p k = true) as ->
      by (rewrite forallb_forall in *; intros c Hc; apply Hw, Hk, Hc).
  assert (forallb p v = true) as ->
      by (rewrite forallb_forall in *; intros c Hc; apply Hp, Hv, Hc).
  repeat match goal with H : p _ = true |- _ => rewrite H; clear H end.
  rewrite Hmore. reflexivity.
Qed.


Section BareObject.

Variables k v : str.
Hypothesis key_nonempty : k <> [].
Hypothesis key_word : forallb is_word k = true.
Hypothesis value_plain : forallb plain v = true.

Let every (p : N -> bool) (more : str) :=
  forallb_bare_object p k v more.

Lemma bare_object_last :
  bare_object k v
  = Ch.LBRACE :: (k ++ [Ch.COLON; Ch.SPACE; Ch.DQUOTE] ++ v ++ [Ch.DQUOTE; Ch.COMMA]) ++ [Ch.RBRACE].
Proof. unfold bare_object. same_text. Qed.

Lemma strip_fences_bare_object : strip_fences (bare_object k v) = bare_object k v.
Proof.
  assert (forallb (fun c => negb (c =? Ch.BACKTICK)%N) (bare_object k v) = true) as Hticks.
  { apply every; try assumption; try reflexivity.
    - intros c Hc. apply word_char in Hc. char_goal. unfold Ch.BACKTICK. lia.
    - intros c Hc. apply plain_char in Hc. char_goal. unfold Ch.BACKTICK. lia. }
  unfold strip_fences.
  rewrite (replace_untouched fence_open _ (bare_object k v) fence_open_trigger Hticks).
  rewrite (replace_untouched fence _ (bare_object k v) fence_trigger Hticks).
  rewrite bare_object_last. unfold trim.
  change (drop_spaces (Ch.LBRACE :: ?x)) with (Ch.LBRACE :: x).
  unfold trim_end. rewrite app_comm_cons, rev_app_distr.
  cbn [rev app]. change (drop_spaces (Ch.RBRACE :: ?x)) with (Ch.RBRACE :: x).
  cbn [rev]. rewrite rev_app_distr, rev_involutive. reflexivity.
Qed.

Lemma candidate_of_bare_object (expected : value) :
  expected = VUndefined \/ expected = text "object" ->
  candidate_of (expected_or_object expected) (bare_object k v) = bare_object k v.
Proof.
  intros He.
  assert (bracket_span Ch.LBRACE Ch.RBRACE (bare_object k v) = Some (bare_object k v)) as Hspan.
  { rewrite bare_object_last. unfold bracket_span.
    change (from_first Ch.LBRACE (Ch.LBRACE :: ?x)) with (Some (Ch.LBRACE :: x)).
    unfold through_last. rewrite rev_app_distr. cbn [rev app].
    change (from_first Ch.RBRACE (Ch.RBRACE :: ?x)) with (Some (Ch.RBRACE :: x)).
    cbn [option_map rev]. now rewrite rev_involutive. }
  unfold candidate_of. rewrite Hspan.
  destruct He as [-> | ->]; reflexivity.
Qed.


(** The strict parse stops at the bare key. *)
Lemma JSON_parse_bare_object : JSON_parse (bare_object k v) = Throw unexpected_token.
Proof.
  destruct k as [|c k'] eqn:Ek; [contradiction|].
  cbn [forallb] in key_word. apply andb_true_iff in key_word as [Hc _].
  apply word_char in Hc as (Hc1 & Hc2).
  assert (is_ws c = false) as Hws by (unfold is_ws, Ch.TAB, Ch.LF, Ch.CR, Ch.SPACE; char_goal; lia).
  assert ((c =? Ch.RBRACE)%N = false) as Hrb by (unfold Ch.RBRACE; char_goal; lia).
  assert ((c =? Ch.DQUOTE)%N = false) as Hdq by (unfold Ch.DQUOTE; char_goal; lia).
  unfold JSON_parse, bare_object.
  cbn [app length Nat.mul Nat.add parse_value]. known_chars.
  rewrite (skip_ws_head c _ Hws), Hrb.
  cbn [parse_members]. rewrite (skip_ws_head c _ Hws), Hdq. reflexivity.
Qed.

Lemma repair_bare_object : repair (bare_object k v) = intended_object k v.
Proof.
  unfold repair.
  (* no line break in the text *)
  rewrite (replace_untouched newline (fun c => (c =? Ch.LF) || (c =? Ch.CR))%N
             (bare_object k v) newline_trigger).
  2:{ apply every; try assumption; try reflexivity.
      - intros c Hc. apply word_char in Hc. unfold Ch.LF, Ch.CR. char_goal; lia.
      - intros c Hc. apply plain_char in Hc. unfold Ch.LF, Ch.CR. char_goal; lia. }
  (* the only comma is the trailing one *)
  assert (replace (trailing_comma Ch.RBRACE) (bare_object k v)
          = [Ch.LBRACE] ++ k ++ [Ch.COLON; Ch.SPACE; Ch.DQUOTE] ++ v ++ [Ch.DQUOTE; Ch.RBRACE])
    as ->.
  { unfold replace, bare_object.
    replace ([Ch.LBRACE] ++ k ++ [Ch.COLON; Ch.SPACE; Ch.DQUOTE] ++ v
             ++ [Ch.DQUOTE; Ch.COMMA; Ch.RBRACE])
      with (([Ch.LBRACE] ++ k ++ [Ch.COLON; Ch.SPACE; Ch.DQUOTE] ++ v ++ [Ch.DQUOTE])
            ++ [Ch.COMMA; Ch.RBRACE])
      by same_text.
    rewrite (replace_untriggered (trailing_comma Ch.RBRACE) (fun c => c =? Ch.COMMA)%N
               (trailing_comma_trigger Ch.RBRACE)).
    - cbn [replace_all]. known_chars. same_text.
    - apply every; try assumption; try reflexivity.
      + intros c Hc. apply word_char in Hc. unfold Ch.COMMA. char_goal; lia.
      + intros c Hc. apply plain_char in Hc. unfold Ch.COMMA. char_goal; lia. }
  assert (forall p : N -> bool,
             (forall c, is_word c = true -> p c = true) ->
             (forall c, plain c = true -> p c = true) ->
             forallb p [Ch.LBRACE; Ch.COLON; Ch.SPACE; Ch.DQUOTE; Ch.RBRACE] = true ->
             forallb p ([Ch.LBRACE] ++ k ++ [Ch.COLON; Ch.SPACE; Ch.DQUOTE] ++ v
                        ++ [Ch.DQUOTE; Ch.RBRACE]) = true) as every'.
  { intros p Hw Hp Hpunct. apply every; try assumption.
    cbn [forallb] in *. char_facts. rewrite andb_true_r. assumption. }
  rewrite (replace_untouched (trailing_comma Ch.RBRACKET) (fun c => c =? Ch.COMMA)%N
             _ (trailing_comma_trigger Ch.RBRACKET)).
  2:{ apply every'; try reflexivity.
      - intros c Hc. apply word_char in Hc. unfold Ch.COMMA. char_goal; lia.
      - intros c Hc. apply plain_char in Hc. unfold Ch.COMMA. char_goal; lia. }
  rewrite (replace_untouched single_quote (fun c => c =? Ch.SQUOTE)%N _ single_quote_trigger).
  2:{ apply every'; try reflexivity.
      - intros c Hc. apply word_char in Hc. unfold Ch.SQUOTE. char_goal; lia.
      - intros c Hc. apply plain_char in Hc. unfold Ch.SQUOTE. char_goal; lia. }
  (* the key is quoted; nothing after its colon has a colon *)
  unfold replace. cbn [app replace_all].
  rewrite (bare_key_quotes k _ key_nonempty key_word).
  replace (length k + 0 + 1) with (length (k ++ [Ch.COLON]) + 0)
    by (rewrite length_app; cbn [length]; lia).
  replace (k ++ Ch.COLON :: Ch.SPACE :: Ch.DQUOTE :: v ++ [Ch.DQUOTE; Ch.RBRACE])
    with ((k ++ [Ch.COLON]) ++ Ch.SPACE :: Ch.DQUOTE :: v ++ [Ch.DQUOTE; Ch.RBRACE])
    by same_text.
  rewrite replace_all_skip.
  rewrite replace_bare_key_no_colon.
  - unfold intended_object. same_text.
  - cbn [forallb]. rewrite forallb_app. cbn [forallb].
    replace (forallb (fun c => negb (c =? Ch.COLON)%N) v) with true; [reflexivity|].
    symmetry. rewrite forallb_forall in *. intros c Hc. apply value_plain in Hc.
    apply plain_char in Hc. unfold Ch.COLON. char_goal; lia.
Qed.

Lemma literal_key : forallb literal k = true.
Proof.
  rewrite forallb_forall in *. intros c Hc. apply key_word in Hc. apply word_char in Hc.
  unfold literal, Ch.DQUOTE, Ch.BACKSLASH. char_goal; lia.
Qed.

Lemma literal_value : forallb literal v = true.
Proof.
  rewrite forallb_forall in *. intros c Hc. apply value_plain in Hc. apply plain_char in Hc.
  unfold literal, Ch.DQUOTE, Ch.BACKSLASH. char_goal; lia.
Qed.

(** The text the object is meant to be is JSON for the object. *)
Lemma JSON_parse_intended_object :
  JSON_parse (intended_object k v) = Normal (VObj [(k, VStr v)]).
Proof.
  unfold JSON_parse, intended_object.
  cbn [app length Nat.mul Nat.add parse_value]. known_chars.
  cbn [parse_members]. known_chars.
  rewrite (string_body_literal k _ literal_key). known_chars.
  cbn [parse_value]. known_chars.
  rewrite (string_body_literal v _ literal_value). cbn [pmap]. known_chars.
  cbn [obj_set]. change (skip_ws []) with (@nil N). reflexivity.
Qed.

End BareObject.

End RepairFacts.

(** The object literal of the specification's example. *)
Example bare_object_name_x :
  bare_object $"name" $"x" = $"{name: " ++ [Ch.DQUOTE] ++ $"x" ++ [Ch.DQUOTE] ++ $",}".
Proof. reflexivity. Qed.

(** C5, as stated, fails: the value "a b: c" is a valid JSON string and the
    object literal differs from valid JSON by its bare key and its trailing
    comma only, yet the key pattern also rewrites the "b:" inside the
    value, and the extractor returns null. *)
Lemma colon_in_value_is_not_recovered :
  Json.JSON_parse (intended_object $"name" $"a b: c")
  = Normal (object [("name", text "a b: c")])
  /\ parseJSONFromText (VStr (bare_object $"name" $"a b: c")) VUndefined = Normal VNull
  /\ parseJSONFromText (VStr (bare_object $"name" $"a b: c")) VUndefined
     <> Json.JSON_parse (intended_object $"name" $"a b: c").
Proof.
  split; [reflexivity|]. split; [reflexivity|]. intros H. vm_compute in H. discriminate H.
Qed.

(** The family of the specification's example, with the object spelled
    out.  An object literal with one bare key of word characters, a string
    value whose characters are plain (no quote, apostrophe, backslash,
    comma, colon, backtick or control character) and a trailing comma
    parses, with the default or the "object" shape tag, to the object the
    same text with the key quoted and the comma dropped denotes; the
    specification's example is the instance with key "name" and value "x". *)
Lemma bare_key_object_recovered :
  forall (k v : str) (expected : value),
    k <> [] -> forallb is_word k = true -> forallb plain v = true ->
    expected = VUndefined \/ expected = text "object" ->
    parseJSONFromText (VStr (bare_object k v)) expected = Normal (VObj [(k, VStr v)])
    /\ Json.JSON_parse (intended_object k v) = Normal (VObj [(k, VStr v)]).
Proof.
  intros k v expected Hne Hk Hv He.
  pose proof (RepairFacts.JSON_parse_intended_object k v Hk Hv) as Hparse.
  split; [|exact Hparse].
  unfold parseJSONFromText.
  change (bare_object k v) with (Ch.LBRACE :: (k ++ [Ch.COLON; Ch.SPACE; Ch.DQUOTE] ++ v
                                              ++ [Ch.DQUOTE; Ch.COMMA; Ch.RBRACE])) at 1 2 3.
  cbn [truthy is_string negb orb receiver bind].
  change (Ch.LBRACE :: (k ++ [Ch.COLON; Ch.SPACE; Ch.DQUOTE] ++ v
                        ++ [Ch.DQUOTE; Ch.COMMA; Ch.RBRACE])) with (bare_object k v).
  rewrite (RepairFacts.strip_fences_bare_object k v Hk Hv).
  rewrite (RepairFacts.candidate_of_bare_object k v expected He).
  rewrite (RepairFacts.JSON_parse_bare_object k v Hne Hk). cbn [try_catch].
  rewrite (RepairFacts.repair_bare_object k v Hne Hk Hv), Hparse. reflexivity.
Qed.

Lemma bare_key_object_recovered_witness :
  parseJSONFromText (VStr (bare_object $"name" $"x")) VUndefined
  = Normal (VObj [($"name", VStr $"x")])
  /\ Json.JSON_parse (intended_object $"name" $"x") = Normal (VObj [($"name", VStr $"x")]).
Proof.
  apply (bare_key_object_recovered $"name" $"x" VUndefined);
    [discriminate | reflexivity | reflexivity | left; reflexivity].
Defined.

(* ================================================================== *)
(** ** The gap analyzer *)

Module GapFacts.

Import GapAnalyzer.

Lemma map_get_set_same (m : list (str * Z)) (k : str) (v : Z) :
  map_get (map_set m k v) k = Some v.
Proof.
  induction m as [|[k' v'] m IH]; cbn [map_set map_get].
  - now rewrite str_eqb_refl.
  - destruct (str_eqb k' k) eqn:E; cbn [map_get]; rewrite E; [reflexivity|exact IH].
Qed.

Lemma map_get_set_other (m : list (str * Z)) (k k' : str) (v : Z) :
  k' <> k -> map_get (map_set m k v) k' = map_get m k'.
Proof.
  intros Hk. induction m as [|[k0 v0] m IH]; cbn [map_set map_get].
  - rewrite str_eqb_neq by congruence. reflexivity.
  - destruct (str_eqb k0 k) eqn:E; cbn [map_get].
    + apply str_eqb_eq in E. subst k0. rewrite str_eqb_neq by congruence. reflexivity.
    + destruct (str_eqb k0 k'); [reflexivity|exact IH].
Qed.

Lemma includes_in (gaps : list str) (c : str) : includes gaps c = true <-> In c gaps.
Proof.
  unfold includes. rewrite existsb_exists. split.
  - intros (g & Hg & E). apply str_eqb_eq in E. now subst.
  - intros H. exists c. split; [exact H|apply str_eqb_refl].
Qed.

Lemma in_without (gaps : list str) (c c' : str) :
  In c' (filter (fun g => negb (str_eqb g c)) gaps) <-> In c' gaps /\ c' <> c.
Proof.
  rewrite filter_In. split; intros [H1 H2]; split; try exact H1.
  - intros ->. now rewrite str_eqb_refl in H2.
  - now rewrite str_eqb_neq.
Qed.

Lemma assess_unfold (this : t) (c : str) (b : bool) :
  assessConcept this c b
  = let understanding := map_set (studentUnderstanding this) c (new_value this c b) in
    if (new_value this c b <? 50)%Z then
      {| studentUnderstanding := understanding;
         identifiedGaps :=
           if includes (identifiedGaps this) c then identifiedGaps this
           else identifiedGaps this ++ [c] |}
    else
      {| studentUnderstanding := understanding;
         identifiedGaps := filter (fun g => negb (str_eqb g c)) (identifiedGaps this) |}.
Proof.
  unfold assessConcept, new_value.
  destruct (map_get (studentUnderstanding this) c) as [v|]; [|reflexivity].
  destruct (Z.eqb_spec v 0) as [->|_]; reflexivity.
Qed.

Lemma assess_score (this : t) (c : str) (b : bool) :
  map_get (studentUnderstanding (assessConcept this c b)) c = Some (new_value this c b).
Proof.
  rewrite assess_unfold. cbv zeta.
  destruct (new_value this c b <? 50)%Z; cbn [studentUnderstanding]; apply map_get_set_same.
Qed.

Lemma assess_other_score (this : t) (c c' : str) (b : bool) :
  c' <> c ->
  map_get (studentUnderstanding (assessConcept this c b)) c'
  = map_get (studentUnderstanding this) c'.
Proof.
  intros H. rewrite assess_unfold. cbv zeta.
  destruct (new_value this c b <? 50)%Z; cbn [studentUnderstanding];
    now apply map_get_set_other.
Qed.

Lemma assess_gaps (this : t) (c c' : str) (b : bool) :
  In c' (identifiedGaps (assessConcept this c b))
  <-> (c' = c /\ (new_value this c b < 50)%Z) \/ (c' <> c /\ In c' (identifiedGaps this)).
Proof.
  rewrite assess_unfold. cbv zeta.
  destruct (Z.ltb_spec (new_value this c b) 50) as [L|L]; cbn [identifiedGaps].
  - destruct (includes (identifiedGaps this) c) eqn:I.
    + apply includes_in in I. split.
      * intros H. destruct (list_eq_dec N.eq_dec c' c) as [->|n]; [left|right]; tauto.
      * intros [[-> _]|[_ H]]; assumption.
    + rewrite in_app_iff. cbn [In]. split.
      * intros [H|[<-|[]]].
        -- right. split; [|exact H]. intros ->. apply includes_in in H. congruence.
        -- left. tauto.
      * intros [[-> _]|[_ H]]; tauto.
  - rewrite in_without. split.
    + intros [H1 H2]. right. tauto.
    + intros [[_ H]|[H1 H2]]; [lia|tauto].
Qed.

Lemma assess_nodup (this : t) (c : str) (b : bool) :
  NoDup (identifiedGaps this) -> NoDup (identifiedGaps (assessConcept this c b)).
Proof.
  intros H. rewrite assess_unfold. cbv zeta.
  destruct (new_value this c b <? 50)%Z; cbn [identifiedGaps].
  - destruct (includes (identifiedGaps this) c) eqn:I; [exact H|].
    apply NoDup_app; [exact H|repeat constructor; intros []|].
    intros x Hx [<-|[]]. apply includes_in in Hx. congruence.
  - now apply NoDup_filter.
Qed.

Lemma create_consistent : consistent create.
Proof.
  split; [|split].
  - intros c v H. discriminate.
  - constructor.
  - intros c. split; [intros []|intros (v & H & _); discriminate].
Qed.

Lemma assess_consistent (this : t) (c : str) (b : bool) :
  consistent this -> consistent (assessConcept this c b).
Proof.
  intros (Hb & Hn & Hg). split; [|split].
  - intros c' v. destruct (list_eq_dec N.eq_dec c' c) as [->|n].
    + rewrite assess_score. intros [= <-]. unfold new_value.
      destruct (map_get (studentUnderstanding this) c) as [v0|] eqn:E.
      * specialize (Hb c v0 E). destruct b; lia.
      * destruct b; lia.
    + rewrite assess_other_score by exact n. apply Hb.
  - now apply assess_nodup.
  - intros c'. rewrite assess_gaps. destruct (list_eq_dec N.eq_dec c' c) as [->|n].
    + rewrite assess_score. split.
      * intros [[_ H]|[H _]]; [eauto|congruence].
      * intros (v & [= <-] & H). left. tauto.
    + rewrite assess_other_score by exact n. rewrite <- Hg. split.
      * intros [[H _]|[_ H]]; [congruence|exact H].
      * intros H. right. tauto.
Qed.

Lemma fold_consistent (answers : list (str * bool)) :
  forall this, consistent this ->
    consistent (fold_left (fun this a => assessConcept this (fst a) (snd a)) answers this).
Proof.
  induction answers as [|a answers IH]; intros this H; cbn [fold_left]; [exact H|].
  apply IH. now apply assess_consistent.
Qed.

(** X13.  Whatever answers a new analyzer is given, every score it holds
    stays between 0 and 100. *)
Theorem understanding_stays_in_range (answers : list (str * bool)) (c : str) (v : Z) :
  map_get (studentUnderstanding (after answers)) c = Some v -> (0 <= v <= 100)%Z.
Proof.
  destruct (fold_consistent answers create create_consistent) as (Hb & _).
  apply Hb.
Qed.

Lemma understanding_stays_in_range_witness :
  map_get (studentUnderstanding (after [($"loops", true); ($"loops", false)])) $"loops"
  = Some 10%Z
  /\ (0 <= 10 <= 100)%Z.
Proof.
  split; [reflexivity|].
  apply (understanding_stays_in_range [($"loops", true); ($"loops", false)] $"loops" 10%Z).
  reflexivity.
Defined.

(** X14.  Whatever answers a new analyzer is given, its list of gaps names
    no concept twice, and names exactly the assessed concepts whose score is
    below 50. *)
Theorem gaps_are_the_low_scores (answers : list (str * bool)) :
  NoDup (identifiedGaps (after answers))
  /\ forall c, In c (identifiedGaps (after answers))
               <-> exists v, map_get (studentUnderstanding (after answers)) c = Some v
                             /\ (v < 50)%Z.
Proof.
  destruct (fold_consistent answers create create_consistent) as (_ & Hn & Hg).
  split; assumption.
Qed.

(** X15.  Assessing one concept leaves every other concept as it was: its
    score, and whether it is listed as a gap. *)
Theorem assessment_is_local (this : t) (c c' : str) (b : bool) :
  c' <> c ->
  map_get (studentUnderstanding (assessConcept this c b)) c'
  = map_get (studentUnderstanding this) c'
  /\ (In c' (identifiedGaps (assessConcept this c b)) <-> In c' (identifiedGaps this)).
Proof.
  intros H. split; [now apply assess_other_score|].
  rewrite assess_gaps. split.
  - intros [[E _]|[_ G]]; [contradiction|exact G].
  - intros G. right. tauto.
Qed.

Lemma assessment_is_local_witness :
  $"sets" <> $"loops"
  /\ map_get (studentUnderstanding (assessConcept (after [($"sets", true)]) $"loops" false))
       $"sets"
     = map_get (studentUnderstanding (after [($"sets", true)])) $"sets"
  /\ (In $"sets" (identifiedGaps (assessConcept (after [($"sets", true)]) $"loops" false))
      <-> In $"sets" (identifiedGaps (after [($"sets", true)]))).
Proof.
  split; [discriminate|].
  apply (assessment_is_local (after [($"sets", true)]) $"loops" $"sets" false).
  discriminate.
Defined.

(** X16.  The first answer given for a concept makes it a gap, right or
    wrong: a correct one scores 25, below the 50 that clears a gap.  From
    there a concept leaves the list only with a later correct answer. *)
Theorem first_answer_opens_a_gap (this : t) (c : str) (b : bool) :
  map_get (studentUnderstanding this) c = None ->
  map_get (studentUnderstanding (assessConcept this c b)) c = Some (if b then 25 else 0)%Z
  /\ In c (identifiedGaps (assessConcept this c b)).
Proof.
  intros H. rewrite assess_score, assess_gaps. unfold new_value. rewrite H.
  destruct b; (split; [reflexivity|left; split; [reflexivity|reflexivity]]).
Qed.

Lemma first_answer_opens_a_gap_witness :
  map_get (studentUnderstanding create) $"loops" = None
  /\ map_get (studentUnderstanding (assessConcept create $"loops" true)) $"loops" = Some 25%Z
  /\ In $"loops" (identifiedGaps (assessConcept create $"loops" true)).
Proof.
  split; [reflexivity|].
  apply (first_answer_opens_a_gap create $"loops" true). reflexivity.
Defined.

End GapFacts.

(* ================================================================== *)
(** ** The extractor: fences and prose *)

Module ExtractFacts.

Import Pattern.

Lemma prefix_ticks_backticks (s : str) : prefix ticks s = (3 <=? backticks s)%nat.
Proof.
  unfold ticks.
  destruct s as [|a [|b [|c s]]]; cbn [prefix backticks];
    rewrite ?(N.eqb_sym Ch.BACKTICK);
    repeat match goal with |- context [(?x =? Ch.BACKTICK)%N] =>
             destruct (x =? Ch.BACKTICK)%N; cbn [andb backticks] end;
    reflexivity.
Qed.

Lemma replace_fence_cons (c : N) (s : str) :
  replace_all fence 0 (c :: s)
  = if prefix ticks (c :: s) then replace_all fence 2 s else c :: replace_all fence 0 s.
Proof.
  cbn [replace_all]. unfold fence. destruct (prefix ticks (c :: s)); reflexivity.
Qed.

Lemma replace_fence_run (n : nat) :
  forall s, length s <= n ->
    has_fence (replace fence s) = false
    /\ backticks (replace fence s) = backticks s mod 3.
Proof.
  unfold replace.
  induction n as [|n IH]; intros s Hn.
  - destruct s; [split; reflexivity|simpl in Hn; lia].
  - destruct s as [|c s]; [split; reflexivity|].
    rewrite replace_fence_cons, prefix_ticks_backticks.
    destruct (Nat.leb_spec 3 (backticks (c :: s))) as [L|L].
    + (* a fence starts here *)
      destruct s as [|b [|a s]]; cbn [backticks] in L;
        repeat match type of L with context [(?x =? Ch.BACKTICK)%N] =>
                 destruct (x =? Ch.BACKTICK)%N eqn:?; cbn [backticks] in L end;
        try lia.
      cbn [replace_all].
      destruct (IH s ltac:(simpl in Hn; lia)) as [F B].
      split; [exact F|].
      rewrite B. cbn [backticks].
      repeat match goal with H : (_ =? Ch.BACKTICK)%N = true |- _ => rewrite H; clear H end.
      change (S (S (S (backticks s)))) with (3 + backticks s).
      rewrite Nat.Div0.add_mod, Nat.Div0.mod_same, Nat.add_0_l, Nat.Div0.mod_mod.
      reflexivity.
    + destruct (IH s ltac:(simpl in Hn; lia)) as [F B].
      cbn [has_fence]. rewrite F, orb_false_r, prefix_ticks_backticks.
      cbn [backticks] in *. rewrite B.
      destruct (c =? Ch.BACKTICK)%N.
      * assert (backticks s mod 3 = backticks s) as E by (apply Nat.mod_small; lia).
        rewrite E. split.
        -- apply Nat.leb_gt. lia.
        -- symmetry. apply Nat.mod_small. lia.
      * split; reflexivity.
Qed.

Lemma has_fence_suffix (a b : str) : has_fence (a ++ b) = false -> has_fence b = false.
Proof.
  induction a as [|c a IH]; cbn [app has_fence]; [auto|].
  intros H. apply orb_false_iff in H. tauto.
Qed.

Lemma prefix_app (p a b : str) : prefix p a = true -> prefix p (a ++ b) = true.
Proof.
  revert a. induction p as [|x p IH]; intros [|y a]; cbn [prefix app]; try discriminate; auto.
  intros H. apply andb_true_iff in H as [H1 H2]. rewrite H1. cbn [andb]. auto.
Qed.

Lemma has_fence_prefix (a b : str) : has_fence (a ++ b) = false -> has_fence a = false.
Proof.
  induction a as [|c a IH]; cbn [app has_fence]; [reflexivity|].
  change (c :: a ++ b) with ((c :: a) ++ b).
  intros H. apply orb_false_iff in H as [H1 H2].
  rewrite (IH H2), orb_false_r.
  destruct (prefix ticks (c :: a)) eqn:P; [|reflexivity].
  now rewrite (prefix_app _ _ b P) in H1.
Qed.

Lemma drop_spaces_suffix (s : str) : exists a, s = a ++ drop_spaces s.
Proof.
  induction s as [|c s [a IH]]; [now exists []|].
  cbn [drop_spaces]. destruct (is_space c).
  - exists (c :: a). cbn [app]. now rewrite <- IH.
  - now exists [].
Qed.

Lemma trim_end_prefix (s : str) : exists b, s = trim_end s ++ b.
Proof.
  unfold trim_end. destruct (drop_spaces_suffix (rev s)) as [a E].
  exists (rev a). rewrite <- rev_app_distr, <- E. now rewrite rev_involutive.
Qed.

Lemma trim_inside (s : str) : exists a b, s = a ++ trim s ++ b.
Proof.
  unfold trim. destruct (drop_spaces_suffix s) as [a E].
  destruct (trim_end_prefix (drop_spaces s)) as [b E'].
  exists a, b. now rewrite <- E', <- E.
Qed.

(** X5.  What the extractor parses never holds a code fence: after the two
    replacements no three backticks in a row are left, wherever the fences
    stood in the text and however many there were. *)
Theorem stripped_text_has_no_fence (text : str) : has_fence (strip_fences text) = false.
Proof.
  unfold strip_fences.
  destruct (replace_fence_run (length (replace fence_open text)) (replace fence_open text)
              (Nat.le_refl _)) as [F _].
  destruct (trim_inside (replace fence (replace fence_open text))) as (a & b & E).
  rewrite E in F. apply has_fence_suffix in F. now apply has_fence_prefix in F.
Qed.

Lemma drop_spaces_before (pre : str) (c : N) (rest : str) :
  is_space c = false -> drop_spaces (pre ++ c :: rest) = drop_spaces pre ++ c :: rest.
Proof.
  intros H. induction pre as [|x pre IH]; cbn [app drop_spaces].
  - now rewrite H.
  - destruct (is_space x); [exact IH|reflexivity].
Qed.

Lemma trim_end_after (a : str) (c : N) (tail : str) :
  is_space c = false -> trim_end (a ++ c :: tail) = a ++ c :: trim_end tail.
Proof.
  intros H. unfold trim_end.
  rewrite rev_app_distr. cbn [rev]. rewrite <- app_assoc. cbn [app].
  rewrite drop_spaces_before by exact H.
  rewrite rev_app_distr. cbn [rev]. rewrite rev_involutive, <- app_assoc. reflexivity.
Qed.

Lemma free_of_app (c : N) (a b : str) :
  free_of c (a ++ b) = free_of c a && free_of c b.
Proof. apply forallb_app. Qed.

Lemma free_of_drop_spaces (c : N) (s : str) :
  free_of c s = true -> free_of c (drop_spaces s) = true.
Proof.
  destruct (drop_spaces_suffix s) as [a E]. intros H. rewrite E, free_of_app in H.
  apply andb_true_iff in H. tauto.
Qed.

Lemma free_of_trim_end (c : N) (s : str) :
  free_of c s = true -> free_of c (trim_end s) = true.
Proof.
  destruct (trim_end_prefix s) as [b E]. intros H. rewrite E, free_of_app in H.
  apply andb_true_iff in H. tauto.
Qed.

Lemma free_of_skipn (c : N) (k : nat) (s : str) :
  free_of c s = true -> free_of c (skipn k s) = true.
Proof.
  intros H. rewrite <- (firstn_skipn k s), free_of_app in H.
  apply andb_true_iff in H. tauto.
Qed.

Lemma free_of_rev (c : N) (s : str) : free_of c (rev s) = free_of c s.
Proof.
  unfold free_of. induction s as [|x s IH]; [reflexivity|].
  cbn [rev forallb]. rewrite forallb_app, IH. cbn [forallb].
  rewrite andb_true_r. apply andb_comm.
Qed.

Lemma from_first_free (c : N) (pre rest : str) :
  free_of c pre = true -> from_first c (pre ++ c :: rest) = Some (c :: rest).
Proof.
  induction pre as [|x pre IH]; cbn [app from_first free_of forallb].
  - now rewrite N.eqb_refl.
  - intros H. apply andb_true_iff in H as [H1 H2].
    apply negb_true_iff in H1. rewrite H1. exact (IH H2).
Qed.

Lemma through_last_free (c : N) (mid tail : str) :
  free_of c tail = true -> through_last c (mid ++ c :: tail) = Some (mid ++ [c]).
Proof.
  intros H. unfold through_last.
  rewrite rev_app_distr. cbn [rev]. rewrite <- app_assoc. cbn [app].
  rewrite from_first_free.
  - cbn [option_map rev]. now rewrite rev_involutive.
  - rewrite free_of_rev. exact H.
Qed.

Lemma bracket_span_free (o c : N) (pre mid tail : str) :
  free_of o pre = true -> free_of c tail = true ->
  bracket_span o c (pre ++ o :: mid ++ c :: tail) = Some (o :: mid ++ [c]).
Proof.
  intros H1 H2. unfold bracket_span.
  rewrite from_first_free by exact H1. rewrite through_last_free by exact H2. reflexivity.
Qed.

Lemma replace_without_backtick (m : str -> option (nat * str)) (s : str) :
  (forall c b, (c =? Ch.BACKTICK)%N = false -> m (c :: b) = None) ->
  free_of Ch.BACKTICK s = true -> replace m s = s.
Proof.
  intros Hm H. now apply (RepairFacts.replace_untouched m (fun c => (c =? Ch.BACKTICK)%N)).
Qed.

Lemma replace_all_skipped (m : str -> option (nat * str)) (k : nat) (s : str) :
  k <= length s -> replace_all m k s = replace_all m 0 (skipn k s).
Proof.
  intros H. rewrite <- (firstn_skipn k s) at 1.
  replace k with (length (firstn k s) + 0) at 1 by (rewrite length_firstn; lia).
  apply replace_all_skip.
Qed.

(** The text without its fences, when a JSON text stands in prose. *)
Lemma strip_fences_in_prose (pre core post : str) (tag : option str) :
  tag = None \/ tag = Some [] \/ tag = Some $"json" ->
  free_of Ch.BACKTICK pre = true -> free_of Ch.BACKTICK core = true ->
  free_of Ch.BACKTICK post = true ->
  exists lf k, (lf = [] \/ lf = [Ch.LF])
    /\ strip_fences (in_prose pre tag core post) = trim (pre ++ core ++ lf ++ skipn k post).
Proof.
  intros Htag Hpre Hcore Hpost. unfold strip_fences, in_prose.
  destruct Htag as [-> | Htag].
  - exists [], 0. split; [now left|]. cbn [app skipn].
    assert (free_of Ch.BACKTICK (pre ++ core ++ post) = true) as F
        by (rewrite !free_of_app, Hpre, Hcore, Hpost; reflexivity).
    rewrite (replace_without_backtick fence_open) by (auto using RepairFacts.fence_open_trigger).
    rewrite (replace_without_backtick fence) by (auto using RepairFacts.fence_trigger).
    reflexivity.
  - assert (exists j, j <= length post
                      /\ replace fence_open (pre ++ fenced
                            match tag with Some t => t | None => [] end core ++ post)
                        = pre ++ core ++ [Ch.LF] ++ skipn j post) as (j & Hj & E).
    { unfold replace.
      rewrite (RepairFacts.replace_untriggered fence_open (fun c => (c =? Ch.BACKTICK)%N))
        by (auto using RepairFacts.fence_open_trigger).
      assert (replace_all fence_open 0
                (fenced match tag with Some t => t | None => [] end core ++ post)
              = replace_all fence_open 0 (core ++ [Ch.LF] ++ ticks ++ post)) as ->.
      { destruct Htag as [-> | ->]; unfold fenced; rewrite <- !app_assoc; reflexivity. }
      rewrite app_assoc.
      rewrite (RepairFacts.replace_untriggered fence_open (fun c => (c =? Ch.BACKTICK)%N))
        by (auto using RepairFacts.fence_open_trigger;
            unfold free_of in Hcore; rewrite forallb_app, Hcore; reflexivity).
      destruct (fence_open (ticks ++ post)) as [[n r]|] eqn:F; [|discriminate].
      pose proof (FenceFacts.fence_open_length _ _ _ F) as [Ln ->].
      assert (3 <= n) as L3.
      { revert F. unfold fence_open. cbn [ticks app prefix]. rewrite !N.eqb_refl. cbn [andb].
        intros [= <-]. lia. }
      exists (n - 3). rewrite length_app in Ln. cbn [ticks length] in Ln.
      split; [lia|].
      rewrite <- app_assoc. f_equal. f_equal. cbn [app]. f_equal.
      cbn [ticks app replace_all]. cbn [ticks app] in F. rewrite F.
      destruct n as [|[|[|n]]]; try lia.
      cbn [app replace_all]. rewrite replace_all_skipped by (cbn [length] in *; lia).
      replace (S (S (S n)) - 3) with n by lia.
      apply (replace_without_backtick fence_open);
        [auto using RepairFacts.fence_open_trigger|now apply free_of_skipn]. }
    exists [Ch.LF], j. split; [now right|].
    assert (Some match tag with Some t => t | None => [] end = tag) as Et
        by (destruct Htag as [-> | ->]; reflexivity).
    destruct tag as [t|]; [|discriminate]. rewrite E.
    rewrite (replace_without_backtick fence); [reflexivity|auto using RepairFacts.fence_trigger|].
    rewrite !free_of_app, Hpre, Hcore, free_of_skipn by exact Hpost. reflexivity.
Qed.

(** A JSON text in prose is what the extractor parses. *)
Lemma in_prose_parses (array : bool) (pre inner post : str) (tag : option str)
        (expected v : value) :
  tag = None \/ tag = Some [] \/ tag = Some $"json" ->
  free_of Ch.BACKTICK pre = true -> free_of Ch.BACKTICK inner = true ->
  free_of Ch.BACKTICK post = true ->
  free_of (opening array) pre = true ->
  free_of (closing array) post = true ->
  is_tag (if array then "array" else "object") (expected_or_object expected) = true ->
  Json.JSON_parse (bracketed array inner) = Normal v ->
  parseJSONFromText (VStr (in_prose pre tag (bracketed array inner) post)) expected = Normal v.
Proof.
  intros Htag Hpre Hinner Hpost Ho Hc Hexp Hparse.
  assert (free_of Ch.BACKTICK (bracketed array inner) = true) as Hcore.
  { unfold bracketed. destruct array; rewrite !free_of_app, Hinner; reflexivity. }
  destruct (strip_fences_in_prose pre (bracketed array inner) post tag Htag Hpre Hcore Hpost)
    as (lf & k & Hlf & S).
  assert (exists d u, in_prose pre tag (bracketed array inner) post = d :: u) as (d & u & E).
  { unfold in_prose. destruct pre as [|p pre]; [|eexists _, _; reflexivity].
    destruct tag as [t|]; [eexists _, _; reflexivity|].
    destruct array; eexists _, _; reflexivity. }
  unfold parseJSONFromText. rewrite E in *.
  cbn [truthy is_string negb orb receiver bind]. rewrite S.
  assert (candidate_of (expected_or_object expected)
            (trim (pre ++ bracketed array inner ++ lf ++ skipn k post))
          = bracketed array inner) as ->.
  { assert (bracketed array inner = opening array :: inner ++ [closing array]) as B
        by (destruct array; reflexivity).
    assert (is_space (opening array) = false) as So by (destruct array; reflexivity).
    assert (is_space (closing array) = false) as Sc by (destruct array; reflexivity).
    assert (free_of (closing array) (lf ++ skipn k post) = true) as Ft.
    { rewrite free_of_app, free_of_skipn by exact Hc.
      destruct Hlf as [-> | ->]; destruct array; reflexivity. }
    assert (trim (pre ++ bracketed array inner ++ lf ++ skipn k post)
            = drop_spaces pre ++ opening array :: inner
              ++ closing array :: trim_end (lf ++ skipn k post)) as ->.
    { unfold trim. rewrite B. cbn [app]. rewrite drop_spaces_before by exact So.
      rewrite <- app_assoc. cbn [app].
      replace (drop_spaces pre ++ opening array :: inner ++ closing array :: lf ++ skipn k post)
        with ((drop_spaces pre ++ opening array :: inner) ++ closing array :: lf ++ skipn k post)
        by (rewrite <- app_assoc; reflexivity).
      rewrite trim_end_after by exact Sc. rewrite <- app_assoc. reflexivity. }
    unfold candidate_of.
    destruct array; cbn [opening closing] in *.
    - rewrite Hexp. rewrite bracket_span_free;
        [now rewrite B|now apply free_of_drop_spaces|now apply free_of_trim_end].
    - assert (is_tag "array" (expected_or_object expected) = false) as ->.
      { destruct (expected_or_object expected) as [| | | |s| |]; try discriminate.
        cbn [is_tag] in *. apply str_eqb_eq in Hexp. now subst s. }
      rewrite Hexp.
      rewrite (bracket_span_free Ch.LBRACE Ch.RBRACE);
        [|now apply free_of_drop_spaces|now apply free_of_trim_end].
      rewrite B. cbv beta iota zeta.
      repeat match goal with
             | |- context [bracket_span Ch.LBRACKET Ch.RBRACKET ?t] =>
                 destruct (bracket_span Ch.LBRACKET Ch.RBRACKET t)
             end; reflexivity. }
  rewrite Hparse. reflexivity.
Qed.

(** X6.  Prose around a JSON text is ignored.  When a completion is prose
    without brackets of the expected kind, then an object (or, for
    ['array'], an array) that is bare or in a code fence of its own, then
    prose again, and no backtick stands elsewhere, the extractor returns
    what [JSON.parse] makes of the text between the brackets. *)
Theorem json_text_in_prose (array : bool) (pre inner post : str) (tag : option str)
        (expected v : value) :
  tag = None \/ tag = Some [] \/ tag = Some $"json" ->
  free_of Ch.BACKTICK pre = true -> free_of Ch.BACKTICK inner = true ->
  free_of Ch.BACKTICK post = true ->
  free_of (opening array) pre = true ->
  free_of (closing array) post = true ->
  is_tag (if array then "array" else "object") (expected_or_object expected) = true ->
  Json.JSON_parse (bracketed array inner) = Normal v ->
  parseJSONFromText (VStr (in_prose pre tag (bracketed array inner) post)) expected = Normal v.
Proof. exact (in_prose_parses array pre inner post tag expected v). Qed.

Lemma json_text_in_prose_witness :
  parseJSONFromText
    (VStr (in_prose $"Here is the plan: " (Some $"json")
             (bracketed false ([Ch.DQUOTE] ++ $"phases" ++ [Ch.DQUOTE] ++ $": [1, 2]"))
             $" Good luck."))
    VUndefined
  = Normal (VObj [($"phases", VArr [num 1; num 2])]).
Proof.
  apply (json_text_in_prose false $"Here is the plan: "
           ([Ch.DQUOTE] ++ $"phases" ++ [Ch.DQUOTE] ++ $": [1, 2]") $" Good luck."
           (Some $"json") VUndefined);
    try reflexivity.
  right; right; reflexivity.
Defined.

Lemma from_first_none (c : N) (s : str) : free_of c s = true -> from_first c s = None.
Proof.
  induction s as [|x s IH]; cbn [from_first free_of forallb]; [reflexivity|].
  intros H. apply andb_true_iff in H as [H1 H2]. apply negb_true_iff in H1.
  rewrite H1. exact (IH H2).
Qed.

Lemma bracket_span_none (o c : N) (s : str) : free_of o s = true -> bracket_span o c s = None.
Proof. intros H. unfold bracket_span. now rewrite from_first_none. Qed.

(** X29.  The shape tag is a preference, not a filter.  When the text has
    no bracket of the expected kind at all, the extractor takes the span
    of the other kind: asked for an object it returns the array the text
    holds, asked for an array it returns the object.  (The routes then
    refuse the value: an array has no [concepts], an object is no array.) *)
Theorem shape_tag_is_a_preference (array : bool) (pre inner post : str) (v : value) :
  free_of Ch.BACKTICK (pre ++ bracketed array inner ++ post) = true ->
  free_of (opening (negb array)) (pre ++ bracketed array inner ++ post) = true ->
  free_of (opening array) pre = true ->
  free_of (closing array) post = true ->
  Json.JSON_parse (bracketed array inner) = Normal v ->
  parseJSONFromText (VStr (pre ++ bracketed array inner ++ post))
    (text (if array then "object" else "array"))
  = Normal v.
Proof.
  intros Hticks Hother Ho Hc Hparse.
  assert (exists d u, pre ++ bracketed array inner ++ post = d :: u) as (d & u & E).
  { destruct pre as [|p pre]; [|eexists _, _; reflexivity].
    destruct array; eexists _, _; reflexivity. }
  assert (strip_fences (pre ++ bracketed array inner ++ post)
          = trim (pre ++ bracketed array inner ++ post)) as S.
  { unfold strip_fences.
    rewrite (replace_without_backtick fence_open) by (auto using RepairFacts.fence_open_trigger).
    rewrite (replace_without_backtick fence) by (auto using RepairFacts.fence_trigger).
    reflexivity. }
  assert (free_of (opening (negb array)) (trim (pre ++ bracketed array inner ++ post)) = true)
    as Hother'.
  { destruct (trim_inside (pre ++ bracketed array inner ++ post)) as (a & b & T).
    rewrite T, !free_of_app in Hother.
    apply andb_true_iff in Hother as [_ Hother]. apply andb_true_iff in Hother. tauto. }
  assert (bracket_span (opening array) (closing array)
            (trim (pre ++ bracketed array inner ++ post))
          = Some (bracketed array inner)) as Hspan.
  { assert (bracketed array inner = opening array :: inner ++ [closing array]) as B
        by (destruct array; reflexivity).
    assert (is_space (opening array) = false) as So by (destruct array; reflexivity).
    assert (is_space (closing array) = false) as Sc by (destruct array; reflexivity).
    unfold trim. rewrite B. cbn [app]. rewrite drop_spaces_before by exact So.
    rewrite <- app_assoc. cbn [app].
    replace (drop_spaces pre ++ opening array :: inner ++ closing array :: post)
      with ((drop_spaces pre ++ opening array :: inner) ++ closing array :: post)
      by (rewrite <- app_assoc; reflexivity).
    rewrite trim_end_after by exact Sc. rewrite <- app_assoc. cbn [app].
    apply bracket_span_free; [now apply free_of_drop_spaces|now apply free_of_trim_end]. }
  unfold parseJSONFromText. rewrite E in *.
  cbn [truthy is_string negb orb receiver bind]. rewrite S.
  assert (candidate_of (expected_or_object (text (if array then "object" else "array")))
            (trim (d :: u))
          = bracketed array inner) as ->.
  { unfold candidate_of. destruct array; cbn [opening closing negb] in *.
    - rewrite Hspan, (bracket_span_none Ch.LBRACE Ch.RBRACE _ Hother'). reflexivity.
    - rewrite Hspan, (bracket_span_none Ch.LBRACKET Ch.RBRACKET _ Hother'). reflexivity. }
  rewrite Hparse. reflexivity.
Qed.

Lemma shape_tag_is_a_preference_witness :
  parseJSONFromText (VStr ($"Questions: " ++ bracketed true $"1, 2" ++ $" Done."))
    (text "object")
  = Normal (VArr [num 1; num 2]).
Proof.
  apply (shape_tag_is_a_preference true $"Questions: " $"1, 2" $" Done." (VArr [num 1; num 2]));
    reflexivity.
Defined.

End ExtractFacts.

(* ================================================================== *)
(** ** The routes: calls, statuses, defaults *)

Module ServerFacts.

Lemma five_routes_always_fallback_witness :
  exists resp,
    fst (run upstream_down (handle configured_key placeholder_key StudyPlanRoute Req.empty))
    = Normal resp
    /\ (status resp = 200%Z \/ error_with_fallback resp = true).
Proof.
  apply (five_routes_always_fallback configured_key placeholder_key StudyPlanRoute Req.empty
           upstream_down).
  discriminate.
Defined.

Lemma ai_quiz_answers_a_completion_witness :
  exists resp,
    fst (run (fun _ => Normal $"no JSON here") (ai_quiz configured_key placeholder_key Req.empty))
    = Normal resp
    /\ (status resp = 200%Z \/ (status resp = 400%Z /\ error_with_fallback resp = true)).
Proof.
  apply (ai_quiz_answers_a_completion configured_key placeholder_key Req.empty
           (fun _ => Normal $"no JSON here")).
  - reflexivity.
  - reflexivity.
  - intros p. eexists. reflexivity.
Defined.

Lemma defaults_outside_try_witness :
  run upstream_down (handle configured_key placeholder_key QuizAssignmentsRoute Req.empty)
  = run upstream_down
      (handle configured_key placeholder_key QuizAssignmentsRoute
         (with_defaults QuizAssignmentsRoute Req.empty)).
Proof.
  apply (defaults_outside_try configured_key placeholder_key QuizAssignmentsRoute Req.empty
           upstream_down); discriminate.
Defined.

(** X4.  Nothing is retried: a request makes no upstream call in fallback
    mode, and none when it is for /api/ai-quiz with a null [userProfile],
    which throws before the call; every other request makes exactly one,
    whatever the call returns or throws and whatever the parse makes of
    it. *)
Theorem one_upstream_call_per_request (env : option str) (key : str) (r : route)
        (b : Req.body) (upstream : prompt -> completion str) :
  length (snd (run upstream (handle env key r b)))
  = if USE_LOCAL_AI env key || reads_null r b then 0 else 1.
Proof.
  destruct r; cbn [handle reads_null]; rewrite ?orb_false_r;
    unfold knowledge_graph, quiz_questions, study_plan, complete_learning_module,
      quiz_assignments, ai_quiz.
  6:{ destruct (Req.userProfile b) as [[|p]|];
        cbn [default Req.properties lift ptry pbind run]; rewrite ?orb_true_r, ?orb_false_r;
        try reflexivity;
        (destruct (USE_LOCAL_AI env key); try reflexivity;
         split_upstream upstream; try reflexivity;
         match goal with |- context [if ?c then _ else _] => destruct c end; reflexivity). }
  all: destruct (USE_LOCAL_AI env key); try reflexivity;
    split_upstream upstream; try reflexivity;
    match goal with |- context [if ?c then _ else _] => destruct c end; reflexivity.
Qed.

(** X7.  The ai-quiz route reads [skillLevel] as a last resort only.  A
    profile without a success rate, or with the rate 0 or the empty string,
    is 'easy' whatever its skill level, since [successRate || 0] is then 0,
    a number; so is every rate [parseInt] can read the tier of its number.
    Only a non-empty rate that [parseInt] cannot read lets the skill level
    decide, compared without case, 'medium' standing for any other. *)
Theorem skill_level_is_a_last_resort (level : option str) :
  derive_difficulty {| Req.successRate := None; Req.skillLevel := level |} = $"easy"
  /\ derive_difficulty {| Req.successRate := Some (Req.RateStr []); Req.skillLevel := level |}
     = $"easy"
  /\ (forall c s n,
         parseInt (c :: s) = Some n ->
         derive_difficulty {| Req.successRate := Some (Req.RateStr (c :: s));
                              Req.skillLevel := level |} = tier n)
  /\ (forall c s,
         parseInt (c :: s) = None ->
         derive_difficulty {| Req.successRate := Some (Req.RateStr (c :: s));
                              Req.skillLevel := level |}
         = match level with
           | Some (d :: l) =>
               if str_eqb (toLowerCase (d :: l)) $"beginner" then $"easy"
               else if str_eqb (toLowerCase (d :: l)) $"intermediate" then $"medium"
               else if str_eqb (toLowerCase (d :: l)) $"advanced" then $"hard"
               else $"medium"
           | _ => $"medium"
           end).
Proof.
  repeat split.
  - intros c s n H. unfold derive_difficulty. cbn [Req.successRate]. rewrite H. reflexivity.
  - intros c s H. unfold derive_difficulty. cbn [Req.successRate Req.skillLevel]. rewrite H.
    destruct level as [[|d l]|]; reflexivity.
Qed.

(** X8.  The server is in fallback mode exactly when the environment gives
    no key, an empty key, or the key literal of the source; otherwise the
    key it uses is the environment's. *)
Theorem fallback_mode_iff_no_key_of_its_own (env : option str) (key : str) :
  (USE_LOCAL_AI env key = true <-> env = None \/ env = Some [] \/ env = Some key)
  /\ (USE_LOCAL_AI env key = false -> env = Some (GOOGLE_API_KEY env key)).
Proof.
  unfold USE_LOCAL_AI, GOOGLE_API_KEY, or_else.
  destruct env as [[|c s]|].
  - split; [|destruct key; [discriminate|rewrite str_eqb_refl; discriminate]].
    split; [auto|]. intros _. destruct key; [reflexivity|apply str_eqb_refl].
  - split; [|reflexivity]. rewrite str_eqb_eq. split.
    + intros ->. auto.
    + intros [H|[H|H]]; congruence.
  - split; [|destruct key; [discriminate|rewrite str_eqb_refl; discriminate]].
    split; [auto|]. intros _. destruct key; [reflexivity|apply str_eqb_refl].
Qed.

(** X11.  A completion the route cannot accept is reported with a fallback
    by all six routes, though not with one status: knowledge-graph and
    quiz-questions throw into their own [catch] and answer 500 'Invalid AI
    response', the other four answer 400 'Invalid response from AI'.  (The
    request is one that reaches the upstream call: it does not make
    ai-quiz read a property of [null].) *)
Theorem unusable_answer_status (env : option str) (key : str) (r : route) (b : Req.body)
        (upstream : prompt -> completion str) (t : str) (parsed : value) :
  USE_LOCAL_AI env key = false ->
  reads_null r b = false ->
  (forall p, upstream p = Normal t) ->
  parseJSONFromText (VStr t) (text (if expects_array r then "array" else "object"))
  = Normal parsed ->
  accepted r parsed = false ->
  exists resp,
    fst (run upstream (handle env key r b)) = Normal resp
    /\ has (body resp) "fallback" = true
    /\ match r with
       | KnowledgeGraphRoute | QuizQuestionsRoute =>
           status resp = 500%Z /\ get (body resp) $"error" = text "Invalid AI response"
       | _ =>
           status resp = 400%Z /\ get (body resp) $"error" = text "Invalid response from AI"
       end.
Proof.
  intros Hlocal Hnull Hup Hparse Hacc.
  destruct r; cbn [handle expects_array accepted] in *;
    unfold knowledge_graph, quiz_questions, study_plan, complete_learning_module,
      quiz_assignments, ai_quiz;
    rewrite Hlocal;
    [ | | | | | unfold reads_null in Hnull;
              destruct (Req.userProfile b) as [[|p]|]; [discriminate Hnull| |] ];
    cbn [default Req.properties ptry pbind lift callGoogleAPI run]; rewrite Hup;
    cbn [ptry pbind lift run]; rewrite Hparse; cbn [ptry pbind lift run].
  - replace (negb (truthy parsed) || negb (truthy (get parsed $"concepts"))) with true
      by (destruct (truthy parsed), (truthy (get parsed $"concepts")); try reflexivity;
          discriminate).
    eexists. repeat split.
  - rewrite Hacc. eexists. repeat split.
  - replace (negb (truthy parsed) || negb (truthy (get parsed $"phases"))) with true
      by (destruct (truthy parsed), (truthy (get parsed $"phases")); try reflexivity;
          discriminate).
    eexists. repeat split.
  - replace (negb (truthy parsed) || negb (truthy (get parsed $"basics"))) with true
      by (destruct (truthy parsed), (truthy (get parsed $"basics")); try reflexivity;
          discriminate).
    eexists. repeat split.
  - replace (negb (truthy parsed) || negb (truthy (get parsed $"importantTopics"))) with true
      by (destruct (truthy parsed), (truthy (get parsed $"importantTopics"));
          try reflexivity; discriminate).
    eexists. repeat split.
  - replace (negb (truthy parsed)
             || negb (truthy (get parsed $"quiz"))
                && negb (truthy (get parsed $"importantTopics"))) with true
      by (destruct (truthy parsed), (truthy (get parsed $"quiz")),
            (truthy (get parsed $"importantTopics")); try reflexivity; discriminate).
    eexists. repeat split.
  - replace (negb (truthy parsed)
             || negb (truthy (get parsed $"quiz"))
                && negb (truthy (get parsed $"importantTopics"))) with true
      by (destruct (truthy parsed), (truthy (get parsed $"quiz")),
            (truthy (get parsed $"importantTopics")); try reflexivity; discriminate).
    eexists. repeat split.
Qed.

Lemma unusable_answer_status_witness :
  exists resp,
    fst (run (fun _ => Normal $"I cannot help with that.")
           (handle configured_key placeholder_key StudyPlanRoute Req.empty))
    = Normal resp
    /\ has (body resp) "fallback" = true
    /\ status resp = 400%Z /\ get (body resp) $"error" = text "Invalid response from AI".
Proof.
  apply (unusable_answer_status configured_key placeholder_key StudyPlanRoute Req.empty
           (fun _ => Normal $"I cannot help with that.") $"I cannot help with that." VNull);
    reflexivity.
Defined.


(** X27.  In fallback mode nothing is personalised: the answers of
    /api/ai-quiz and of /api/quiz-questions depend on the subject, the topic
    and the number of questions only, and for /api/ai-quiz on whether
    [userProfile] is [null].  Two requests that agree on these get the same
    outcome, whatever the success rate and the skill level of their
    profiles and whatever their [difficulty]. *)
Theorem fallback_mode_is_not_personalised (env : option str) (key : str) (b b' : Req.body)
        (upstream : prompt -> completion str) :
  USE_LOCAL_AI env key = true ->
  Req.subject b = Req.subject b' ->
  Req.topic b = Req.topic b' ->
  Req.numQuestions b = Req.numQuestions b' ->
  reads_null AiQuizRoute b = reads_null AiQuizRoute b' ->
  run upstream (handle env key AiQuizRoute b) = run upstream (handle env key AiQuizRoute b')
  /\ run upstream (handle env key QuizQuestionsRoute b)
     = run upstream (handle env key QuizQuestionsRoute b').
Proof.
  intros Hlocal Hs Ht Hn Hnull. cbn [handle]. unfold ai_quiz, quiz_questions.
  rewrite Hlocal, Hs, Ht, Hn. split; [|reflexivity].
  unfold reads_null in Hnull.
  destruct (Req.userProfile b) as [[|p]|], (Req.userProfile b') as [[|p']|];
    try discriminate Hnull; reflexivity.
Qed.

Lemma fallback_mode_is_not_personalised_witness :
  run upstream_down
    (handle None placeholder_key AiQuizRoute
       {| Req.subject := Some $"Biology"; Req.topic := Some $"Cells"; Req.difficulty := None;
          Req.numConcepts := None; Req.numQuestions := Some 3%Z; Req.numAssignments := None;
          Req.duration := None; Req.durationUnit := None;
          Req.userProfile :=
            Some (Req.Profile {| Req.successRate := Some (Req.RateNum 90);
                                 Req.skillLevel := Some $"advanced" |}) |})
  = run upstream_down (handle None placeholder_key AiQuizRoute biology_cells)
  /\ run upstream_down
       (handle None placeholder_key QuizQuestionsRoute
          {| Req.subject := Some $"Biology"; Req.topic := Some $"Cells"; Req.difficulty := None;
             Req.numConcepts := None; Req.numQuestions := Some 3%Z; Req.numAssignments := None;
             Req.duration := None; Req.durationUnit := None;
             Req.userProfile :=
               Some (Req.Profile {| Req.successRate := Some (Req.RateNum 90);
                                    Req.skillLevel := Some $"advanced" |}) |})
     = run upstream_down (handle None placeholder_key QuizQuestionsRoute biology_cells).
Proof.
  apply (fallback_mode_is_not_personalised None placeholder_key
           {| Req.subject := Some $"Biology"; Req.topic := Some $"Cells"; Req.difficulty := None;
              Req.numConcepts := None; Req.numQuestions := Some 3%Z; Req.numAssignments := None;
              Req.duration := None; Req.durationUnit := None;
              Req.userProfile :=
                Some (Req.Profile {| Req.successRate := Some (Req.RateNum 90);
                                     Req.skillLevel := Some $"advanced" |}) |}
           biology_cells upstream_down); reflexivity.
Defined.

(** The same request with a null [userProfile] gets no answer, where the
    one without a profile gets 200. *)
Example null_profile_is_told_apart :
  run upstream_down (handle None placeholder_key AiQuizRoute null_profile)
  <> run upstream_down (handle None placeholder_key AiQuizRoute Req.empty).
Proof. intros H. vm_compute in H. discriminate H. Qed.

End ServerFacts.

(* ================================================================== *)
(** ** The local generators: counts and numbering *)

Module GeneratorFacts.

Lemma nth_upto (n : Z) (i : nat) (d : Z) : i < Z.to_nat n -> nth i (upto n) d = Z.of_nat i.
Proof.
  intros H. unfold upto.
  rewrite (nth_indep _ d (Z.of_nat 0)) by (now rewrite length_map, length_seq).
  rewrite map_nth, seq_nth by exact H. reflexivity.
Qed.

Lemma nth_map_upto {A : Type} (f : Z -> A) (n : Z) (i : nat) (d : A) :
  i < Z.to_nat n -> nth i (List.map f (upto n)) d = f (Z.of_nat i).
Proof.
  intros H. rewrite (nth_indep _ d (f 0%Z)) by (now rewrite length_map, length_upto).
  rewrite map_nth. now rewrite nth_upto.
Qed.

(** X9.  The local quiz has as many questions as asked for, none for a
    count of zero or below; they are numbered from 1 in order; each has
    four options, and the option its [correctIndex] points at is the
    'Fundamental ... theory' one.  The difficulty asked for changes
    nothing. *)
Theorem local_quiz_is_numbered (subject topic difficulty : option str)
        (numQuestions : option Z) :
  length (generateQuizQuestionsLocal subject topic difficulty numQuestions)
  = Z.to_nat (default numQuestions 3%Z)
  /\ (forall i,
        i < Z.to_nat (default numQuestions 3%Z) ->
        let q := nth i (generateQuizQuestionsLocal subject topic difficulty numQuestions)
                   VUndefined in
        get q $"id" = num (Z.of_nat i + 1)
        /\ get q $"correctIndex" = num 2
        /\ exists options,
             get q $"options" = VArr options /\ length options = 4
             /\ nth 2 options VUndefined
                = VStr ($"Fundamental " ++ default topic $"Basics" ++ $" theory"))
  /\ generateQuizQuestionsLocal subject topic difficulty numQuestions
     = generateQuizQuestionsLocal subject topic None numQuestions.
Proof.
  unfold generateQuizQuestionsLocal. split; [now rewrite length_map, length_upto|].
  split; [|reflexivity].
  intros i Hi. cbv zeta. rewrite nth_map_upto by exact Hi.
  repeat split. eexists. repeat split.
Qed.

(** X10.  The local assignments are as many as asked for, none for a count
    of zero or below; they are numbered from 1, the [i]-th due in [i + 2]
    days, so that due dates grow with the numbers, and each carries a quiz
    of three questions. *)
Theorem local_assignments_are_numbered (subject topic : option str)
        (numAssignments : option Z) :
  exists assignments,
    get (generateQuizAssignmentsLocal subject topic numAssignments) $"assignments"
    = VArr assignments
    /\ length assignments = Z.to_nat (default numAssignments 3%Z)
    /\ forall i,
         i < Z.to_nat (default numAssignments 3%Z) ->
         let a := nth i assignments VUndefined in
         get a $"id" = num (Z.of_nat i + 1)
         /\ get a $"dueInDays" = num (3 + Z.of_nat i)
         /\ get a $"title"
            = VStr (default topic $"basics" ++ $" assignment "
                    ++ number_to_string (Z.of_nat i + 1))
         /\ exists quiz, get a $"quiz" = VArr quiz /\ length quiz = 3.
Proof.
  unfold generateQuizAssignmentsLocal. eexists. split; [reflexivity|].
  split; [now rewrite length_map, length_upto|].
  intros i Hi. cbv zeta. rewrite nth_map_upto by exact Hi.
  repeat split. eexists. split; reflexivity.
Qed.

End GeneratorFacts.

(* ================================================================== *)
(** ** What the client keeps of a response *)

Module ClientFacts.

Import Client.

Lemma keep_truthy (k : string) (data : value) :
  truthy data = true -> truthy (get data $k) = true -> keep k data = Normal data.
Proof.
  intros Hd Hk. unfold keep, member.
  destruct data; try discriminate; cbn [bind]; rewrite Hk; reflexivity.
Qed.

Lemma or_false (a b : bool) : negb a || negb b = false -> a = true /\ b = true.
Proof. destruct a, b; simpl; intros H; try discriminate; auto. Qed.

(** X17.  The client finds something to show in what the four routes it
    renders from answer, whatever the upstream does: a graph with concepts,
    an array of questions, a module with basics, a plan with phases, taken
    from the body itself or from its fallback.  This is so whenever the
    body reaches the client as the route sent it, which it does unless it
    holds a number beyond the range of the doubles (a completion's
    [1e400] is sent as [null]). *)
Theorem client_keeps_a_usable_payload (env : option str) (key : str) (b : Req.body)
        (upstream : prompt -> completion str) :
  (exists resp,
      fst (run upstream (handle env key KnowledgeGraphRoute b)) = Normal resp
      /\ (in_double_range (body resp) = true ->
          exists d, keep_graph (body resp) = Normal d /\ truthy (get d $"concepts") = true))
  /\ (exists resp,
         fst (run upstream (handle env key QuizQuestionsRoute b)) = Normal resp
         /\ (in_double_range (body resp) = true ->
             exists d, keep_questions (body resp) = Normal d /\ isArray d = true))
  /\ (exists resp,
         fst (run upstream (handle env key CompleteLearningModuleRoute b)) = Normal resp
         /\ (in_double_range (body resp) = true ->
             exists d, keep_module (body resp) = Normal d /\ truthy (get d $"basics") = true))
  /\ (exists resp,
         fst (run upstream (handle env key StudyPlanRoute b)) = Normal resp
         /\ (in_double_range (body resp) = true ->
             exists d, keep_plan (body resp) = Normal d /\ truthy (get d $"phases") = true)).
Proof.
  repeat split; cbn [handle].
  - unfold knowledge_graph. destruct (USE_LOCAL_AI env key).
    + eexists. split; [reflexivity|]. intros _. eexists. split; reflexivity.
    + split_upstream upstream.
      * destruct (negb (truthy parsed) || negb (truthy (get parsed $"concepts"))) eqn:V.
        -- eexists. split; [reflexivity|]. intros _. eexists. split; reflexivity.
        -- apply or_false in V as [V1 V2]. exists {| status := 200; body := parsed |}.
           split; [reflexivity|]. intros _. exists parsed.
           split; [now apply keep_truthy|exact V2].
      * eexists. split; [reflexivity|]. intros _. eexists. split; reflexivity.
      * eexists. split; [reflexivity|]. intros _. eexists. split; reflexivity.
  - unfold quiz_questions. destruct (USE_LOCAL_AI env key).
    + eexists. split; [reflexivity|]. intros _. eexists. split; reflexivity.
    + split_upstream upstream.
      * destruct (isArray parsed) eqn:V; cbn [negb].
        -- exists {| status := 200; body := parsed |}.
           split; [reflexivity|]. intros _. exists parsed.
           split; [|exact V]. unfold keep_questions. cbn [body]. now rewrite V.
        -- eexists. split; [reflexivity|]. intros _. eexists. split; reflexivity.
      * eexists. split; [reflexivity|]. intros _. eexists. split; reflexivity.
      * eexists. split; [reflexivity|]. intros _. eexists. split; reflexivity.
  - unfold complete_learning_module. destruct (USE_LOCAL_AI env key).
    + eexists. split; [reflexivity|]. intros _. eexists. split; reflexivity.
    + split_upstream upstream.
      * destruct (negb (truthy parsed) || negb (truthy (get parsed $"basics"))) eqn:V.
        -- eexists. split; [reflexivity|]. intros _. eexists. split; reflexivity.
        -- apply or_false in V as [V1 V2]. exists {| status := 200; body := parsed |}.
           split; [reflexivity|]. intros _. exists parsed.
           split; [now apply keep_truthy|exact V2].
      * eexists. split; [reflexivity|]. intros _. eexists. split; reflexivity.
      * eexists. split; [reflexivity|]. intros _. eexists. split; reflexivity.
  - unfold study_plan. destruct (USE_LOCAL_AI env key).
    + eexists. split; [reflexivity|]. intros _. eexists. split; reflexivity.
    + split_upstream upstream.
      * destruct (negb (truthy parsed) || negb (truthy (get parsed $"phases"))) eqn:V.
        -- eexists. split; [reflexivity|]. intros _. eexists. split; reflexivity.
        -- apply or_false in V as [V1 V2]. exists {| status := 200; body := parsed |}.
           split; [reflexivity|]. intros _. exists parsed.
           split; [now apply keep_truthy|exact V2].
      * eexists. split; [reflexivity|]. intros _. eexists. split; reflexivity.
      * eexists. split; [reflexivity|]. intros _. eexists. split; reflexivity.
Qed.

(** Numbers the doubles cannot hold, and numbers they can: the model keeps
    the rational of each, and the range tells the first two apart, which
    the engine reads as [Infinity] and as zero. *)
Example beyond_the_doubles :
  match Json.JSON_parse $"[1e400, 1e-400, 1e308, 5e-324, 0.1, 0]" with
  | Normal (VArr numbers) => List.map in_double_range numbers
  | _ => []
  end
  = [false; false; true; true; true; true].
Proof. vm_compute. reflexivity. Qed.



End ClientFacts.

(* ================================================================== *)
(** ** The upstream client, and the primary path end to end *)

Module UpstreamFacts.

Import Upstream.

Lemma drop_spaces_idem (s : str) : drop_spaces (drop_spaces s) = drop_spaces s.
Proof.
  induction s as [|c s IH]; [reflexivity|].
  cbn [drop_spaces]. destruct (is_space c) eqn:E; [exact IH|].
  cbn [drop_spaces]. now rewrite E.
Qed.

Lemma trim_end_idem (s : str) : trim_end (trim_end s) = trim_end s.
Proof. unfold trim_end. now rewrite rev_involutive, drop_spaces_idem. Qed.

Lemma trim_idem (s : str) : trim (trim s) = trim s.
Proof.
  unfold trim.
  destruct (drop_spaces s) as [|c r] eqn:E; [reflexivity|].
  assert (is_space c = false) as Hc.
  { revert E. induction s as [|x s IH]; cbn [drop_spaces]; [discriminate|].
    destruct (is_space x) eqn:X; [exact IH|]. intros [= -> _]. exact X. }
  pose proof (ExtractFacts.trim_end_after [] c r Hc) as H1.
  pose proof (ExtractFacts.trim_end_after [] c (trim_end r) Hc) as H2.
  cbn [app] in H1, H2. rewrite H1. cbn [drop_spaces]. rewrite Hc, H2.
  now rewrite trim_end_idem.
Qed.

Lemma trim_around (pre mid post : str) (x0 x1 : N) :
  is_space x0 = false -> is_space x1 = false ->
  trim (pre ++ x0 :: mid ++ x1 :: post) = drop_spaces pre ++ x0 :: mid ++ x1 :: trim_end post.
Proof.
  intros H0 H1. unfold trim. rewrite ExtractFacts.drop_spaces_before by exact H0.
  replace (drop_spaces pre ++ x0 :: mid ++ x1 :: post)
    with ((drop_spaces pre ++ x0 :: mid) ++ x1 :: post)
    by (rewrite <- app_assoc; reflexivity).
  rewrite ExtractFacts.trim_end_after by exact H1. rewrite <- app_assoc. reflexivity.
Qed.

Lemma in_prose_ends (inner : str) (tag : option str) (array : bool) :
  tag = None \/ tag = Some [] \/ tag = Some $"json" ->
  exists x0 mid x1,
    is_space x0 = false /\ is_space x1 = false
    /\ forall pre post,
         in_prose pre tag (bracketed array inner) post = pre ++ x0 :: mid ++ x1 :: post.
Proof.
  intros [-> | [-> | ->]].
  - exists (opening array), inner, (closing array).
    destruct array; repeat split; intros pre post; unfold in_prose, bracketed;
      cbn [app]; rewrite <- app_assoc; reflexivity.
  - exists Ch.BACKTICK,
      ([Ch.BACKTICK; Ch.BACKTICK] ++ [Ch.LF] ++ bracketed array inner
       ++ [Ch.LF; Ch.BACKTICK; Ch.BACKTICK]), Ch.BACKTICK.
    repeat split. intros pre post. unfold in_prose, fenced, Pattern.ticks.
    RepairFacts.same_text.
  - exists Ch.BACKTICK,
      ([Ch.BACKTICK; Ch.BACKTICK] ++ $"json" ++ [Ch.LF] ++ bracketed array inner
       ++ [Ch.LF; Ch.BACKTICK; Ch.BACKTICK]), Ch.BACKTICK.
    repeat split. intros pre post. unfold in_prose, fenced, Pattern.ticks.
    RepairFacts.same_text.
Qed.

Lemma trim_in_prose (pre inner post : str) (tag : option str) (array : bool) :
  tag = None \/ tag = Some [] \/ tag = Some $"json" ->
  trim (in_prose pre tag (bracketed array inner) post)
  = in_prose (drop_spaces pre) tag (bracketed array inner) (trim_end post).
Proof.
  intros Htag. destruct (in_prose_ends inner tag array Htag) as (x0 & mid & x1 & H0 & H1 & E).
  rewrite !E. now apply trim_around.
Qed.

Section Calls.

Variable JSON_stringify : value -> str.
Variable String_of : value -> str.

(** X19.  What [callGoogleAPI] returns is trimmed: trimming it again
    changes nothing, whichever of the three places the text was taken
    from. *)
Theorem completion_is_trimmed (r : fetched) (t : str) :
  callGoogleAPI_with JSON_stringify String_of r = Normal t -> trim t = t.
Proof.
  unfold callGoogleAPI_with.
  destruct r as [e|ok code payload]; cbn [try_catch]; [discriminate|].
  destruct ok; cbn [negb try_catch]; [|discriminate].
  destruct (Json.JSON_parse payload) as [data|e]; cbn [bind try_catch]; [|discriminate].
  intros [= <-]. apply trim_idem.
Qed.

(** A response that is not [ok] makes [callGoogleAPI] throw an [Error] that
    names the status and carries the response body; a transport failure,
    and a body that is not JSON, are rethrown as they are. *)
Lemma upstream_failures_are_thrown (ok : bool) (code : Z) (payload : str) (e : js_error) :
  callGoogleAPI_with JSON_stringify String_of (Fetched false code payload)
  = Throw (Error ($"Google API " ++ number_to_string code ++ $": " ++ payload))
  /\ callGoogleAPI_with JSON_stringify String_of (FetchFailed e) = Throw e
  /\ (Json.JSON_parse payload = Throw e ->
      callGoogleAPI_with JSON_stringify String_of (Fetched true code payload) = Throw e).
Proof.
  repeat split. intros H. unfold callGoogleAPI_with. cbn [negb]. rewrite H. reflexivity.
Qed.

(** When the response is [ok] and its JSON has a non-empty string at
    [candidates[0].content.parts[0].text], [callGoogleAPI] returns that
    string, trimmed, whatever else the response holds. *)
Lemma first_candidate_text_is_returned (code : Z) (payload : str) (data : value)
        (c : N) (s : str) :
  Json.JSON_parse payload = Normal data ->
  get (first_of (get (get (first_of (get data $"candidates")) $"content") $"parts")) $"text"
  = VStr (c :: s) ->
  callGoogleAPI_with JSON_stringify String_of (Fetched true code payload)
  = Normal (trim (c :: s)).
Proof.
  intros Hparse Htext. unfold callGoogleAPI_with. cbn [negb]. rewrite Hparse.
  cbn [bind try_catch]. rewrite Htext. reflexivity.
Qed.

(** X20.  When the upstream answers with a status that is not [ok], each of
    the five routes with a sound [catch] block answers 500 with the status
    and the upstream's body in [error], and a fallback. *)
Theorem upstream_status_reaches_the_client (env : option str) (key : str) (r : route)
        (b : Req.body) (code : Z) (payload : str) :
  r <> AiQuizRoute ->
  USE_LOCAL_AI env key = false ->
  exists resp,
    fst (run (fun _ => callGoogleAPI_with JSON_stringify String_of (Fetched false code payload))
           (handle env key r b))
    = Normal resp
    /\ status resp = 500%Z
    /\ get (body resp) $"error"
       = VStr ($"Google API " ++ number_to_string code ++ $": " ++ payload)
    /\ has (body resp) "fallback" = true.
Proof.
  intros Hr Hlocal.
  destruct r; try contradiction; cbn [handle];
    unfold knowledge_graph, quiz_questions, study_plan, complete_learning_module,
      quiz_assignments;
    rewrite Hlocal; eexists; repeat split.
Qed.

(** X21.  The primary path, end to end.  When the server has a key of its
    own, the request reaches the upstream call, the upstream response is
    [ok], its first candidate text is prose around a JSON text of the kind
    the route expects, bare or in a code fence, and the parsed value has
    what the route requires and no number beyond the range of the doubles,
    the route answers 200 with that value. *)
Theorem model_answer_reaches_the_client (env : option str) (key : str) (r : route)
        (b : Req.body) (code : Z) (payload : str) (data : value)
        (pre inner post : str) (tag : option str) (v : value) :
  USE_LOCAL_AI env key = false ->
  reads_null r b = false ->
  Json.JSON_parse payload = Normal data ->
  get (first_of (get (get (first_of (get data $"candidates")) $"content") $"parts")) $"text"
  = VStr (in_prose pre tag (bracketed (expects_array r) inner) post) ->
  tag = None \/ tag = Some [] \/ tag = Some $"json" ->
  free_of Ch.BACKTICK pre = true -> free_of Ch.BACKTICK inner = true ->
  free_of Ch.BACKTICK post = true ->
  free_of (opening (expects_array r)) pre = true ->
  free_of (closing (expects_array r)) post = true ->
  Json.JSON_parse (bracketed (expects_array r) inner) = Normal v ->
  in_double_range v = true ->
  accepted r v = true ->
  fst (run (fun _ => callGoogleAPI_with JSON_stringify String_of (Fetched true code payload))
         (handle env key r b))
  = Normal {| status := 200; body := v |}.
Proof.
  intros Hlocal Hnull Hpayload Htext Htag Hpre Hinner Hpost Ho Hc Hparse _ Hacc.
  assert (exists d u, in_prose pre tag (bracketed (expects_array r) inner) post = d :: u)
    as (d & u & E).
  { unfold in_prose. destruct pre as [|p pre]; [|eexists _, _; reflexivity].
    destruct tag as [t|]; [eexists _, _; reflexivity|].
    destruct (expects_array r); eexists _, _; reflexivity. }
  assert (callGoogleAPI_with JSON_stringify String_of (Fetched true code payload)
          = Normal (in_prose (drop_spaces pre) tag (bracketed (expects_array r) inner)
                      (trim_end post))) as Hcall.
  { rewrite <- trim_in_prose by exact Htag. rewrite E in *.
    now apply first_candidate_text_is_returned with (data := data). }
  assert (forall expected,
             is_tag (if expects_array r then "array" else "object")
               (expected_or_object expected) = true ->
             parseJSONFromText
               (VStr (in_prose (drop_spaces pre) tag (bracketed (expects_array r) inner)
                        (trim_end post))) expected
             = Normal v) as Hextract.
  { intros expected Hexp. apply ExtractFacts.in_prose_parses; try assumption.
    - now apply ExtractFacts.free_of_drop_spaces.
    - now apply ExtractFacts.free_of_trim_end.
    - now apply ExtractFacts.free_of_drop_spaces.
    - now apply ExtractFacts.free_of_trim_end. }
  destruct r; cbn [handle expects_array accepted] in *;
    unfold knowledge_graph, quiz_questions, study_plan, complete_learning_module,
      quiz_assignments, ai_quiz;
    rewrite Hlocal;
    [ | | | | | unfold reads_null in Hnull;
              destruct (Req.userProfile b) as [[|p]|]; [discriminate Hnull| |] ];
    cbn [default Req.properties ptry pbind lift callGoogleAPI run]; rewrite Hcall;
    cbn [ptry pbind lift run]; rewrite Hextract by reflexivity;
    cbn [ptry pbind lift run].
  - apply andb_true_iff in Hacc as [-> ->]. reflexivity.
  - rewrite Hacc. reflexivity.
  - apply andb_true_iff in Hacc as [-> ->]. reflexivity.
  - apply andb_true_iff in Hacc as [-> ->]. reflexivity.
  - apply andb_true_iff in Hacc as [-> ->]. reflexivity.
  - apply andb_true_iff in Hacc as [-> Hacc]. cbn [negb orb].
    destruct (truthy (get v $"quiz")); [reflexivity|].
    cbn [orb] in Hacc. rewrite Hacc. reflexivity.
  - apply andb_true_iff in Hacc as [-> Hacc]. cbn [negb orb].
    destruct (truthy (get v $"quiz")); [reflexivity|].
    cbn [orb] in Hacc. rewrite Hacc. reflexivity.
Qed.

End Calls.

Lemma completion_is_trimmed_witness :
  callGoogleAPI_with (fun _ => $" [1] ") (fun _ => []) (Fetched true 200 $"[1]")
  = Normal $"[1]"
  /\ trim $"[1]" = $"[1]".
Proof.
  split; [reflexivity|].
  apply (completion_is_trimmed (fun _ => $" [1] ") (fun _ => [])
           (Fetched true 200 $"[1]") $"[1]").
  reflexivity.
Defined.

Lemma upstream_status_reaches_the_client_witness :
  exists resp,
    fst (run (fun _ => callGoogleAPI_with (fun _ => []) (fun _ => [])
                         (Fetched false 503 $"overloaded"))
           (handle configured_key placeholder_key KnowledgeGraphRoute Req.empty))
    = Normal resp
    /\ status resp = 500%Z
    /\ get (body resp) $"error" = VStr ($"Google API " ++ number_to_string 503 ++ $": " ++ $"overloaded")
    /\ has (body resp) "fallback" = true.
Proof.
  apply (upstream_status_reaches_the_client (fun _ => []) (fun _ => [])
           configured_key placeholder_key KnowledgeGraphRoute Req.empty 503 $"overloaded").
  - discriminate.
  - reflexivity.
Defined.

Lemma model_answer_reaches_the_client_witness :
  fst (run (fun _ => callGoogleAPI_with (fun _ => []) (fun _ => [])
                       (Fetched true 200
                          ($"{" ++ [Ch.DQUOTE] ++ $"candidates" ++ [Ch.DQUOTE] ++ $":[{"
                           ++ [Ch.DQUOTE] ++ $"content" ++ [Ch.DQUOTE] ++ $":{"
                           ++ [Ch.DQUOTE] ++ $"parts" ++ [Ch.DQUOTE] ++ $":[{"
                           ++ [Ch.DQUOTE] ++ $"text" ++ [Ch.DQUOTE] ++ $":"
                           ++ [Ch.DQUOTE] ++ $"Here: [1, 2] Enjoy." ++ [Ch.DQUOTE] ++ $"}]}}]}")))
         (handle configured_key placeholder_key QuizQuestionsRoute Req.empty))
  = Normal {| status := 200; body := VArr [num 1; num 2] |}.
Proof.
  apply (model_answer_reaches_the_client (fun _ => []) (fun _ => [])
           configured_key placeholder_key QuizQuestionsRoute Req.empty 200
           ($"{" ++ [Ch.DQUOTE] ++ $"candidates" ++ [Ch.DQUOTE] ++ $":[{"
            ++ [Ch.DQUOTE] ++ $"content" ++ [Ch.DQUOTE] ++ $":{"
            ++ [Ch.DQUOTE] ++ $"parts" ++ [Ch.DQUOTE] ++ $":[{"
            ++ [Ch.DQUOTE] ++ $"text" ++ [Ch.DQUOTE] ++ $":"
            ++ [Ch.DQUOTE] ++ $"Here: [1, 2] Enjoy." ++ [Ch.DQUOTE] ++ $"}]}}]}")
           (VObj [($"candidates",
                   VArr [VObj [($"content",
                                VObj [($"parts",
                                       VArr [VObj [($"text", VStr $"Here: [1, 2] Enjoy.")]])])]])])
           $"Here: " $"1, 2" $" Enjoy." None (VArr [num 1; num 2]));
    try reflexivity.
  left; reflexivity.
Defined.

End UpstreamFacts.

(* ================================================================== *)
(** ** The graph the renderer is given *)

Module RenderFacts.

Import Render.

(** The concept the generator gives index [i], as the renderer reads it. *)
Lemma read_generated (subject : str) (n i : Z) :
  read_concept (concept subject n i)
  = Some {| name := concept_name subject i;
            level := concept_level n i;
            description := $"Auto-generated concept " ++ number_to_string (i + 1) ++ $" for "
                           ++ subject;
            difficulty := concept_difficulty i |}.
Proof. reflexivity. Qed.

Lemma read_all_generated (subject : str) (n : Z) (l : list Z) :
  read_all (List.map (concept subject n) l)
  = Some (List.map
            (fun i => {| name := concept_name subject i;
                         level := concept_level n i;
                         description := $"Auto-generated concept " ++ number_to_string (i + 1)
                                        ++ $" for " ++ subject;
                         difficulty := concept_difficulty i |}) l).
Proof.
  induction l as [|i l IH]; [reflexivity|].
  cbn [List.map read_all]. rewrite read_generated, IH. reflexivity.
Qed.

Lemma setData_generated (subject : str) (n : Z) :
  KnowledgeGraph.setData (generateKnowledgeGraph (Some subject) (Some n))
  = Normal {| KnowledgeGraph.nodes := VArr (List.map (concept subject n) (upto n));
              KnowledgeGraph.edges := chain_edges subject (Z.to_nat n);
              KnowledgeGraph.dependencies := VObj (chain_dependencies subject (Z.to_nat n)) |}.
Proof.
  unfold generateKnowledgeGraph; cbn [default].
  rewrite link_concepts_chain, length_map, length_upto.
  unfold KnowledgeGraph.setData, chain_dependencies.
  match goal with
  | |- context [object [("concepts", VArr ?cs); ("dependencies", VObj ?ds)]] =>
      change (get (object [("concepts", VArr cs); ("dependencies", VObj ds)]) $"concepts")
        with (VArr cs);
      change (get (object [("concepts", VArr cs); ("dependencies", VObj ds)]) $"dependencies")
        with (VObj ds)
  end.
  cbn [truthy KnowledgeGraph.entries object]. rewrite push_entries_chain.
  cbn [bind app]. reflexivity.
Qed.

Lemma NoDup_map_in {A B : Type} (f : A -> B) (l : list A) :
  (forall a b, In a l -> In b l -> f a = f b -> a = b) -> NoDup l -> NoDup (List.map f l).
Proof.
  intros Hf Hl. induction Hl as [|x l Hx Hl IH]; cbn [List.map]; constructor.
  - intros H. apply in_map_iff in H as (y & E & Hy).
    assert (y = x) as -> by (apply Hf; [now right|now left|exact E]). contradiction.
  - apply IH. intros a b Ha Hb. apply Hf; now right.
Qed.

Lemma NoDup_upto (n : Z) : NoDup (upto n).
Proof.
  unfold upto. apply NoDup_map_in; [|apply seq_NoDup].
  intros a b _ _ H. lia.
Qed.

Lemma difficulty_colour (d : Z) :
  (1 <= d <= 5)%Z -> In (getDifficultyColor d) (List.map lit colors).
Proof.
  intros H.
  assert (d = 1 \/ d = 2 \/ d = 3 \/ d = 4 \/ d = 5)%Z as [->|[->|[->|[->| ->]]]] by lia;
    cbn; tauto.
Qed.

(** X22.  Every graph the local generator makes is kept by the client,
    loads and renders: its nodes have pairwise different ids, one per
    concept; both ends of every edge are ids of nodes; every node is in a
    group [level1] to [level6] and has one of the five difficulty colours,
    never the default one. *)
Theorem generated_graph_renders (subject : option str) (numConcepts : option Z) :
  exists g nodes,
    Client.load_graph (generateKnowledgeGraph subject numConcepts) = Normal g
    /\ renderKnowledgeGraph g = Some (nodes, KnowledgeGraph.edges g)
    /\ length nodes = Z.to_nat (default numConcepts 6%Z)
    /\ NoDup (List.map id nodes)
    /\ (forall e, In e (KnowledgeGraph.edges g) ->
          (exists a, In a nodes /\ KnowledgeGraph.from e = VStr (id a))
          /\ In (KnowledgeGraph.to e) (List.map id nodes))
    /\ (forall a, In a nodes ->
          In (color a) (List.map lit colors)
          /\ color a <> $"#6366f1"
          /\ exists l, (1 <= l <= 6)%Z /\ group a = $"level" ++ number_to_string l).
Proof.
  set (s := default subject $"Mathematics"). set (n := default numConcepts 6%Z).
  assert (generateKnowledgeGraph subject numConcepts = generateKnowledgeGraph (Some s) (Some n))
    as -> by reflexivity.
  assert (Client.load_graph (generateKnowledgeGraph (Some s) (Some n))
          = KnowledgeGraph.setData (generateKnowledgeGraph (Some s) (Some n))) as ->
      by reflexivity.
  rewrite setData_generated.
  eexists _, _. split; [reflexivity|].
  unfold renderKnowledgeGraph. cbn [KnowledgeGraph.nodes KnowledgeGraph.edges].
  rewrite read_all_generated. split; [reflexivity|].
  rewrite !List.map_map. cbn [visNode id name].
  split; [now rewrite length_map, length_upto|].
  split.
  { apply NoDup_map_in; [|apply NoDup_upto].
    intros a b _ _ H. now apply concept_name_inj in H. }
  split.
  - intros e He. unfold chain_edges in He. apply in_map_iff in He as (i & <- & Hi).
    apply in_seq in Hi. cbn [KnowledgeGraph.from KnowledgeGraph.to]. split.
    + eexists. split.
      * apply in_map_iff. exists (Z.of_nat i - 1)%Z. split; [reflexivity|].
        apply in_upto. lia.
      * reflexivity.
    + apply in_map_iff. exists (Z.of_nat i). split; [reflexivity|apply in_upto; lia].
  - intros a Ha. apply in_map_iff in Ha as (i & <- & Hi). apply in_upto in Hi.
    cbn [color group level difficulty].
    pose proof (concept_difficulty_range i ltac:(lia)) as Hd.
    split; [now apply difficulty_colour|]. split.
    + assert (concept_difficulty i = 1 \/ concept_difficulty i = 2 \/ concept_difficulty i = 3
              \/ concept_difficulty i = 4 \/ concept_difficulty i = 5)%Z
        as [->|[->|[->|[->| ->]]]] by lia; discriminate.
    + exists (concept_level n i). split; [apply concept_level_range|reflexivity].
Qed.

(** X23.  A difficulty from 1 to 5 gets its own colour of the five; every
    other integer, zero and the negative ones too, gets the default
    colour, which is none of the five. *)
Theorem difficulty_colour_bounds (d : Z) :
  ((1 <= d <= 5)%Z ->
   nth_error (List.map lit colors) (Z.to_nat (d - 1)) = Some (getDifficultyColor d))
  /\ (getDifficultyColor d = $"#6366f1" <-> (d < 1 \/ 5 < d)%Z)
  /\ ~ In $"#6366f1" (List.map lit colors).
Proof.
  split; [|split].
  - intros H.
    assert (d = 1 \/ d = 2 \/ d = 3 \/ d = 4 \/ d = 5)%Z as [->|[->|[->|[->| ->]]]] by lia;
      reflexivity.
  - split.
    + intros H. destruct (Z.leb_spec 1 d) as [L|L]; [|lia].
      destruct (Z.leb_spec d 5) as [U|U]; [|lia]. exfalso.
      assert (d = 1 \/ d = 2 \/ d = 3 \/ d = 4 \/ d = 5)%Z as [->|[->|[->|[->| ->]]]] by lia;
        discriminate.
    + intros [H|H]; unfold getDifficultyColor.
      * destruct (Z.leb_spec 1 d); [lia|reflexivity].
      * destruct (Z.leb_spec 1 d); [|reflexivity].
        destruct (Z.to_nat (d - 1)) as [|[|[|[|[|k]]]]] eqn:E; try lia. destruct k; reflexivity.
  - cbn. intros [H|[H|[H|[H|[H|[]]]]]]; discriminate.
Qed.

End RenderFacts.

(* ================================================================== *)
(** ** The chart series *)

Module ChartFacts.

Import Charts.

Lemma length_slice_last {A : Type} (n : nat) (l : list A) :
  length (slice_last n l) = Nat.min n (length l).
Proof. unfold slice_last. rewrite length_skipn. lia. Qed.

Lemma nth_slice_last {A : Type} (n i : nat) (l : list A) (d : A) :
  nth i (slice_last n l) d = nth (length l - n + i) l d.
Proof. unfold slice_last. apply nth_skipn. Qed.

(** X24.  The charts show the last ten sessions at most, oldest first: one
    label [Session 1], [Session 2], ... and one topic label per score, the
    scores being those of the last sessions of the history in their order,
    and every topic label having from 1 to 10 code units. *)
Theorem charts_show_the_last_ten (sessionHistory : list LearningEngine.entry) :
  let shown := Nat.min 10 (length sessionHistory) in
  let s := updateCharts sessionHistory in
  length (labels s) = shown
  /\ length (scores s) = shown
  /\ length (masteryLabels s) = shown
  /\ (forall i, i < shown ->
        nth i (labels s) [] = $"Session " ++ number_to_string (Z.of_nat i + 1)
        /\ forall d,
             nth i (scores s) (LearningEngine.score d)
             = LearningEngine.score (nth (length sessionHistory - shown + i) sessionHistory d))
  /\ Forall (fun l => 1 <= length l <= 10) (masteryLabels s).
Proof.
  cbv zeta. unfold updateCharts. cbn [labels scores masteryLabels].
  rewrite !length_map, length_seq, !length_slice_last.
  repeat split.
  - rewrite (nth_indep _ [] ($"Session " ++ number_to_string (Z.of_nat 0 + 1)))
      by (rewrite length_map, length_seq; exact H).
    rewrite (map_nth (fun i => $"Session " ++ number_to_string (Z.of_nat i + 1))).
    rewrite seq_nth by exact H. reflexivity.
  - intros d. rewrite map_nth, nth_slice_last. f_equal. f_equal. lia.
  - apply Forall_forall. intros l Hl. apply in_map_iff in Hl as (e & <- & _).
    unfold substring0. rewrite length_firstn.
    destruct (LearningEngine.topic e) as [|c t]; [vm_compute; lia|cbn [length]; lia].
Qed.

End ChartFacts.

(* ================================================================== *)
(** ** Profile labels and the theme colour *)

Module PersonalFacts.

Import LearningEngine PersonalizationEngine.

Lemma analyze_labelled (this : t) (s : entry) (h : list entry) :
  labelled (fst (analyzeLearnerProfile this (Some (s :: h)))).
Proof.
  unfold analyzeLearnerProfile, labelled. cbn [fst skillLevel pace consistency].
  repeat split;
    repeat match goal with |- context [if ?c then _ else _] => destruct c end;
    cbn [In]; tauto.
Qed.

(** X25.  An engine whose profile carries labels of its own ladders keeps
    such a profile through every analysis, of an empty history too, and the
    theme colour of the skill level it returns is one of the three theme
    colours. *)
Theorem profile_labels_have_a_theme (this : t) (sessionData : option (list entry)) :
  labelled (learnerProfile this) ->
  labelled (fst (analyzeLearnerProfile this sessionData))
  /\ labelled (learnerProfile (snd (analyzeLearnerProfile this sessionData)))
  /\ exists c,
       getCustomUIColor (skillLevel (fst (analyzeLearnerProfile this sessionData))) = Colour c
       /\ In c [ $"#6366f1"; $"#f59e0b"; $"#10b981" ].
Proof.
  intros H.
  assert (labelled (fst (analyzeLearnerProfile this sessionData))
          /\ learnerProfile (snd (analyzeLearnerProfile this sessionData))
             = fst (analyzeLearnerProfile this sessionData)) as [L E].
  { destruct sessionData as [[|s h]|]; [split; [exact H|reflexivity]| |split; [exact H|reflexivity]].
    split; [apply analyze_labelled|reflexivity]. }
  rewrite E. split; [exact L|split; [exact L|]].
  destruct L as (L & _). cbn [In] in L.
  destruct L as [<-|[<-|[<-|[]]]]; eexists; (split; [reflexivity|]); cbn [In]; tauto.
Qed.

Lemma profile_labels_have_a_theme_witness :
  labelled (fst (analyzeLearnerProfile create (Some [good_session])))
  /\ labelled (learnerProfile (snd (analyzeLearnerProfile create (Some [good_session]))))
  /\ exists c,
       getCustomUIColor (skillLevel (fst (analyzeLearnerProfile create (Some [good_session]))))
       = Colour c
       /\ In c [ $"#6366f1"; $"#f59e0b"; $"#10b981" ].
Proof.
  apply (profile_labels_have_a_theme create (Some [good_session])).
  repeat split; cbn; tauto.
Defined.

End PersonalFacts.

(* ================================================================== *)
(** ** Loading a graph *)

Module GraphFacts.

Import KnowledgeGraph.

Lemma push_entries_all (es : list (str * value)) :
  forall acc,
    match push_entries acc es with
    | Normal edges =>
        forallb (fun kv => isArray (snd kv)) es = true /\ edges = acc ++ dependency_edges es
    | Throw e =>
        forallb (fun kv => isArray (snd kv)) es = false /\ exists m, e = TypeError m
    end.
Proof.
  induction es as [|[target sources] es IH]; intros acc; cbn [push_entries].
  - split; [reflexivity|now rewrite app_nil_r].
  - destruct sources as [| | | | |items|props]; cbn [push_sources bind forallb snd isArray andb];
      try (split; [reflexivity|eexists; reflexivity]).
    specialize (IH (acc ++ List.map (fun source => {| from := source; to := target |}) items)).
    destruct (push_entries _ es) as [edges|e].
    + destruct IH as [F ->]. split; [exact F|].
      cbn [dependency_edges flat_map snd fst]. now rewrite <- app_assoc.
    + exact IH.
Qed.

(** X26.  [setData] loads a graph exactly when its argument is neither
    [null] nor [undefined] and every value of the dependency mapping is an
    array; the edges are then one per listed prerequisite, from the
    prerequisite to the concept, in the order of the mapping, and replace
    whatever a graph held before.  In every other case it throws a
    [TypeError]. *)
Theorem setData_loads_or_throws (data : value) :
  match setData data with
  | Normal g =>
      data <> VUndefined /\ data <> VNull
      /\ forallb (fun kv => isArray (snd kv)) (entries (dependencies_of data)) = true
      /\ edges g = dependency_edges (entries (dependencies_of data))
      /\ dependencies g = dependencies_of data
      /\ nodes g = (if truthy (get data $"concepts") then get data $"concepts" else VArr [])
  | Throw e =>
      (data = VUndefined \/ data = VNull
       \/ forallb (fun kv => isArray (snd kv)) (entries (dependencies_of data)) = false)
      /\ exists m, e = TypeError m
  end.
Proof.
  unfold setData.
  destruct data; try (split; [tauto|eexists; reflexivity]);
    match goal with
    | |- context [push_entries [] ?es] =>
        pose proof (push_entries_all es []) as H; destruct (push_entries [] es) as [edges|e]
    end; cbn [bind];
    try (destruct H as [F E]; repeat split; try discriminate; assumption);
    try (destruct H as [F E]; split; [right; right; exact F|exact E]).
Qed.

End GraphFacts.

(* ================================================================== *)
(** ** The extractor: an apostrophe in a value *)

Module ApostropheFacts.

Import Pattern Json RepairFacts.

(** The quote pattern turns every apostrophe into a double quote. *)
Lemma replace_single_quote (s : str) : replace single_quote s = List.map requote s.
Proof.
  unfold replace. induction s as [|c s IH]; [reflexivity|].
  cbn [replace_all List.map]. unfold single_quote at 1, requote at 1.
  destruct (c =? Ch.SQUOTE)%N; cbn [app replace_all]; now rewrite IH.
Qed.

Lemma loose_char (c : N) :
  loose c = true ->
  (32 <= c)%N /\ c <> 34%N /\ c <> 92%N /\ c <> 44%N /\ c <> 58%N /\ c <> 96%N.
Proof.
  unfold loose. intros H. apply orb_true_iff in H as [H|H].
  - apply plain_char in H. tauto.
  - apply N.eqb_eq in H. subst c. unfold Ch.SQUOTE. repeat split; lia.
Qed.

Lemma skip_ws_keeps_quote (a b : str) : skip_ws (a ++ Ch.DQUOTE :: b) <> [].
Proof.
  induction a as [|c a IH]; cbn [app skip_ws]; [discriminate|].
  destruct (is_ws c); [exact IH|discriminate].
Qed.

Section Apostrophe.

Variables k v1 v2 : str.
Hypothesis key_nonempty : k <> [].
Hypothesis key_word : forallb is_word k = true.
Hypothesis before_plain : forallb plain v1 = true.
Hypothesis after_loose : forallb loose v2 = true.

Let v := v1 ++ Ch.SQUOTE :: v2.

Lemma value_loose : forallb loose v = true.
Proof.
  unfold v. rewrite forallb_app. cbn [forallb].
  apply andb_true_iff. split; [|apply andb_true_iff; split; [reflexivity|exact after_loose]].
  rewrite forallb_forall in *. intros c Hc. unfold loose. now rewrite before_plain.
Qed.

(** A property of characters that the key's and the value's have holds of
    every character of the object literal, given that it holds of the
    punctuation. *)
Lemma every (p : N -> bool) (more : str) :
  (forall c, is_word c = true -> p c = true) ->
  (forall c, loose c = true -> p c = true) ->
  forallb p [Ch.LBRACE; Ch.COLON; Ch.SPACE; Ch.DQUOTE] = true ->
  forallb p more = true ->
  forallb p ([Ch.LBRACE] ++ k ++ [Ch.COLON; Ch.SPACE; Ch.DQUOTE] ++ v ++ Ch.DQUOTE :: more) = true.
Proof.
  intros Hw Hp Hpunct Hmore.
  cbn [forallb] in Hpunct. char_facts.
  rewrite !forallb_app. cbn [forallb].
  assert (forallb p k = true) as ->
      by (rewrite forallb_forall in *; intros c Hc; apply Hw, key_word, Hc).
  assert (forallb p v = true) as ->
      by (pose proof value_loose as L; rewrite forallb_forall in *;
          intros c Hc; apply Hp, L, Hc).
  repeat match goal with H : p _ = true |- _ => rewrite H; clear H end.
  rewrite Hmore. reflexivity.
Qed.

Lemma strip_fences_apostrophe : strip_fences (bare_object k v) = bare_object k v.
Proof.
  assert (forallb (fun c => negb (c =? Ch.BACKTICK)%N) (bare_object k v) = true) as Hticks.
  { apply every; try reflexivity.
    - intros c Hc. apply word_char in Hc. char_goal. unfold Ch.BACKTICK. lia.
    - intros c Hc. apply loose_char in Hc. char_goal. unfold Ch.BACKTICK. lia. }
  unfold strip_fences.
  rewrite (replace_untouched fence_open _ (bare_object k v) fence_open_trigger Hticks).
  rewrite (replace_untouched fence _ (bare_object k v) fence_trigger Hticks).
  rewrite bare_object_last. unfold trim.
  change (drop_spaces (Ch.LBRACE :: ?x)) with (Ch.LBRACE :: x).
  unfold trim_end. rewrite app_comm_cons, rev_app_distr.
  cbn [rev app]. change (drop_spaces (Ch.RBRACE :: ?x)) with (Ch.RBRACE :: x).
  cbn [rev]. rewrite rev_app_distr, rev_involutive. reflexivity.
Qed.

Lemma candidate_of_apostrophe (expected : value) :
  expected = VUndefined \/ expected = text "object" ->
  candidate_of (expected_or_object expected) (bare_object k v) = bare_object k v.
Proof.
  intros He.
  assert (bracket_span Ch.LBRACE Ch.RBRACE (bare_object k v) = Some (bare_object k v)) as Hspan.
  { rewrite bare_object_last. unfold bracket_span.
    change (from_first Ch.LBRACE (Ch.LBRACE :: ?x)) with (Some (Ch.LBRACE :: x)).
    unfold through_last. rewrite rev_app_distr. cbn [rev app].
    change (from_first Ch.RBRACE (Ch.RBRACE :: ?x)) with (Some (Ch.RBRACE :: x)).
    cbn [option_map rev]. now rewrite rev_involutive. }
  unfold candidate_of. rewrite Hspan.
  destruct He as [-> | ->]; reflexivity.
Qed.

(** The strict parse stops at the bare key. *)
Lemma strict_parse_apostrophe : JSON_parse (bare_object k v) = Throw unexpected_token.
Proof.
  destruct k as [|c k'] eqn:Ek; [contradiction|].
  cbn [forallb] in key_word. apply andb_true_iff in key_word as [Hc _].
  apply word_char in Hc as (Hc1 & Hc2).
  assert (is_ws c = false) as Hws by (unfold is_ws, Ch.TAB, Ch.LF, Ch.CR, Ch.SPACE; char_goal; lia).
  assert ((c =? Ch.RBRACE)%N = false) as Hrb by (unfold Ch.RBRACE; char_goal; lia).
  assert ((c =? Ch.DQUOTE)%N = false) as Hdq by (unfold Ch.DQUOTE; char_goal; lia).
  unfold JSON_parse, bare_object.
  cbn [app length Nat.mul Nat.add parse_value]. known_chars.
  rewrite (skip_ws_head c _ Hws), Hrb.
  cbn [parse_members]. rewrite (skip_ws_head c _ Hws), Hdq. reflexivity.
Qed.

(** The repairs quote the key, drop the comma, and close the value's string
    at its first apostrophe. *)
Lemma repair_apostrophe :
  repair (bare_object k v)
  = [Ch.LBRACE; Ch.DQUOTE] ++ k ++ [Ch.DQUOTE; Ch.COLON; Ch.SPACE; Ch.DQUOTE]
    ++ v1 ++ Ch.DQUOTE :: List.map requote v2 ++ [Ch.DQUOTE; Ch.RBRACE].
Proof.
  unfold repair.
  rewrite (replace_untouched newline (fun c => (c =? Ch.LF) || (c =? Ch.CR))%N
             (bare_object k v) newline_trigger).
  2:{ apply every; try reflexivity.
      - intros c Hc. apply word_char in Hc. unfold Ch.LF, Ch.CR. char_goal; lia.
      - intros c Hc. apply loose_char in Hc. unfold Ch.LF, Ch.CR. char_goal; lia. }
  assert (replace (trailing_comma Ch.RBRACE) (bare_object k v)
          = [Ch.LBRACE] ++ k ++ [Ch.COLON; Ch.SPACE; Ch.DQUOTE] ++ v ++ [Ch.DQUOTE; Ch.RBRACE])
    as ->.
  { unfold replace, bare_object.
    replace ([Ch.LBRACE] ++ k ++ [Ch.COLON; Ch.SPACE; Ch.DQUOTE] ++ v
             ++ [Ch.DQUOTE; Ch.COMMA; Ch.RBRACE])
      with (([Ch.LBRACE] ++ k ++ [Ch.COLON; Ch.SPACE; Ch.DQUOTE] ++ v ++ [Ch.DQUOTE])
            ++ [Ch.COMMA; Ch.RBRACE])
      by same_text.
    rewrite (replace_untriggered (trailing_comma Ch.RBRACE) (fun c => c =? Ch.COMMA)%N
               (trailing_comma_trigger Ch.RBRACE)).
    - cbn [replace_all]. known_chars. same_text.
    - apply every; try reflexivity.
      + intros c Hc. apply word_char in Hc. unfold Ch.COMMA. char_goal; lia.
      + intros c Hc. apply loose_char in Hc. unfold Ch.COMMA. char_goal; lia. }
  rewrite (replace_untouched (trailing_comma Ch.RBRACKET) (fun c => c =? Ch.COMMA)%N
             _ (trailing_comma_trigger Ch.RBRACKET)).
  2:{ apply every; try reflexivity.
      - intros c Hc. apply word_char in Hc. unfold Ch.COMMA. char_goal; lia.
      - intros c Hc. apply loose_char in Hc. unfold Ch.COMMA. char_goal; lia. }
  rewrite replace_single_quote.
  assert (List.map requote
            ([Ch.LBRACE] ++ k ++ [Ch.COLON; Ch.SPACE; Ch.DQUOTE] ++ v ++ [Ch.DQUOTE; Ch.RBRACE])
          = Ch.LBRACE :: k ++ Ch.COLON :: Ch.SPACE :: Ch.DQUOTE :: v1
            ++ Ch.DQUOTE :: List.map requote v2 ++ [Ch.DQUOTE; Ch.RBRACE]) as ->.
  { unfold v. rewrite !List.map_app. cbn [List.map app].
    change (requote Ch.LBRACE) with Ch.LBRACE. change (requote Ch.COLON) with Ch.COLON.
    change (requote Ch.SPACE) with Ch.SPACE. change (requote Ch.DQUOTE) with Ch.DQUOTE.
    change (requote Ch.RBRACE) with Ch.RBRACE.
    assert (List.map requote k = k) as ->.
    { rewrite <- (map_id k) at 2. apply map_ext_in. intros c Hc.
      rewrite forallb_forall in key_word. apply key_word, word_char in Hc.
      unfold requote. replace (c =? Ch.SQUOTE)%N with false; [reflexivity|].
      symmetry. unfold Ch.SQUOTE. char_goal. lia. }
    assert (List.map requote v1 = v1) as ->.
    { rewrite <- (map_id v1) at 2. apply map_ext_in. intros c Hc.
      rewrite forallb_forall in before_plain. apply before_plain, plain_char in Hc.
      unfold requote. replace (c =? Ch.SQUOTE)%N with false; [reflexivity|].
      symmetry. unfold Ch.SQUOTE. char_goal. lia. }
    cbn [List.map]. change (requote Ch.SQUOTE) with Ch.DQUOTE. same_text. }
  unfold replace. cbn [replace_all].
  rewrite (bare_key_quotes k _ key_nonempty key_word).
  replace (length k + 0 + 1) with (length (k ++ [Ch.COLON]) + 0)
    by (rewrite length_app; cbn [length]; lia).
  match goal with
  | |- context [replace_all bare_key _ (k ++ Ch.COLON :: ?rest)] =>
      replace (k ++ Ch.COLON :: rest) with ((k ++ [Ch.COLON]) ++ rest) by same_text
  end.
  rewrite replace_all_skip.
  rewrite replace_bare_key_no_colon.
  - same_text.
  - cbn [forallb]. rewrite !forallb_app. cbn [forallb]. rewrite forallb_app. cbn [forallb].
    assert (forallb (fun c => negb (c =? Ch.COLON)%N) v1 = true) as ->.
    { rewrite forallb_forall in *. intros c Hc. apply before_plain, plain_char in Hc.
      unfold Ch.COLON. char_goal; lia. }
    assert (forallb (fun c => negb (c =? Ch.COLON)%N) (List.map requote v2) = true) as ->.
    { rewrite forallb_forall in *. intros c Hc. apply in_map_iff in Hc as (c0 & <- & Hc0).
      apply after_loose, loose_char in Hc0. unfold requote.
      destruct (c0 =? Ch.SQUOTE)%N; [reflexivity|]. unfold Ch.COLON. char_goal; lia. }
    reflexivity.
Qed.

(** After the string that the first apostrophe closed, the parser finds
    neither a comma nor the end of the object. *)
Lemma after_the_value (x : str) (o : list (str * value)) (more : str -> parsed value) :
  forallb (fun c => negb (c =? Ch.COMMA)%N) x = true ->
  match
    match skip_ws (x ++ [Ch.DQUOTE; Ch.RBRACE]) with
    | c3 :: r4 =>
        if (c3 =? Ch.COMMA)%N then more r4
        else if (c3 =? Ch.RBRACE)%N then Parsed (VObj o) r4
        else Unexpected
    | [] => Unexpected
    end
  with
  | Parsed val rest =>
      match skip_ws rest with
      | [] => Normal val
      | _ :: _ => Throw unexpected_token
      end
  | Unexpected | Exhausted => Throw unexpected_token
  end = Throw unexpected_token.
Proof.
  intros Hx. induction x as [|c x IH]; [reflexivity|].
  cbn [forallb] in Hx. apply andb_true_iff in Hx as [Hc Hx]. apply negb_true_iff in Hc.
  cbn [app skip_ws]. destruct (is_ws c); [exact (IH Hx)|].
  rewrite Hc. destruct (c =? Ch.RBRACE)%N; [|reflexivity].
  destruct (skip_ws (x ++ [Ch.DQUOTE; Ch.RBRACE])) eqn:E; [|reflexivity].
  exfalso. exact (skip_ws_keeps_quote x [Ch.RBRACE] E).
Qed.

Lemma retry_parse_apostrophe : JSON_parse (repair (bare_object k v)) = Throw unexpected_token.
Proof.
  rewrite repair_apostrophe.
  unfold JSON_parse.
  cbn [app length Nat.mul Nat.add parse_value]. known_chars.
  cbn [parse_members]. known_chars.
  assert (forallb literal k = true) as Lk.
  { rewrite forallb_forall in *. intros c Hc. apply key_word in Hc. apply word_char in Hc.
    unfold literal, Ch.DQUOTE, Ch.BACKSLASH. char_goal; lia. }
  assert (forallb literal v1 = true) as Lv.
  { rewrite forallb_forall in *. intros c Hc. apply before_plain in Hc. apply plain_char in Hc.
    unfold literal, Ch.DQUOTE, Ch.BACKSLASH. char_goal; lia. }
  rewrite (string_body_literal k _ Lk). known_chars.
  cbn [parse_value]. known_chars.
  rewrite (string_body_literal v1 _ Lv). cbn [pmap]. known_chars. cbn [obj_set].
  match goal with
  | |- context [skip_ws (?x ++ [Ch.DQUOTE; Ch.RBRACE])] =>
      match goal with
      | |- context [Parsed (VObj ?o) _] =>
          refine (after_the_value x o _ _)
      end
  end.
  rewrite forallb_forall in *. intros c Hc. apply in_map_iff in Hc as (c0 & <- & Hc0).
  apply after_loose, loose_char in Hc0. unfold requote.
  destruct (c0 =? Ch.SQUOTE)%N; [reflexivity|]. unfold Ch.COMMA. char_goal; lia.
Qed.

End Apostrophe.

(** X28.  An apostrophe in a string value defeats the repair.  For an
    object literal with one unquoted key, a trailing comma and a string
    value that holds an apostrophe (its other characters plain), the
    extractor returns [null]: the quote repair turns the apostrophe into a
    double quote, which ends the string early. *)
Theorem apostrophe_in_value_is_not_recovered (k v1 v2 : str) (expected : value) :
  k <> [] -> forallb is_word k = true ->
  forallb plain v1 = true ->
  forallb loose v2 = true ->
  expected = VUndefined \/ expected = text "object" ->
  parseJSONFromText (VStr (bare_object k (v1 ++ Ch.SQUOTE :: v2))) expected = Normal VNull.
Proof.
  intros Hk Hw H1 H2 He.
  rewrite parseJSONFromText_unfold by discriminate.
  unfold strict_parse, retry_parse.
  rewrite (strip_fences_apostrophe k v1 v2 Hw H1 H2).
  rewrite (candidate_of_apostrophe k v1 v2 expected He).
  rewrite (strict_parse_apostrophe k v1 v2 Hk Hw).
  rewrite (retry_parse_apostrophe k v1 v2 Hk Hw H1 H2).
  reflexivity.
Qed.

Lemma apostrophe_in_value_is_not_recovered_witness :
  parseJSONFromText (VStr (bare_object $"title" ($"Newton" ++ Ch.SQUOTE :: $"s laws")))
    VUndefined
  = Normal VNull.
Proof.
  apply (apostrophe_in_value_is_not_recovered $"title" $"Newton" $"s laws" VUndefined);
    try reflexivity.
  - discriminate.
  - left; reflexivity.
Defined.

End ApostropheFacts.

(* ================================================================== *)
(** ** The extractor: a comma before the closing bracket *)

Module TrailingCommaFacts.

Import Pattern Json RepairFacts.

Lemma elements_cons (x y : list N) (l : list (list N)) :
  elements (x :: y :: l) = quoted x ++ [Ch.COMMA; Ch.SPACE] ++ elements (y :: l).
Proof. reflexivity. Qed.

(** A property of characters that plain characters and the punctuation have
    holds of the elements. *)
Lemma every_element (p : N -> bool) (items : list str) :
  Forall (fun x => forallb plain x = true) items ->
  (forall c, plain c = true -> p c = true) ->
  p Ch.DQUOTE = true -> p Ch.COMMA = true -> p Ch.SPACE = true ->
  forallb p (elements items) = true.
Proof.
  intros Hitems Hp Hq Hc Hs. induction Hitems as [|x l Hx Hl IH]; [reflexivity|].
  assert (forallb p (quoted x) = true) as Q.
  { unfold quoted. rewrite !forallb_app. cbn [forallb]. rewrite Hq.
    replace (forallb p x) with true; [reflexivity|].
    symmetry. rewrite forallb_forall in *. intros c Hin. apply Hp, Hx, Hin. }
  destruct l as [|y l]; [exact Q|].
  rewrite elements_cons, !forallb_app, Q.
  rewrite IH. cbn [forallb]. now rewrite Hc, Hs.
Qed.

Lemma replace_all_unmatched (m : str -> option (nat * str)) (c : N) (s : str) :
  m (c :: s) = None -> replace_all m 0 (c :: s) = c :: replace_all m 0 s.
Proof. intros H. cbn [replace_all]. now rewrite H. Qed.

(** Neither comma pattern matches at a comma between two elements. *)
Lemma commas_between_stay (close : N) (items : list str) (rest : str) :
  Forall (fun x => forallb plain x = true) items ->
  (Ch.DQUOTE =? close)%N = false ->
  replace_all (trailing_comma close) 0 (elements items ++ rest)
  = elements items ++ replace_all (trailing_comma close) 0 rest.
Proof.
  intros Hitems Hclose. induction Hitems as [|x l Hx Hl IH]; [reflexivity|].
  assert (forall more,
             replace_all (trailing_comma close) 0 (quoted x ++ more)
             = quoted x ++ replace_all (trailing_comma close) 0 more) as Q.
  { intros more.
    apply (replace_untriggered (trailing_comma close) (fun c => c =? Ch.COMMA)%N
             (trailing_comma_trigger close)).
    unfold quoted. rewrite !forallb_app. cbn [forallb].
    replace (forallb (fun c => negb (c =? Ch.COMMA)%N) x) with true; [reflexivity|].
    symmetry. rewrite forallb_forall in *. intros c Hin. apply Hx, plain_char in Hin.
    unfold Ch.COMMA. char_goal; lia. }
  destruct l as [|y l]; [apply Q|].
  rewrite elements_cons, <- !app_assoc, Q. f_equal.
  assert (exists t, elements (y :: l) ++ rest = Ch.DQUOTE :: t) as [t Et]
      by (destruct l; eexists; reflexivity).
  rewrite <- IH, Et. cbn [app].
  assert (trailing_comma close (Ch.COMMA :: Ch.SPACE :: Ch.DQUOTE :: t) = None) as T1.
  { unfold trailing_comma. known_chars.
    change (count_spaces (Ch.SPACE :: Ch.DQUOTE :: t)) with 1. cbn [skipn].
    now rewrite Hclose. }
  rewrite (replace_all_unmatched _ _ _ T1).
  rewrite (replace_all_unmatched _ _ _ (trailing_comma_trigger close Ch.SPACE _ eq_refl)).
  reflexivity.
Qed.

Lemma length_elements (items : list (list N)) : length items <= length (elements items).
Proof.
  induction items as [|x l IH]; [apply Nat.le_refl|].
  destruct l as [|y l].
  - unfold elements, quoted. rewrite !length_app. cbn [length]. lia.
  - rewrite elements_cons, !length_app. unfold quoted. rewrite !length_app.
    cbn [length] in *. lia.
Qed.

Lemma literal_of_plain (x : str) : forallb plain x = true -> forallb literal x = true.
Proof.
  intros H. rewrite forallb_forall in *. intros c Hc. apply H, plain_char in Hc.
  unfold literal, Ch.DQUOTE, Ch.BACKSLASH. char_goal; lia.
Qed.

Lemma parse_elements_step (f : nat) (acc : list value) (s : str) :
  parse_elements (S f) acc s
  = match parse_value f s with
    | Parsed v r1 =>
        match skip_ws r1 with
        | c :: r2 =>
            if (c =? Ch.COMMA)%N then parse_elements f (acc ++ [v]) r2
            else if (c =? Ch.RBRACKET)%N then Parsed (VArr (acc ++ [v])) r2
            else Unexpected
        | [] => Unexpected
        end
    | Unexpected => Unexpected
    | Exhausted => Exhausted
    end.
Proof. reflexivity. Qed.

Lemma parse_quoted (f : nat) (sp : bool) (x more : str) :
  forallb plain x = true ->
  parse_value (S f) ((if sp then [Ch.SPACE] else @nil N) ++ quoted x ++ more)
  = Parsed (VStr x) more.
Proof.
  intros Hx. unfold quoted. destruct sp; cbn [app parse_value]; known_chars;
    rewrite <- app_assoc; cbn [app];
    now rewrite (string_body_literal x more (literal_of_plain x Hx)).
Qed.

(** The elements, read as the elements of an array up to its bracket. *)
Lemma parse_elements_strings (items : list str) :
  Forall (fun x => forallb plain x = true) items -> items <> [] ->
  forall f acc (sp : bool) rest,
    length items < f ->
    parse_elements f acc ((if sp then [Ch.SPACE] else @nil N) ++ elements items
                          ++ Ch.RBRACKET :: rest)
    = Parsed (VArr (acc ++ List.map VStr items)) rest.
Proof.
  intros Hp. induction Hp as [|x l Hx Hl IH]; [contradiction|]. intros _ f acc sp rest Hf.
  destruct f as [|[|f]]; cbn [length] in Hf; try lia.
  rewrite parse_elements_step.
  destruct l as [|y l].
  - cbn [elements]. rewrite parse_quoted by exact Hx.
    known_chars. known_chars. reflexivity.
  - rewrite elements_cons, <- !app_assoc, parse_quoted by exact Hx.
    cbn [app]. known_chars. known_chars.
    pose proof (IH ltac:(discriminate) (S f) (acc ++ [VStr x]) true rest
                  ltac:(cbn [length] in *; lia)) as E.
    cbn [app] in E. rewrite E.
    cbn [List.map]. now rewrite <- app_assoc.
Qed.

(** With the comma before the bracket, the strict parse fails. *)
Lemma parse_elements_trailing (items : list str) :
  Forall (fun x => forallb plain x = true) items -> items <> [] ->
  forall f acc (sp : bool) rest v r,
    parse_elements f acc ((if sp then [Ch.SPACE] else @nil N) ++ elements items
                          ++ Ch.COMMA :: Ch.RBRACKET :: rest)
    <> Parsed v r.
Proof.
  intros Hp. induction Hp as [|x l Hx Hl IH]; [contradiction|]. intros _ f acc sp rest v r.
  destruct f as [|[|f]]; [discriminate|destruct sp; discriminate|].
  rewrite parse_elements_step.
  destruct l as [|y l].
  - cbn [elements]. rewrite parse_quoted by exact Hx.
    known_chars. known_chars.
    destruct f as [|f]; [discriminate|]. rewrite parse_elements_step.
    destruct f as [|f]; [discriminate|].
    cbn [parse_value]. known_chars. known_chars. discriminate.
  - rewrite elements_cons, <- !app_assoc, parse_quoted by exact Hx.
    cbn [app]. known_chars. known_chars.
    exact (IH ltac:(discriminate) (S f) (acc ++ [VStr x]) true rest v r).
Qed.

(** X30.  A comma before the closing bracket is repaired.  For an array of
    one or more string literals of plain characters with a trailing comma,
    the strict parse fails, the repair drops that comma and no other, and
    the extractor, asked for an array, returns the array of the strings. *)
Theorem trailing_comma_array_recovered (items : list str) :
  items <> [] ->
  Forall (fun x => forallb plain x = true) items ->
  failed (JSON_parse (array_with_trailing_comma items))
  /\ repair (array_with_trailing_comma items) = [Ch.LBRACKET] ++ elements items ++ [Ch.RBRACKET]
  /\ parseJSONFromText (VStr (array_with_trailing_comma items)) (text "array")
     = Normal (VArr (List.map VStr items)).
Proof.
  intros Hne Hp.
  assert (forall p : N -> bool,
             (forall c, plain c = true -> p c = true) ->
             forallb p [Ch.DQUOTE; Ch.COMMA; Ch.SPACE; Ch.LBRACKET; Ch.RBRACKET] = true ->
             forall more, forallb p more = true ->
             forallb p ([Ch.LBRACKET] ++ elements items ++ more) = true) as every.
  { intros p Hplain Hpunct more Hmore. cbn [forallb] in Hpunct. char_facts.
    rewrite !forallb_app. cbn [forallb].
    rewrite (every_element p items Hp) by assumption.
    repeat match goal with H : p _ = true |- _ => rewrite H; clear H end.
    exact Hmore. }
  (* the strict parse *)
  assert (JSON_parse (array_with_trailing_comma items) = Throw unexpected_token) as Hstrict.
  { unfold JSON_parse, array_with_trailing_comma.
    cbn [app length Nat.mul Nat.add parse_value]. known_chars.
    assert (exists t, elements items ++ [Ch.COMMA; Ch.RBRACKET] = Ch.DQUOTE :: t) as [t Et]
        by (destruct items as [|x [|y l]]; [contradiction| |]; eexists; reflexivity).
    rewrite Et. known_chars. rewrite <- Et.
    match goal with
    | |- context [parse_elements ?f ?acc ?s] =>
        pose proof (parse_elements_trailing items Hp Hne f acc false []) as Hnot;
        cbn [app] in Hnot;
        destruct (parse_elements f acc s) as [v r| |] eqn:P
    end; [exfalso; exact (Hnot v r eq_refl)|reflexivity|reflexivity]. }
  (* the repairs *)
  assert (repair (array_with_trailing_comma items)
          = [Ch.LBRACKET] ++ elements items ++ [Ch.RBRACKET]) as Hrepair.
  { unfold repair.
    rewrite (replace_untouched newline (fun c => (c =? Ch.LF) || (c =? Ch.CR))%N
               (array_with_trailing_comma items) newline_trigger).
    2:{ apply every; try reflexivity.
        intros c Hc. apply plain_char in Hc. unfold Ch.LF, Ch.CR. char_goal; lia. }
    assert (replace (trailing_comma Ch.RBRACE) (array_with_trailing_comma items)
            = array_with_trailing_comma items) as ->.
    { unfold replace, array_with_trailing_comma. cbn [app replace_all].
      rewrite (commas_between_stay _ items _ Hp) by reflexivity. reflexivity. }
    assert (replace (trailing_comma Ch.RBRACKET) (array_with_trailing_comma items)
            = [Ch.LBRACKET] ++ elements items ++ [Ch.RBRACKET]) as ->.
    { unfold replace, array_with_trailing_comma. cbn [app replace_all].
      rewrite (commas_between_stay _ items _ Hp) by reflexivity. reflexivity. }
    rewrite (replace_untouched single_quote (fun c => c =? Ch.SQUOTE)%N _ single_quote_trigger).
    2:{ apply every; try reflexivity.
        intros c Hc. apply plain_char in Hc. unfold Ch.SQUOTE. char_goal; lia. }
    apply replace_bare_key_no_colon.
    apply every; try reflexivity.
    intros c Hc. apply plain_char in Hc. unfold Ch.COLON. char_goal; lia. }
  split; [eexists; exact Hstrict|]. split; [exact Hrepair|].
  (* the extractor *)
  rewrite parseJSONFromText_unfold
    by (unfold array_with_trailing_comma; discriminate).
  unfold strict_parse, retry_parse.
  assert (strip_fences (array_with_trailing_comma items) = array_with_trailing_comma items) as ->.
  { unfold strip_fences.
    assert (free_of Ch.BACKTICK (array_with_trailing_comma items) = true) as F.
    { apply every; try reflexivity.
      intros c Hc. apply plain_char in Hc. unfold Ch.BACKTICK. char_goal; lia. }
    rewrite (ExtractFacts.replace_without_backtick fence_open)
      by (auto using fence_open_trigger).
    rewrite (ExtractFacts.replace_without_backtick fence) by (auto using fence_trigger).
    unfold array_with_trailing_comma.
    pose proof (UpstreamFacts.trim_around [] (elements items ++ [Ch.COMMA]) []
                  Ch.LBRACKET Ch.RBRACKET eq_refl eq_refl) as T.
    cbn [app drop_spaces] in T. rewrite <- app_assoc in T. cbn [app] in T.
    cbn [app]. rewrite T, <- app_assoc. reflexivity. }
  assert (candidate_of (expected_or_object (text "array")) (array_with_trailing_comma items)
          = array_with_trailing_comma items) as ->.
  { unfold candidate_of. cbn [expected_or_object text is_tag].
    change (str_eqb $"array" $"array") with true. cbv iota.
    pose proof (ExtractFacts.bracket_span_free Ch.LBRACKET Ch.RBRACKET []
                  (elements items ++ [Ch.COMMA]) [] eq_refl eq_refl) as B.
    cbn [app] in B. rewrite <- app_assoc in B. cbn [app] in B.
    unfold array_with_trailing_comma. cbn [app]. rewrite B. reflexivity. }
  rewrite Hstrict, Hrepair.
  unfold JSON_parse. cbn [app length Nat.mul Nat.add parse_value]. known_chars.
  assert (exists t, elements items ++ [Ch.RBRACKET] = Ch.DQUOTE :: t) as [t Et]
      by (destruct items as [|x [|y l]]; [contradiction| |]; eexists; reflexivity).
  rewrite Et. known_chars. rewrite <- Et.
  match goal with
  | |- context [parse_elements ?f ?acc _] =>
      pose proof (parse_elements_strings items Hp Hne f acc false []) as Hall
  end.
  cbn [app] in Hall. rewrite Hall; [reflexivity|].
  pose proof (length_elements items) as L. rewrite length_app. cbn [length].
  unfold str in *. lia.
Qed.

Lemma trailing_comma_array_recovered_witness :
  failed (JSON_parse (array_with_trailing_comma [$"cells"; $"tissues"]))
  /\ repair (array_with_trailing_comma [$"cells"; $"tissues"])
     = [Ch.LBRACKET] ++ elements [$"cells"; $"tissues"] ++ [Ch.RBRACKET]
  /\ parseJSONFromText (VStr (array_with_trailing_comma [$"cells"; $"tissues"])) (text "array")
     = Normal (VArr (List.map VStr [$"cells"; $"tissues"])).
Proof.
  apply (trailing_comma_array_recovered [$"cells"; $"tissues"]).
  - discriminate.
  - repeat constructor.
Defined.

End TrailingCommaFacts.

(* ================================================================== *)
(** ** Object literals in the JavaScript style *)

Module LiteralFacts.

Import Pattern Literal RepairFacts.

(** *** Characters *)

Lemma layout_char (c : N) : layout c = true -> c = 32%N \/ c = 9%N \/ c = 10%N.
Proof.
  unfold layout, Ch.SPACE, Ch.TAB, Ch.LF. intros H. char_facts; auto.
Qed.

Lemma punctuation_char (c : N) :
  punctuation c = true ->
  c = 123%N \/ c = 125%N \/ c = 91%N \/ c = 93%N \/ c = 44%N \/ c = 58%N.
Proof.
  unfold punctuation, Ch.LBRACE, Ch.RBRACE, Ch.LBRACKET, Ch.RBRACKET, Ch.COMMA, Ch.COLON.
  intros H. char_facts; auto 6.
Qed.

Lemma before_key_char (c : N) :
  before_key c = true -> c = 123%N \/ c = 44%N \/ c = 32%N \/ c = 9%N \/ c = 10%N.
Proof.
  unfold before_key. intros H. apply orb_true_iff in H as [H|H].
  - unfold Ch.LBRACE, Ch.COMMA in H. char_facts; auto.
  - apply layout_char in H. tauto.
Qed.

Lemma atom_char_range (c : N) :
  atom_char c = true -> (43 <= c <= 122)%N /\ c <> 44%N /\ c <> 58%N /\ c <> 91%N /\ c <> 93%N.
Proof.
  unfold atom_char, Ch.DOT, Ch.PLUS, Ch.MINUS. intros H.
  apply orb_true_iff in H as [H|H]; [apply orb_true_iff in H as [H|H];
                                      [apply orb_true_iff in H as [H|H]|]|].
  - apply word_char in H. lia.
  - apply N.eqb_eq in H. lia.
  - apply N.eqb_eq in H. lia.
  - apply N.eqb_eq in H. lia.
Qed.

Lemma not_space (c : N) : (33 <= c <= 127)%N -> is_space c = false.
Proof.
  intros H. unfold is_space.
  repeat (apply orb_false_iff; split);
    try (apply andb_false_iff; first [left; apply N.leb_gt; lia | right; apply N.leb_gt; lia]);
    apply N.eqb_neq; lia.
Qed.

Lemma layout_space (c : N) : layout c = true -> is_space c = true.
Proof. intros H. apply layout_char in H as [->|[->| ->]]; reflexivity. Qed.

Lemma layout_not_word (c : N) : layout c = true -> is_word c = false.
Proof. intros H. apply layout_char in H as [->|[->| ->]]; reflexivity. Qed.

Lemma layout_spaces (ws : str) : forallb layout ws = true -> forallb is_space ws = true.
Proof.
  intros H. rewrite forallb_forall in *. intros c Hc. apply layout_space, H, Hc.
Qed.

(** *** White space and what comes after it *)

Lemma count_spaces_all (ws : str) : forallb is_space ws = true -> count_spaces ws = length ws.
Proof.
  induction ws as [|c ws IH]; [reflexivity|].
  cbn [forallb count_spaces length]. intros H. apply andb_true_iff in H as [-> H].
  now rewrite IH.
Qed.

Lemma spaces_then (ws : str) (d : N) (X : str) :
  forallb is_space ws = true -> is_space d = false ->
  count_spaces (ws ++ d :: X) = length ws
  /\ skipn (length ws) (ws ++ d :: X) = d :: X.
Proof.
  intros Hws Hd. induction ws as [|c ws IH]; cbn [app count_spaces length skipn].
  - now rewrite Hd.
  - cbn [forallb] in Hws. apply andb_true_iff in Hws as [-> Hws].
    destruct (IH Hws) as [-> ->]. split; reflexivity.
Qed.

Lemma trailing_comma_at (close : N) (ws : str) (d : N) (X : str) :
  forallb is_space ws = true -> is_space d = false ->
  trailing_comma close (Ch.COMMA :: ws ++ d :: X)
  = if (d =? close)%N then Some (S (S (length ws)), [close]) else None.
Proof.
  intros Hws Hd. unfold trailing_comma. rewrite N.eqb_refl.
  destruct (spaces_then ws d X Hws Hd) as [-> ->]. reflexivity.
Qed.

Lemma trailing_comma_end (close : N) (ws : str) :
  forallb is_space ws = true -> trailing_comma close (Ch.COMMA :: ws) = None.
Proof.
  intros Hws. unfold trailing_comma. rewrite N.eqb_refl.
  rewrite count_spaces_all by exact Hws. now rewrite skipn_all.
Qed.

(** What a match can look at ends where the white space does. *)
Lemma spaces_local (r : str) (d : N) (X : str) :
  is_space d = false ->
  count_spaces (r ++ d :: X) = count_spaces (r ++ [d])
  /\ exists e tl tl',
       skipn (count_spaces (r ++ [d])) (r ++ d :: X) = e :: tl
       /\ skipn (count_spaces (r ++ [d])) (r ++ [d]) = e :: tl'.
Proof.
  intros Hd. induction r as [|c r IH]; cbn [app count_spaces].
  - rewrite Hd. split; [reflexivity|]. exists d, X, []. split; reflexivity.
  - destruct (is_space c).
    + destruct IH as [-> (e & tl & tl' & E1 & E2)]. split; [reflexivity|].
      exists e, tl, tl'. cbn [skipn]. split; assumption.
    + split; [reflexivity|]. eexists _, _, _. split; reflexivity.
Qed.

Lemma trailing_comma_local (close : N) (t rest : str) :
  t <> [] ->
  trailing_comma close (t ++ Ch.DQUOTE :: rest) = trailing_comma close (t ++ [Ch.DQUOTE]).
Proof.
  intros Ht. destruct t as [|c r]; [contradiction|]. cbn [app]. unfold trailing_comma.
  destruct (c =? Ch.COMMA)%N; [|reflexivity].
  destruct (spaces_local r Ch.DQUOTE rest eq_refl) as [-> (e & tl & tl' & -> & ->)].
  reflexivity.
Qed.

Lemma word_run_stop (r : str) (d : N) (X : str) :
  is_word d = false ->
  word_run (r ++ d :: X) = word_run (r ++ [d])
  /\ exists r1,
       skipn (length (word_run (r ++ [d]))) (r ++ d :: X) = r1 ++ d :: X
       /\ skipn (length (word_run (r ++ [d]))) (r ++ [d]) = r1 ++ [d].
Proof.
  intros Hd. induction r as [|c r IH]; cbn [app word_run].
  - rewrite Hd. split; [reflexivity|]. exists []. split; reflexivity.
  - destruct (is_word c).
    + destruct IH as [-> (r1 & E1 & E2)]. split; [reflexivity|].
      exists r1. cbn [length skipn]. split; assumption.
    + split; [reflexivity|]. exists (c :: r). split; reflexivity.
Qed.

Lemma bare_key_local (t rest : str) :
  t <> [] -> bare_key (t ++ Ch.DQUOTE :: rest) = bare_key (t ++ [Ch.DQUOTE]).
Proof.
  intros Ht. destruct t as [|c r]; [contradiction|]. cbn [app]. unfold bare_key.
  destruct ((c =? Ch.LBRACE)%N || (c =? Ch.COMMA)%N || is_space c); [|reflexivity].
  destruct (word_run_stop r Ch.DQUOTE rest eq_refl) as [-> (r1 & E1 & E2)].
  destruct (word_run (r ++ [Ch.DQUOTE])) as [|w0 w]; [reflexivity|].
  cbv zeta. rewrite E1, E2.
  destruct (spaces_local r1 Ch.DQUOTE rest eq_refl) as [-> (e & tl & tl' & -> & ->)].
  reflexivity.
Qed.

(** A pattern that matches nowhere inside a string literal leaves it as it
    is. *)
Lemma unmatched_inert (m : str -> option (nat * str)) (s X : str) :
  (forall t rest, t <> [] -> m (t ++ Ch.DQUOTE :: rest) = m (t ++ [Ch.DQUOTE])) ->
  unmatched m s = true ->
  replace_all m 0 (s ++ Ch.DQUOTE :: X) = s ++ replace_all m 0 (Ch.DQUOTE :: X).
Proof.
  intros Hlocal. induction s as [|c s IH]; [reflexivity|].
  intros H. cbn [unmatched] in H.
  destruct (m ((c :: s) ++ [Ch.DQUOTE])) eqn:E; [discriminate H|].
  change ((c :: s) ++ Ch.DQUOTE :: X) with (c :: (s ++ Ch.DQUOTE :: X)).
  cbn [replace_all].
  change (c :: s ++ Ch.DQUOTE :: X) with ((c :: s) ++ Ch.DQUOTE :: X).
  rewrite Hlocal by discriminate. rewrite E. cbn [app]. f_equal. apply IH. exact H.
Qed.


(** *** The characters of a literal *)

Lemma quiet_parts (s : str) :
  quiet s = true ->
  free_of Ch.LF s = true /\ free_of Ch.CR s = true /\ free_of Ch.SQUOTE s = true
  /\ unmatched (trailing_comma Ch.RBRACE) s = true
  /\ unmatched (trailing_comma Ch.RBRACKET) s = true
  /\ unmatched bare_key s = true.
Proof.
  unfold quiet. intros H.
  repeat (apply andb_true_iff in H as [H ?]). repeat split; assumption.
Qed.

Lemma word_is_atom (c : N) : is_word c = true -> atom_char c = true.
Proof. intros H. unfold atom_char. now rewrite H. Qed.

Lemma forallb_impl (p q : N -> bool) (s : str) :
  (forall c, p c = true -> q c = true) -> forallb p s = true -> forallb q s = true.
Proof.
  intros Hpq H. rewrite forallb_forall in *. intros c Hc. apply Hpq, H, Hc.
Qed.

Section Chars.

Variable p : N -> bool.
Hypothesis p_punctuation : forall c, punctuation c = true -> p c = true.
Hypothesis p_before_key : forall c, before_key c = true -> p c = true.
Hypothesis p_atom : forall c, atom_char c = true -> p c = true.
Hypothesis p_quote : p Ch.DQUOTE = true.
Hypothesis p_quiet : forall s, quiet s = true -> forallb p s = true.
Hypothesis p_layout : forall c, layout c = true -> p c = true.

Lemma token_chars (t : token) : token_ok t = true -> forallb p (token_text t) = true.
Proof.
  destruct t as [c|c w|s|w]; cbn [token_ok token_text forallb]; intros H.
  - now rewrite p_punctuation.
  - apply andb_true_iff in H as [H Hw]. apply andb_true_iff in H as [Hc _].
    rewrite (p_before_key c Hc). cbn [andb].
    apply (forallb_impl is_word); [|exact Hw]. intros x Hx. apply p_atom, word_is_atom, Hx.
  - unfold quoted. cbn [app forallb]. rewrite p_quote, forallb_app. cbn [forallb andb].
    now rewrite (p_quiet s H), p_quote.
  - apply andb_true_iff in H as [_ Hw]. apply (forallb_impl atom_char); assumption.
Qed.

Lemma text_chars (l : list item) : lexical l = true -> forallb p (text_of l) = true.
Proof.
  induction l as [|[t ws] rest IH]; [reflexivity|].
  unfold lexical. cbn [forallb fst snd text_of]. intros H.
  apply andb_true_iff in H as [H Hrest]. apply andb_true_iff in H as [Ht Hws].
  rewrite !forallb_app, (token_chars t Ht), (forallb_impl layout p ws p_layout Hws).
  exact (IH Hrest).
Qed.

End Chars.

Ltac one_of H := repeat (destruct H as [H|H]); subst; try reflexivity.

Lemma text_without (x : N) (l : list item) :
  x = Ch.CR \/ x = Ch.SQUOTE -> lexical l = true -> free_of x (text_of l) = true.
Proof.
  intros Hx. unfold free_of. apply text_chars.
  - intros c H. apply punctuation_char in H. destruct Hx as [-> | ->]; one_of H.
  - intros c H. apply before_key_char in H. destruct Hx as [-> | ->]; one_of H.
  - intros c H. apply atom_char_range in H. apply negb_true_iff, N.eqb_neq.
    destruct Hx as [-> | ->]; unfold Ch.CR, Ch.SQUOTE; lia.
  - destruct Hx as [-> | ->]; reflexivity.
  - intros s H. apply quiet_parts in H. destruct Hx as [-> | ->]; tauto.
  - intros c H. apply layout_char in H. destruct Hx as [-> | ->]; one_of H.
Qed.

(** *** Line feeds *)

Lemma replace_newline_map (s : str) :
  free_of Ch.CR s = true -> replace newline s = List.map unbreak s.
Proof.
  unfold replace, free_of. induction s as [|c s IH]; [reflexivity|].
  cbn [forallb replace_all map]. intros H. apply andb_true_iff in H as [Hc Hs].
  apply negb_true_iff in Hc.
  assert (newline (c :: s) = if (c =? Ch.LF)%N then Some (1, [Ch.SPACE]) else None) as ->
      by (unfold newline; rewrite Hc; reflexivity).
  unfold unbreak at 1. destruct (c =? Ch.LF)%N; cbn [app]; now rewrite (IH Hs).
Qed.

Lemma map_unbreak_id (s : str) : free_of Ch.LF s = true -> List.map unbreak s = s.
Proof.
  unfold free_of. induction s as [|c s IH]; [reflexivity|].
  cbn [forallb map]. intros H. apply andb_true_iff in H as [Hc Hs].
  apply negb_true_iff in Hc. unfold unbreak at 1. rewrite Hc. now rewrite (IH Hs).
Qed.

Lemma atom_free_of_lf (w : str) : forallb atom_char w = true -> free_of Ch.LF w = true.
Proof.
  apply forallb_impl. intros c H. apply atom_char_range in H.
  apply negb_true_iff, N.eqb_neq. unfold Ch.LF. lia.
Qed.

Lemma unbreak_token (t : token) (ws : str) :
  token_ok t = true ->
  List.map unbreak (token_text t) = token_text (fst (unbroken (t, ws)))
  /\ snd (unbroken (t, ws)) = List.map unbreak ws.
Proof.
  destruct t as [c|c w|s|w]; cbn [token_ok token_text unbroken fst snd map]; intros H;
    (split; [|reflexivity]).
  - apply punctuation_char in H. unfold unbreak. one_of H.
  - apply andb_true_iff in H as [_ Hw]. f_equal.
    apply map_unbreak_id, atom_free_of_lf.
    apply (forallb_impl is_word); [exact word_is_atom|exact Hw].
  - apply quiet_parts in H as (H & _). unfold quoted. cbn [app map].
    rewrite map_app, (map_unbreak_id s H). reflexivity.
  - apply andb_true_iff in H as [_ Hw]. now apply map_unbreak_id, atom_free_of_lf.
Qed.

Lemma text_of_cons (i : item) (rest : list item) :
  text_of (i :: rest) = token_text (fst i) ++ snd i ++ text_of rest.
Proof. destruct i; reflexivity. Qed.

Lemma unbreak_text (l : list item) :
  lexical l = true -> List.map unbreak (text_of l) = text_of (List.map unbroken l).
Proof.
  induction l as [|[t ws] rest IH]; [reflexivity|].
  unfold lexical. cbn [forallb fst snd]. intros H.
  apply andb_true_iff in H as [H Hrest]. apply andb_true_iff in H as [Ht _].
  cbn [map]. rewrite (text_of_cons (unbroken (t, ws))). cbn [text_of].
  destruct (unbreak_token t ws Ht) as [<- ->]. rewrite !map_app. now rewrite (IH Hrest).
Qed.

Lemma newline_pass (l : list item) :
  lexical l = true -> replace newline (text_of l) = text_of (List.map unbroken l).
Proof.
  intros H. rewrite replace_newline_map by (apply text_without; auto).
  now apply unbreak_text.
Qed.

Lemma lexical_unbroken (l : list item) : lexical l = true -> lexical (List.map unbroken l) = true.
Proof.
  unfold lexical. induction l as [|[t ws] rest IH]; [reflexivity|].
  cbn [forallb map fst snd]. intros H.
  apply andb_true_iff in H as [H Hrest]. apply andb_true_iff in H as [Ht Hws].
  rewrite (IH Hrest), andb_true_r.
  assert (forallb layout (List.map unbreak ws) = true) as Hws'.
  { rewrite forallb_forall in *. intros c Hc. apply in_map_iff in Hc as (d & <- & Hd).
    apply Hws, layout_char in Hd. unfold unbreak. one_of Hd. }
  destruct t as [c|c w|s|w]; cbn [unbroken fst snd token_ok] in *; rewrite Hws', andb_true_r;
    try exact Ht.
  apply andb_true_iff in Ht as [Ht Hw]. apply andb_true_iff in Ht as [Hc Hne].
  rewrite Hw, Hne, !andb_true_r. apply before_key_char in Hc. unfold unbreak. one_of Hc.
Qed.

Lemma next_is_colon_unbroken (l : list item) :
  next_is_colon (List.map unbroken l) = next_is_colon l.
Proof. destruct l as [|[[c|c w|s|w] ws] rest]; reflexivity. Qed.

Lemma next_is_atom_unbroken (l : list item) :
  next_is_atom (List.map unbroken l) = next_is_atom l.
Proof. destruct l as [|[[c|c w|s|w] ws] rest]; reflexivity. Qed.

Lemma nonempty_map (f : N -> N) (s : str) : nonempty (List.map f s) = nonempty s.
Proof. destruct s; reflexivity. Qed.

Lemma adjacent_unbroken (l : list item) :
  adjacent l = true -> adjacent (List.map unbroken l) = true.
Proof.
  induction l as [|[t ws] rest IH]; [reflexivity|].
  cbn [adjacent map]. intros H. apply andb_true_iff in H as [H Hrest].
  destruct t as [c|c w|s|w]; cbn [unbroken adjacent]; rewrite (IH Hrest), andb_true_r;
    rewrite ?next_is_colon_unbroken, ?next_is_atom_unbroken, ?nonempty_map; exact H.
Qed.


(** *** What a literal starts with *)

Lemma lexical_cons (t : token) (ws : str) (rest : list item) :
  lexical ((t, ws) :: rest) = true ->
  token_ok t = true /\ forallb layout ws = true /\ lexical rest = true.
Proof.
  unfold lexical. cbn [forallb fst snd]. intros H.
  apply andb_true_iff in H as [H Hrest]. apply andb_true_iff in H as [Ht Hws]. auto.
Qed.

Lemma punctuation_visible (c : N) :
  punctuation c = true -> is_space c = false /\ is_word c = false.
Proof. intros H. apply punctuation_char in H. split; one_of H. Qed.

Lemma atom_visible (c : N) : atom_char c = true -> is_space c = false.
Proof. intros H. apply atom_char_range in H. apply not_space. lia. Qed.

Lemma word_visible (c : N) : is_word c = true -> is_space c = false.
Proof. intros H. apply atom_visible, word_is_atom, H. Qed.

(** The text of a literal is empty, or it is white space (one character of
    it at most, which a key brings) and a character [d] that is none.  [d]
    is a closing brace or bracket or a colon only as a piece of its own, and
    a word character at the very start only in a number or word. *)
Lemma text_head (rest : list item) :
  lexical rest = true ->
  text_of rest = []
  \/ exists sp d X,
       text_of rest = sp ++ d :: X
       /\ forallb is_space sp = true /\ is_space d = false
       /\ (d = Ch.RBRACE \/ d = Ch.RBRACKET \/ d = Ch.COLON ->
           exists ws rest', rest = (Punct d, ws) :: rest')
       /\ (sp = [] -> is_word d = true -> next_is_atom rest = true).
Proof.
  destruct rest as [|[t ws] rest']; [now left|]. intros H. right.
  apply lexical_cons in H as (Ht & _ & _).
  destruct t as [c|c w|s|w]; cbn [token_ok] in Ht; cbn [text_of token_text].
  - destruct (punctuation_visible c Ht) as [Hs Hw].
    exists [], c, (ws ++ text_of rest'). repeat split; try assumption; try reflexivity.
    + intros _. eauto.
    + intros _ H. rewrite Hw in H. discriminate H.
  - apply andb_true_iff in Ht as [Ht Hw]. apply andb_true_iff in Ht as [Hc Hne].
    destruct w as [|d w]; [discriminate Hne|]. cbn [forallb] in Hw.
    apply andb_true_iff in Hw as [Hd _].
    destruct (layout c) eqn:L.
    + exists [c], d, (w ++ ws ++ text_of rest'). repeat split.
      * cbn [forallb]. now rewrite (layout_space c L).
      * now apply word_visible.
      * intros H. apply word_char in Hd. unfold Ch.RBRACE, Ch.RBRACKET, Ch.COLON in H. lia.
      * discriminate.
    + exists [], c, ((d :: w) ++ ws ++ text_of rest').
      apply before_key_char in Hc.
      assert (c = 123%N \/ c = 44%N) as Hc'
          by (destruct Hc as [?|[?|Hc]]; auto; exfalso; unfold layout in L; one_of Hc;
              discriminate L).
      repeat split.
      * destruct Hc' as [-> | ->]; reflexivity.
      * intros H. unfold Ch.RBRACE, Ch.RBRACKET, Ch.COLON in H. lia.
      * intros _ H. destruct Hc' as [-> | ->]; discriminate H.
  - exists [], Ch.DQUOTE, (s ++ [Ch.DQUOTE] ++ ws ++ text_of rest'). repeat split.
    + unfold quoted. rewrite <- !app_assoc. reflexivity.
    + intros [H|[H|H]]; discriminate H.
    + intros _ H. discriminate H.
  - apply andb_true_iff in Ht as [Hne Hw].
    destruct w as [|d w]; [discriminate Hne|]. cbn [forallb] in Hw.
    apply andb_true_iff in Hw as [Hd _].
    exists [], d, (w ++ ws ++ text_of rest'). repeat split.
    + now apply atom_visible.
    + intros H. apply atom_char_range in Hd. unfold Ch.RBRACE, Ch.RBRACKET, Ch.COLON in H. lia.
Qed.

(** *** Commas before a closing brace or bracket *)

Lemma token_eq_comma (t : token) : t = Punct Ch.COMMA \/ t <> Punct Ch.COMMA.
Proof.
  destruct t as [c|c w|s|w]; try (right; discriminate).
  destruct (N.eqb_spec c Ch.COMMA) as [-> |N]; [now left|right; intros [= E]; contradiction].
Qed.

Section Commas.

Variable close : N.
Hypothesis closing : close = Ch.RBRACE \/ close = Ch.RBRACKET.

Lemma comma_stays (ws : str) (rest : list item) :
  forallb layout ws = true -> lexical rest = true ->
  (forall ws' rest', rest <> (Punct close, ws') :: rest') ->
  trailing_comma close (Ch.COMMA :: ws ++ text_of rest) = None.
Proof.
  intros Hws Hrest Hnot. apply layout_spaces in Hws.
  destruct (text_head rest Hrest) as [-> | (sp & d & X & -> & Hsp & Hd & Hclose & _)].
  - rewrite app_nil_r. now apply trailing_comma_end.
  - rewrite app_assoc, trailing_comma_at; [|now rewrite forallb_app, Hws, Hsp|exact Hd].
    destruct (N.eqb_spec d close) as [E|_]; [|reflexivity].
    exfalso. destruct Hclose as (ws' & rest' & ->).
    + rewrite E. destruct closing as [-> | ->]; auto.
    + apply (Hnot ws' rest'). now rewrite E.
Qed.

Lemma comma_inert_ws (ws X : str) :
  forallb layout ws = true ->
  replace_all (trailing_comma close) 0 (ws ++ X) = ws ++ replace_all (trailing_comma close) 0 X.
Proof.
  intros H. apply (replace_untriggered _ (fun c => (c =? Ch.COMMA)%N)).
  - apply trailing_comma_trigger.
  - apply (forallb_impl layout); [|exact H]. intros c Hc. apply layout_char in Hc. one_of Hc.
Qed.

Lemma comma_inert_word (w X : str) :
  forallb atom_char w = true ->
  replace_all (trailing_comma close) 0 (w ++ X) = w ++ replace_all (trailing_comma close) 0 X.
Proof.
  intros H. apply (replace_untriggered _ (fun c => (c =? Ch.COMMA)%N)).
  - apply trailing_comma_trigger.
  - apply (forallb_impl atom_char); [|exact H]. intros c Hc. apply atom_char_range in Hc.
    apply negb_true_iff, N.eqb_neq. unfold Ch.COMMA. lia.
Qed.

Lemma comma_inert_token (t : token) (X : str) :
  token_ok t = true -> t <> Punct Ch.COMMA ->
  replace_all (trailing_comma close) 0 (token_text t ++ X)
  = token_text t ++ replace_all (trailing_comma close) 0 X.
Proof.
  intros Ht Hcomma.
  destruct t as [c|c w|s|w]; cbn [token_ok token_text] in *.
  - cbn [app replace_all]. rewrite trailing_comma_trigger; [reflexivity|].
    apply N.eqb_neq. intros ->. now apply Hcomma.
  - apply andb_true_iff in Ht as [Ht Hw]. apply andb_true_iff in Ht as [Hc Hne].
    assert (forallb atom_char w = true) as Hw'
        by (apply (forallb_impl is_word); [exact word_is_atom|exact Hw]).
    cbn [app replace_all].
    assert (trailing_comma close (c :: w ++ X) = None) as ->.
    { destruct (N.eqb_spec c Ch.COMMA) as [-> |N]; [|now apply trailing_comma_trigger, N.eqb_neq].
      destruct w as [|d w]; [discriminate Hne|]. cbn [forallb] in Hw.
      apply andb_true_iff in Hw as [Hd _].
      change (Ch.COMMA :: (d :: w) ++ X) with (Ch.COMMA :: [] ++ d :: (w ++ X)).
      rewrite trailing_comma_at; [|reflexivity|now apply word_visible].
      apply word_char in Hd.
      destruct (N.eqb_spec d close) as [E|_]; [|reflexivity].
      exfalso. destruct closing as [C|C]; rewrite C in E; unfold Ch.RBRACE, Ch.RBRACKET in E; lia. }
    f_equal. now apply comma_inert_word.
  - apply quiet_parts in Ht as (_ & _ & _ & H1 & H2 & _).
    assert (unmatched (trailing_comma close) s = true) as Hs
        by (destruct closing as [-> | ->]; assumption).
    unfold quoted. rewrite <- !app_assoc. cbn [app replace_all].
    rewrite trailing_comma_trigger by reflexivity. f_equal.
    rewrite unmatched_inert; [|apply trailing_comma_local|exact Hs].
    reflexivity.
  - apply andb_true_iff in Ht as [_ Hw]. now apply comma_inert_word.
Qed.

Lemma without_trailing_keeps (t : token) (ws : str) (rest : list item) :
  (forall ws' rest', t = Punct Ch.COMMA -> rest <> (Punct close, ws') :: rest') ->
  without_trailing close ((t, ws) :: rest) = (t, ws) :: without_trailing close rest.
Proof.
  intros H. cbn [without_trailing].
  destruct t as [c|c w|s|w]; try reflexivity.
  destruct rest as [|[[d|d w|s|w] ws'] rest']; try reflexivity.
  destruct (N.eqb_spec c Ch.COMMA) as [-> |_]; [|reflexivity].
  destruct (N.eqb_spec d close) as [-> |_]; [|reflexivity].
  exfalso. now apply (H ws' rest').
Qed.

Lemma closing_kept (ws : str) (rest : list item) :
  without_trailing close ((Punct close, ws) :: rest)
  = (Punct close, ws) :: without_trailing close rest.
Proof.
  apply without_trailing_keeps. intros ws' rest' H. exfalso.
  injection H as H. destruct closing as [C|C]; rewrite C in H; discriminate H.
Qed.

Lemma without_trailing_drops (ws ws' : str) (rest' : list item) :
  without_trailing close ((Punct Ch.COMMA, ws) :: (Punct close, ws') :: rest')
  = without_trailing close ((Punct close, ws') :: rest').
Proof. cbn [without_trailing]. rewrite !N.eqb_refl. reflexivity. Qed.

Lemma comma_pass (l : list item) :
  lexical l = true ->
  replace_all (trailing_comma close) 0 (text_of l) = text_of (without_trailing close l).
Proof.
  induction l as [|[t ws] rest IH]; [reflexivity|]. intros H.
  apply lexical_cons in H as (Ht & Hws & Hrest). specialize (IH Hrest).
  assert (trailing_comma close [close] = None /\ is_space close = false) as [Hc1 Hc2]
      by (destruct closing as [-> | ->]; split; reflexivity).
  assert ((exists ws' rest', t = Punct Ch.COMMA /\ rest = (Punct close, ws') :: rest')
          \/ forall ws' rest', t = Punct Ch.COMMA -> rest <> (Punct close, ws') :: rest')
    as [(ws' & rest' & -> & ->)|Hkeep].
  { destruct t as [c|c w|s|w]; try (right; intros; discriminate).
    destruct (N.eqb_spec c Ch.COMMA) as [-> |N]; [|right; intros ? ? [= E]; contradiction].
    destruct rest as [|[[d|d w|s|w] ws'] rest']; try (right; intros; discriminate).
    destruct (N.eqb_spec d close) as [-> |N]; [left; eauto|].
    right. intros ? ? _ [= E]. contradiction. }
  - (* the comma goes, with the white space after it *)
    rewrite without_trailing_drops, closing_kept in *. cbn [text_of token_text app] in *.
    cbn [replace_all] in IH.
    rewrite trailing_comma_trigger in IH
      by (destruct closing as [-> | ->]; reflexivity).
    injection IH as IH.
    cbn [replace_all].
    rewrite trailing_comma_at by (try apply layout_spaces; assumption).
    rewrite N.eqb_refl. cbn [app]. f_equal.
    replace (ws ++ close :: ws' ++ text_of rest')
      with ((ws ++ [close]) ++ ws' ++ text_of rest') by (now rewrite <- app_assoc).
    replace (S (length ws)) with (length (ws ++ [close]) + 0)
      by (rewrite length_app; cbn [length]; lia).
    rewrite replace_all_skip. exact IH.
  - rewrite without_trailing_keeps by exact Hkeep. cbn [text_of]. rewrite <- IH.
    destruct (token_eq_comma t) as [-> |Hne].
    + cbn [token_text app replace_all].
      rewrite comma_stays; [|assumption|assumption|intros ws' rest'; now apply Hkeep].
      f_equal. now apply comma_inert_ws.
    + rewrite comma_inert_token by assumption. f_equal. now apply comma_inert_ws.
Qed.

Lemma without_trailing_cases (t : token) (ws : str) (rest : list item) :
  (exists ws' rest',
      t = Punct Ch.COMMA /\ rest = (Punct close, ws') :: rest'
      /\ without_trailing close (((t, ws) : item) :: rest)
         = ((Punct close, ws') : item) :: without_trailing close rest')
  \/ without_trailing close (((t, ws) : item) :: rest)
     = ((t, ws) : item) :: without_trailing close rest.
Proof.
  assert ((exists ws' rest', t = Punct Ch.COMMA /\ rest = (Punct close, ws') :: rest')
          \/ forall ws' rest', t = Punct Ch.COMMA -> rest <> (Punct close, ws') :: rest')
    as [(ws' & rest' & -> & ->)|Hkeep].
  { destruct t as [c|c w|s|w]; try (right; intros; discriminate).
    destruct (N.eqb_spec c Ch.COMMA) as [-> |N]; [|right; intros ? ? [= E]; contradiction].
    destruct rest as [|[[d|d w|s|w] ws'] rest']; try (right; intros; discriminate).
    destruct (N.eqb_spec d close) as [-> |N]; [left; eauto|].
    right. intros ? ? _ [= E]. contradiction. }
  - left. exists ws', rest'. rewrite without_trailing_drops, closing_kept. auto.
  - right. now apply without_trailing_keeps.
Qed.

Lemma lexical_without (l : list item) :
  lexical l = true -> lexical (without_trailing close l) = true.
Proof.
  induction l as [|[t ws] rest IH]; [reflexivity|]. intros H.
  apply lexical_cons in H as (Ht & Hws & Hrest). specialize (IH Hrest).
  destruct (without_trailing_cases t ws rest) as [(ws' & rest' & -> & -> & E)| ->].
  - rewrite closing_kept in IH. rewrite E. exact IH.
  - unfold lexical in *. cbn [forallb fst snd]. now rewrite Ht, Hws, IH.
Qed.

Lemma next_without (l : list item) :
  next_is_colon (without_trailing close l) = next_is_colon l
  /\ next_is_atom (without_trailing close l) = next_is_atom l.
Proof.
  destruct l as [|[t ws] rest]; [split; reflexivity|].
  destruct (without_trailing_cases t ws rest) as [(ws' & rest' & -> & -> & ->)| ->].
  - cbn [next_is_colon next_is_atom]. destruct closing as [-> | ->]; split; reflexivity.
  - split; reflexivity.
Qed.

Lemma adjacent_without (l : list item) :
  adjacent l = true -> adjacent (without_trailing close l) = true.
Proof.
  induction l as [|[t ws] rest IH]; [reflexivity|].
  cbn [adjacent]. intros H. apply andb_true_iff in H as [H Hrest]. specialize (IH Hrest).
  destruct (without_trailing_cases t ws rest) as [(ws' & rest' & -> & -> & E)| ->].
  - rewrite closing_kept in IH. rewrite E. exact IH.
  - cbn [adjacent]. rewrite IH, andb_true_r.
    destruct (next_without rest) as [-> ->]. exact H.
Qed.

End Commas.

(** *** Keys without quotes *)

Lemma bare_key_trigger (c : N) (b : str) :
  (c =? Ch.LBRACE)%N || (c =? Ch.COMMA)%N || is_space c = false -> bare_key (c :: b) = None.
Proof. intros H. unfold bare_key. now rewrite H. Qed.

Lemma bare_key_nonword (c d : N) (X : str) : is_word d = false -> bare_key (c :: d :: X) = None.
Proof.
  intros H. unfold bare_key. cbn [word_run]. rewrite H.
  now destruct ((c =? Ch.LBRACE)%N || (c =? Ch.COMMA)%N || is_space c).
Qed.

Lemma bare_key_end (c : N) : bare_key [c] = None.
Proof.
  unfold bare_key. cbn [word_run].
  now destruct ((c =? Ch.LBRACE)%N || (c =? Ch.COMMA)%N || is_space c).
Qed.

Lemma space_not_word (c : N) : is_space c = true -> is_word c = false.
Proof.
  intros H. destruct (is_word c) eqn:W; [|reflexivity].
  apply word_visible in W. congruence.
Qed.

Lemma word_run_then (w Z : str) :
  forallb is_word w = true ->
  Z = [] \/ (exists d X, Z = d :: X /\ is_word d = false) ->
  word_run (w ++ Z) = w.
Proof.
  intros Hw [-> | (d & X & -> & Hd)].
  - rewrite app_nil_r. induction w as [|c w IH]; [reflexivity|].
    cbn [forallb word_run] in *. apply andb_true_iff in Hw as [-> Hw]. now rewrite IH.
  - now apply word_run_app.
Qed.

Lemma skipn_length_app (a b : str) : skipn (length a) (a ++ b) = b.
Proof. induction a as [|c a IH]; [reflexivity|exact IH]. Qed.

(** At a key the pattern matches: the character before it, the word, the
    white space, the colon. *)
Lemma bare_key_at (c : N) (w ws X : str) :
  (c =? Ch.LBRACE)%N || (c =? Ch.COMMA)%N || is_space c = true ->
  w <> [] -> forallb is_word w = true -> forallb is_space ws = true ->
  bare_key (c :: w ++ ws ++ Ch.COLON :: X)
  = Some (S (length w + length ws + 1), c :: Ch.DQUOTE :: w ++ [Ch.DQUOTE; Ch.COLON]).
Proof.
  intros Hc Hne Hw Hws. unfold bare_key. rewrite Hc.
  rewrite word_run_then; [|exact Hw|].
  2:{ right. destruct ws as [|d ws']; cbn [app]; eexists _, _; (split; [reflexivity|]).
      - reflexivity.
      - cbn [forallb] in Hws. apply andb_true_iff in Hws as [Hd _]. now apply space_not_word. }
  destruct w as [|w0 w']; [contradiction|]. cbv zeta.
  rewrite skipn_length_app.
  destruct (spaces_then ws Ch.COLON X Hws eq_refl) as [-> ->].
  now rewrite N.eqb_refl.
Qed.

Lemma atom_split (w : str) :
  forallb atom_char w = true ->
  exists u v,
    w = u ++ v /\ forallb is_word u = true
    /\ (v = [] \/ exists e v', v = e :: v' /\ is_word e = false /\ atom_char e = true).
Proof.
  induction w as [|c w IH]; intros H.
  - exists [], []. repeat split. now left.
  - cbn [forallb] in H. apply andb_true_iff in H as [Hc Hw].
    destruct (is_word c) eqn:W.
    + destruct (IH Hw) as (u & v & -> & Hu & Hv). exists (c :: u), v.
      cbn [forallb app]. rewrite W, Hu. repeat split. exact Hv.
    + exists [], (c :: w). repeat split. right. eauto.
Qed.

(** No colon comes after a number or word, so no key is read in one. *)
Lemma no_colon_after (c : N) (w sp Y : str) :
  forallb atom_char w = true ->
  forallb is_space sp = true ->
  Y = [] \/ (exists d X, Y = d :: X /\ is_space d = false /\ d <> Ch.COLON
                         /\ (sp = [] -> is_word d = false)) ->
  bare_key (c :: w ++ sp ++ Y) = None.
Proof.
  intros Hw Hsp HY. unfold bare_key.
  destruct ((c =? Ch.LBRACE)%N || (c =? Ch.COMMA)%N || is_space c); [|reflexivity].
  destruct (atom_split w Hw) as (u & v & -> & Hu & [-> |(e & v' & -> & He & Ha)]).
  - rewrite app_nil_r. rewrite word_run_then; [|exact Hu|].
    2:{ destruct sp as [|s0 sp']; cbn [app].
        - destruct HY as [-> |(d & X & -> & _ & _ & Hd)]; [now left|].
          right. exists d, X. split; [reflexivity|now apply Hd].
        - right. exists s0, (sp' ++ Y). split; [reflexivity|].
          cbn [forallb] in Hsp. apply andb_true_iff in Hsp as [H0 _]. now apply space_not_word. }
    destruct u as [|u0 u']; [reflexivity|]. cbv zeta. rewrite skipn_length_app.
    destruct HY as [-> |(d & X & -> & Hd & Hcolon & _)].
    + rewrite app_nil_r, count_spaces_all by exact Hsp. now rewrite skipn_all.
    + destruct (spaces_then sp d X Hsp Hd) as [-> ->].
      apply N.eqb_neq in Hcolon. now rewrite Hcolon.
  - rewrite <- app_assoc. cbn [app]. rewrite word_run_app by assumption.
    destruct u as [|u0 u']; [reflexivity|]. cbv zeta. rewrite skipn_length_app.
    cbn [count_spaces]. rewrite (atom_visible e Ha). cbn [skipn].
    apply atom_char_range in Ha.
    assert ((e =? Ch.COLON)%N = false) as -> by (apply N.eqb_neq; unfold Ch.COLON; lia).
    reflexivity.
Qed.

Lemma before_key_not_word (c : N) : before_key c = true -> is_word c = false.
Proof. intros H. apply before_key_char in H. one_of H. Qed.

Lemma before_key_trigger (c : N) :
  before_key c = true -> (c =? Ch.LBRACE)%N || (c =? Ch.COMMA)%N || is_space c = true.
Proof. intros H. apply before_key_char in H. one_of H. Qed.

Lemma adjacent_cons (t : token) (ws : str) (rest : list item) :
  adjacent ((t, ws) :: rest) = true ->
  adjacent rest = true
  /\ match t with
     | Key _ _ => next_is_colon rest = true
     | Atom _ =>
         next_is_colon rest = false /\ (ws = [] -> next_is_atom rest = false)
     | _ => True
     end.
Proof.
  cbn [adjacent]. intros H. apply andb_true_iff in H as [H Hrest]. split; [exact Hrest|].
  destruct t as [c|c w|s|w]; auto.
  apply andb_true_iff in H as [H1 H2]. apply negb_true_iff in H1. split; [exact H1|].
  intros ->. cbn [nonempty orb] in H2. now apply negb_true_iff in H2.
Qed.

(** No key is read at a character that a literal follows, unless the
    literal starts with the key, whose first character then is the one the
    pattern starts at. *)
Lemma no_key_before (rest : list item) (c : N) :
  lexical rest = true -> adjacent rest = true -> bare_key (c :: text_of rest) = None.
Proof.
  intros Hlex Hadj. destruct rest as [|[t ws] rest']; [apply bare_key_end|].
  apply lexical_cons in Hlex as (Ht & Hws & Hrest).
  apply adjacent_cons in Hadj as (Hadj & Hnext).
  destruct t as [d|d w|s|w]; cbn [token_ok] in Ht; cbn [text_of token_text app].
  - apply bare_key_nonword. now apply punctuation_visible.
  - apply andb_true_iff in Ht as [Ht _]. apply andb_true_iff in Ht as [Hd _].
    apply bare_key_nonword. now apply before_key_not_word.
  - apply bare_key_nonword. reflexivity.
  - apply andb_true_iff in Ht as [_ Hw]. destruct Hnext as [Hcolon Hatom].
    apply layout_spaces in Hws.
    destruct (text_head rest' Hrest) as [-> | (sp & d & X & -> & Hsp & Hd & Hclose & Hword)].
    + apply (no_colon_after c w ws []); [exact Hw|exact Hws|now left].
    + rewrite (app_assoc ws sp). apply no_colon_after; [exact Hw| |].
      * now rewrite forallb_app, Hws, Hsp.
      * right. exists d, X. repeat split; try assumption.
        -- intros ->. destruct Hclose as (ws' & rest'' & ->); [auto|].
           cbn [next_is_colon] in Hcolon. discriminate Hcolon.
        -- intros E. apply app_eq_nil in E as [-> ->].
           destruct (is_word d) eqn:W; [|reflexivity].
           rewrite (Hword eq_refl eq_refl) in Hatom. now specialize (Hatom eq_refl).
Qed.

Lemma no_key_at (c : N) (ws : str) (rest : list item) :
  forallb layout ws = true -> lexical rest = true -> adjacent rest = true ->
  bare_key (c :: ws ++ text_of rest) = None.
Proof.
  intros Hws Hlex Hadj. destruct ws as [|d ws']; [now apply no_key_before|].
  cbn [forallb] in Hws. apply andb_true_iff in Hws as [Hd _].
  apply bare_key_nonword. now apply layout_not_word.
Qed.

Lemma key_inert_ws (ws : str) (rest : list item) :
  forallb layout ws = true -> lexical rest = true -> adjacent rest = true ->
  replace_all bare_key 0 (ws ++ text_of rest) = ws ++ replace_all bare_key 0 (text_of rest).
Proof.
  intros Hws Hlex Hadj. induction ws as [|c ws IH]; [reflexivity|].
  cbn [forallb] in Hws. apply andb_true_iff in Hws as [_ Hws].
  cbn [app replace_all]. rewrite no_key_at by assumption. f_equal. now apply IH.
Qed.

Lemma key_inert_token (t : token) (ws : str) (rest : list item) :
  token_ok t = true -> (forall c w, t <> Key c w) ->
  forallb layout ws = true -> lexical rest = true -> adjacent rest = true ->
  replace_all bare_key 0 (token_text t ++ ws ++ text_of rest)
  = token_text t ++ replace_all bare_key 0 (ws ++ text_of rest).
Proof.
  intros Ht Hkey Hws Hlex Hadj.
  destruct t as [c|c w|s|w]; cbn [token_ok token_text] in *.
  - cbn [app replace_all]. now rewrite no_key_at.
  - exfalso. now apply (Hkey c w).
  - apply quiet_parts in Ht as (_ & _ & _ & _ & _ & Hs).
    unfold quoted. rewrite <- !app_assoc. cbn [app replace_all].
    rewrite bare_key_trigger by reflexivity. f_equal.
    rewrite unmatched_inert; [|apply bare_key_local|exact Hs].
    reflexivity.
  - apply andb_true_iff in Ht as [_ Hw].
    apply (replace_untriggered _ (fun c => (c =? Ch.LBRACE)%N || (c =? Ch.COMMA)%N || is_space c)).
    + apply bare_key_trigger.
    + apply (forallb_impl atom_char); [|exact Hw]. intros c Hc.
      rewrite (atom_visible c Hc). apply atom_char_range in Hc.
      apply negb_true_iff. rewrite orb_false_r. apply orb_false_iff.
      split; apply N.eqb_neq; unfold Ch.LBRACE, Ch.COMMA; lia.
Qed.

Lemma key_pass (l : list item) :
  lexical l = true -> adjacent l = true -> replace_all bare_key 0 (text_of l) = quote_keys l.
Proof.
  induction l as [|[t ws] rest IH]; [reflexivity|]. intros Hlex Hadj.
  apply lexical_cons in Hlex as (Ht & Hws & Hrest).
  apply adjacent_cons in Hadj as (Hadj & Hnext).
  specialize (IH Hrest Hadj).
  destruct t as [c|c w|s|w].
  - cbn [text_of quote_keys]. rewrite key_inert_token by (try assumption; discriminate).
    rewrite key_inert_ws by assumption. now rewrite IH.
  - (* a key: its colon is the next piece *)
    destruct rest as [|[[d|d w'|s|w'] ws2] rest']; try discriminate Hnext.
    cbn [next_is_colon] in Hnext. apply N.eqb_eq in Hnext. subst d.
    cbn [token_ok] in Ht. apply andb_true_iff in Ht as [Ht Hw]. apply andb_true_iff in Ht as [Hc Hne].
    cbn [text_of token_text quote_keys app] in *.
    cbn [replace_all] in IH. rewrite bare_key_trigger in IH by reflexivity.
    injection IH as IH.
    cbn [replace_all].
    rewrite bare_key_at;
      [|now apply before_key_trigger|now destruct w|exact Hw|now apply layout_spaces].
    replace (w ++ ws ++ Ch.COLON :: ws2 ++ text_of rest')
      with ((w ++ ws ++ [Ch.COLON]) ++ ws2 ++ text_of rest')
      by (rewrite <- !app_assoc; reflexivity).
    replace (length w + length ws + 1) with (length (w ++ ws ++ [Ch.COLON]) + 0)
      by (rewrite !length_app; cbn [length]; lia).
    rewrite replace_all_skip, IH.
    unfold quoted. cbn [app]. rewrite <- !app_assoc. reflexivity.
  - cbn [text_of quote_keys]. rewrite key_inert_token by (try assumption; discriminate).
    rewrite key_inert_ws by assumption. now rewrite IH.
  - cbn [text_of quote_keys]. rewrite key_inert_token by (try assumption; discriminate).
    rewrite key_inert_ws by assumption. now rewrite IH.
Qed.

(** *** The five repairs, one after the other *)

Lemma repair_literal (l : list item) :
  lexical l = true -> adjacent l = true -> repair (text_of l) = intended l.
Proof.
  intros Hlex Hadj. unfold repair, intended.
  pose proof (lexical_unbroken l Hlex) as L1.
  pose proof (adjacent_unbroken l Hadj) as A1.
  pose proof (lexical_without Ch.RBRACE (or_introl eq_refl) _ L1) as L2.
  pose proof (adjacent_without Ch.RBRACE (or_introl eq_refl) _ A1) as A2.
  pose proof (lexical_without Ch.RBRACKET (or_intror eq_refl) _ L2) as L3.
  pose proof (adjacent_without Ch.RBRACKET (or_intror eq_refl) _ A2) as A3.
  rewrite newline_pass by exact Hlex.
  pose proof (replace_untouched single_quote (fun c => (c =? Ch.SQUOTE)%N) _
                single_quote_trigger (text_without Ch.SQUOTE _ (or_intror eq_refl) L3)) as Q.
  unfold replace in *.
  rewrite (comma_pass Ch.RBRACE (or_introl eq_refl)) by exact L1.
  rewrite (comma_pass Ch.RBRACKET (or_intror eq_refl)) by exact L2.
  rewrite Q. now apply key_pass.
Qed.

(** *** The literal as the candidate *)

Lemma no_fence_untouched (s : str) :
  has_fence s = false -> replace fence_open s = s /\ replace fence s = s.
Proof.
  unfold replace. induction s as [|c s IH]; [split; reflexivity|].
  cbn [has_fence]. intros H. apply orb_false_iff in H as [P H].
  destruct (IH H) as [E1 E2]. cbn [replace_all].
  unfold fence_open at 1, fence at 1. rewrite P. now rewrite E1, E2.
Qed.

Lemma text_of_app (a b : list item) : text_of (a ++ b) = text_of a ++ text_of b.
Proof.
  induction a as [|[t ws] a IH]; [reflexivity|].
  cbn [app text_of]. now rewrite IH, <- !app_assoc.
Qed.

Lemma literal_in_braces (l : list item) :
  opens l = true -> closes l = true ->
  exists mid, text_of l = Ch.LBRACE :: mid ++ [Ch.RBRACE].
Proof.
  intros Ho Hc.
  assert (l <> []) as Hne by (intros ->; discriminate Ho).
  destruct (exists_last Hne) as (l' & a & ->).
  unfold closes in Hc. rewrite last_last in Hc.
  destruct a as [[c| | |] [|? ?]]; try discriminate Hc.
  apply N.eqb_eq in Hc. subst c.
  rewrite text_of_app. cbn [text_of token_text app].
  destruct l' as [|[t ws] more].
  - discriminate Ho.
  - cbn [app opens text_of] in *.
    destruct t as [c|c w|s|w]; try discriminate Ho; apply N.eqb_eq in Ho; subst c;
      cbn [token_text app]; rewrite <- ?app_assoc; eexists; cbn [app]; f_equal;
      rewrite ?app_assoc; reflexivity.
Qed.

Lemma candidate_of_literal (l : list item) (expected : value) :
  relaxed l = true ->
  expected = VUndefined \/ expected = text "object" ->
  candidate_of (expected_or_object expected) (strip_fences (text_of l)) = text_of l.
Proof.
  unfold relaxed. intros H He.
  apply andb_true_iff in H as [H Hf]. apply andb_true_iff in H as [H Hc].
  apply andb_true_iff in H as [_ Ho]. apply negb_true_iff in Hf.
  destruct (no_fence_untouched _ Hf) as [E1 E2].
  destruct (literal_in_braces l Ho Hc) as [mid E].
  unfold strip_fences. rewrite E1, E2, E.
  pose proof (UpstreamFacts.trim_around [] mid [] Ch.LBRACE Ch.RBRACE eq_refl eq_refl) as T.
  cbn [app drop_spaces] in T. change (trim_end []) with (@nil N) in T. rewrite T.
  pose proof (ExtractFacts.bracket_span_free Ch.LBRACE Ch.RBRACE [] mid [] eq_refl eq_refl)
    as B.
  cbn [app] in B. unfold candidate_of. rewrite B.
  destruct He as [-> | ->]; reflexivity.
Qed.

(** *** A literal that starts with a key without quotes is no JSON *)

Lemma skip_ws_layout (sp : str) (d : N) (X : str) :
  forallb layout sp = true -> Json.is_ws d = false -> Json.skip_ws (sp ++ d :: X) = d :: X.
Proof.
  intros Hsp Hd. induction sp as [|c sp IH]; cbn [app Json.skip_ws].
  - now rewrite Hd.
  - cbn [forallb] in Hsp. apply andb_true_iff in Hsp as [Hc Hsp].
    assert (Json.is_ws c = true) as -> by (apply layout_char in Hc; one_of Hc).
    now apply IH.
Qed.

Lemma word_starts_no_json (sp : str) (d : N) (X : str) :
  forallb layout sp = true -> is_word d = true ->
  failed (Json.JSON_parse (Ch.LBRACE :: sp ++ d :: X)).
Proof.
  intros Hsp Hd. exists Json.unexpected_token.
  apply word_char in Hd.
  assert (Json.is_ws d = false) as Hws
      by (unfold Json.is_ws, Ch.TAB, Ch.LF, Ch.CR, Ch.SPACE; char_goal; lia).
  assert ((d =? Ch.RBRACE)%N = false) as Hrb by (unfold Ch.RBRACE; char_goal; lia).
  assert ((d =? Ch.DQUOTE)%N = false) as Hdq by (unfold Ch.DQUOTE; char_goal; lia).
  unfold Json.JSON_parse. cbn [length Nat.mul Nat.add Json.parse_value].
  known_chars. rewrite (skip_ws_layout sp d X Hsp Hws), Hrb.
  cbn [Json.parse_members]. now rewrite (skip_ws_layout sp d X Hsp Hws), Hdq.
Qed.

Lemma unquoted_first_key_is_no_json (l : list item) :
  lexical l = true ->
  match l with
  | (Key c _, _) :: _ => c = Ch.LBRACE
  | (Punct c, _) :: (Key d _, _) :: _ => c = Ch.LBRACE /\ layout d = true
  | _ => False
  end ->
  failed (Json.JSON_parse (text_of l)).
Proof.
  intros Hlex H. destruct l as [|[[c|c w|s|w] ws] rest]; try contradiction.
  - destruct rest as [|[[d|d w|s|w] ws'] rest']; try contradiction.
    destruct H as [-> Hd].
    apply lexical_cons in Hlex as (_ & Hws & Hlex).
    apply lexical_cons in Hlex as (Ht & _ & _).
    cbn [token_ok] in Ht. apply andb_true_iff in Ht as [Ht Hw]. apply andb_true_iff in Ht as [_ Hne].
    destruct w as [|w0 w]; [discriminate Hne|]. cbn [forallb] in Hw.
    apply andb_true_iff in Hw as [Hw0 _].
    cbn [text_of token_text app].
    assert (ws ++ d :: w0 :: w ++ ws' ++ text_of rest'
            = (ws ++ [d]) ++ w0 :: (w ++ ws' ++ text_of rest')) as ->
        by (rewrite <- app_assoc; reflexivity).
    apply word_starts_no_json; [|exact Hw0].
    rewrite forallb_app. cbn [forallb]. now rewrite Hws, Hd.
  - subst c. apply lexical_cons in Hlex as (Ht & _ & _).
    cbn [token_ok] in Ht. apply andb_true_iff in Ht as [Ht Hw]. apply andb_true_iff in Ht as [_ Hne].
    destruct w as [|w0 w]; [discriminate Hne|]. cbn [forallb] in Hw.
    apply andb_true_iff in Hw as [Hw0 _].
    cbn [text_of token_text app].
    apply (word_starts_no_json [] w0); [reflexivity|exact Hw0].
Qed.

End LiteralFacts.

(** C5, amended.  An object literal in the JavaScript style is recovered:
    keys with or without quotes, string values, numbers, [true], [false],
    [null], nested objects and arrays, a comma before any closing brace or
    bracket, spaces, tabs and line feeds between the pieces.  When
    [JSON.parse] rejects such a literal, the extractor (with the default or
    the "object" shape tag) returns what [JSON.parse] makes of the JSON
    text the literal is meant to be: the same pieces with every key in
    quotes and every trailing comma dropped (and [null] where the pieces,
    so written, are no JSON either).  What the literal may not hold is a
    code fence, and what the repairs would touch inside a string: a line
    break, an apostrophe, a comma that white space and a closing brace or
    bracket follow, a word between a brace, comma or white space and a
    colon. *)
Theorem relaxed_literal_recovered :
  forall (l : list Literal.item) (expected : value),
    Literal.relaxed l = true ->
    expected = VUndefined \/ expected = text "object" ->
    failed (Json.JSON_parse (Literal.text_of l)) ->
    parseJSONFromText (VStr (Literal.text_of l)) expected
    = match Json.JSON_parse (Literal.intended l) with
      | Normal v => Normal v
      | Throw _ => Normal VNull
      end.
Proof.
  intros l expected Hl He [e Hfail].
  pose proof (LiteralFacts.candidate_of_literal l expected Hl He) as Hcand.
  unfold Literal.relaxed in Hl.
  apply andb_true_iff in Hl as [Hl _]. apply andb_true_iff in Hl as [Hl _].
  apply andb_true_iff in Hl as [Hl Ho]. apply andb_true_iff in Hl as [Hlex Hadj].
  rewrite parseJSONFromText_unfold.
  2:{ intros E. destruct l as [|[[c|c w|s|w] ws] rest]; try discriminate Ho; discriminate E. }
  unfold strict_parse, retry_parse. rewrite Hcand, Hfail.
  now rewrite (LiteralFacts.repair_literal l Hlex Hadj).
Qed.

Lemma relaxed_literal_recovered_witness :
  parseJSONFromText (VStr (Literal.text_of Literal.nested_example)) VUndefined
  = match Json.JSON_parse (Literal.intended Literal.nested_example) with
    | Normal v => Normal v
    | Throw _ => Normal VNull
    end.
Proof.
  apply (relaxed_literal_recovered Literal.nested_example VUndefined).
  - reflexivity.
  - left. reflexivity.
  - exists Json.unexpected_token. reflexivity.
Defined.

(** The literals as texts, and the texts they are meant to be. *)
Example literals_in_print :
  Literal.text_of Literal.spec_example = $"{name: " ++ quoted $"x" ++ $",}"
  /\ Literal.intended Literal.spec_example
     = $"{" ++ quoted $"name" ++ $": " ++ quoted $"x" ++ $"}"
  /\ Literal.text_of Literal.nested_example
     = $"{name: " ++ quoted $"x" ++ $", age: 3, tags: [" ++ quoted $"a"
       ++ $",], inner: {ok: true,},}"
  /\ Literal.intended Literal.nested_example
     = $"{" ++ quoted $"name" ++ $": " ++ quoted $"x" ++ $", " ++ quoted $"age"
       ++ $": 3, " ++ quoted $"tags" ++ $": [" ++ quoted $"a" ++ $"], " ++ quoted $"inner"
       ++ $": {" ++ quoted $"ok" ++ $": true}}"
  /\ Literal.text_of Literal.punctuated_example
     = $"{time: " ++ quoted $"10:30" ++ $", list: " ++ quoted $"a, b" ++ $",}"
  /\ Literal.text_of Literal.spaced_example = $"{ name : " ++ quoted $"x" ++ $" , }"
  /\ Literal.intended Literal.spaced_example
     = $"{ " ++ quoted $"name" ++ $": " ++ quoted $"x" ++ $" }"
  /\ Literal.text_of Literal.lines_example
     = $"{" ++ [Ch.LF] ++ $"  name: " ++ quoted $"x" ++ $"," ++ [Ch.LF] ++ $"  "
       ++ quoted $"tags" ++ $": [" ++ quoted $"a" ++ $", " ++ quoted $"b" ++ $",],"
       ++ [Ch.LF] ++ $"}".
Proof. repeat split. Qed.

(** They are literals of the family, [JSON.parse] rejects each, and the
    extractor returns the object each is meant to be. *)
Example literals_recovered :
  List.map Literal.relaxed
    [ Literal.spec_example; Literal.nested_example; Literal.punctuated_example;
      Literal.spaced_example; Literal.lines_example ]
  = [true; true; true; true; true]
  /\ List.map (fun l => Json.JSON_parse (Literal.text_of l))
       [ Literal.spec_example; Literal.nested_example; Literal.punctuated_example;
         Literal.spaced_example; Literal.lines_example ]
     = List.map (fun _ => Throw Json.unexpected_token) (seq 0 5)
  /\ parseJSONFromText (VStr (Literal.text_of Literal.spec_example)) VUndefined
     = Normal (object [("name", text "x")])
  /\ parseJSONFromText (VStr (Literal.text_of Literal.nested_example)) VUndefined
     = Normal (object [ ("name", text "x"); ("age", num 3); ("tags", texts ["a"]);
                        ("inner", object [("ok", VBool true)]) ])
  /\ parseJSONFromText (VStr (Literal.text_of Literal.punctuated_example)) VUndefined
     = Normal (object [("time", text "10:30"); ("list", text "a, b")])
  /\ parseJSONFromText (VStr (Literal.text_of Literal.spaced_example)) VUndefined
     = Normal (object [("name", text "x")])
  /\ parseJSONFromText (VStr (Literal.text_of Literal.lines_example)) VUndefined
     = Normal (object [("name", text "x"); ("tags", texts ["a"; "b"])]).
Proof. repeat split; vm_compute; reflexivity. Qed.

(** The literal that is not recovered is none of the family: its string
    holds a word between a space and a colon. *)
Example colon_example_is_not_relaxed :
  Literal.text_of Literal.colon_example = bare_object $"name" $"a b: c"
  /\ Literal.relaxed Literal.colon_example = false
  /\ Literal.quiet $"a b: c" = false
  /\ Literal.unmatched Pattern.bare_key $"a b: c" = false.
Proof. repeat split. Qed.
